(** * sequelize-seeder-factory-json: normalizer and seeding orchestrator

    A shallow embedding of [lib/data-processor.js] (the record normalizer)
    and of [lib/seeder-factory.js] / [lib/seeder-config.js] (the seeding
    orchestrator and the configuration merge), with the properties the
    design document states about them. *)

From Stdlib Require Import ZArith String Ascii List Lia Bool.
From Stdlib Require Import Floats.PrimFloat.
From Stdlib Require Floats.SpecFloat Floats.FloatOps Floats.FloatAxioms.
From stdpp Require Import base option list gmap strings pretty.

Local Open Scope string_scope.
Local Open Scope list_scope.

(** ** JavaScript strings

    A string is the sequence of its code units; the development covers
    text in the Latin-1 range, one [ascii] per code unit. *)

Module JsString.

(** The code units [String.prototype.trim] strips, within Latin-1:
    TAB, LF, VT, FF, CR, SPACE and NO-BREAK SPACE. *)
Definition is_whitespace (c : ascii) : bool :=
  match c with
  | "009" | "010" | "011" | "012" | "013" | " " | "160" => true
  | _ => false
  end%char.

Fixpoint skip_whitespace (l : list ascii) : list ascii :=
  match l with
  | [] => []
  | c :: l' => if is_whitespace c then skip_whitespace l' else l
  end.

Definition trim_chars (l : list ascii) : list ascii :=
  rev (skip_whitespace (rev (skip_whitespace l))).

(** [value.trim()] *)
Definition trim (s : string) : string :=
  string_of_list_ascii (trim_chars (list_ascii_of_string s)).

(** [toLowerCase], on the letters of Latin-1. *)
Definition lower_char (c : ascii) : ascii :=
  let n := nat_of_ascii c in
  if ((65 <=? n) && (n <=? 90))%nat then ascii_of_nat (n + 32)
  else if ((192 <=? n) && (n <=? 222) && negb (n =? 215))%nat
       then ascii_of_nat (n + 32)
  else c.

Fixpoint toLowerCase (s : string) : string :=
  match s with
  | EmptyString => EmptyString
  | String c s' => String (lower_char c) (toLowerCase s')
  end.

(** [s.length > 0] *)
Definition nonempty (s : string) : bool := (0 <? String.length s)%nat.

End JsString.

Import JsString.

(** ** JavaScript values

    The values a seed record can hold.  JSON data gives null, booleans,
    numbers, strings, arrays and objects; seed data built in code can also
    hold [undefined], dates, big integers and symbols.  Objects are finite
    maps from property names to values. *)

#[warnings="-register-all"]
Inductive value : Type :=
| VUndefined
| VNull
| VBool (b : bool)
| VNum (x : float)
| VStr (s : string)
| VBigInt (n : Z)
| VSymbol (description : string)
| VDate (time : Z)
| VArr (elems : list value)
| VObj (props : gmap string value).

Abbreviation record := (gmap string value).

(** The results of [typeof]. *)
Inductive jstype : Set :=
| TyUndefined | TyObject | TyBoolean | TyNumber | TyString | TyBigint | TySymbol.

Definition typeof (v : value) : jstype :=
  match v with
  | VUndefined => TyUndefined
  | VNull | VDate _ | VArr _ | VObj _ => TyObject
  | VBool _ => TyBoolean
  | VNum _ => TyNumber
  | VStr _ => TyString
  | VBigInt _ => TyBigint
  | VSymbol _ => TySymbol
  end.

Definition jstype_eqb (a b : jstype) : bool :=
  match a, b with
  | TyUndefined, TyUndefined | TyObject, TyObject | TyBoolean, TyBoolean
  | TyNumber, TyNumber | TyString, TyString | TyBigint, TyBigint
  | TySymbol, TySymbol => true
  | _, _ => false
  end.

(** [ToBoolean]: what [!v] negates. *)
Definition truthy (v : value) : bool :=
  match v with
  | VUndefined | VNull => false
  | VBool b => b
  | VNum x => negb (PrimFloat.eqb x 0%float || negb (PrimFloat.eqb x x))
  | VStr s => nonempty s
  | VBigInt n => negb (n =? 0)%Z
  | VSymbol _ | VDate _ | VArr _ | VObj _ => true
  end.

(** [Array.isArray] *)
Definition Array_isArray (v : value) : bool :=
  match v with VArr _ => true | _ => false end.

(** [v == null] *)
Definition is_nullish (v : value) : bool :=
  match v with VUndefined | VNull => true | _ => false end.

(** The own enumerable string-keyed properties of a value, as
    [Object.entries] lists them and [hasOwnProperty] tests them: the
    properties of an object, the indices of an array or of a string. *)
Definition own_enumerable (v : value) : record :=
  match v with
  | VObj props => props
  | VArr elems => list_to_map (imap (fun i e => (pretty i, e)) elems)
  | VStr s =>
      list_to_map
        (imap (fun i c => (pretty i, VStr (String c EmptyString)))
              (list_ascii_of_string s))
  | _ => ∅
  end.

Definition Object_entries (v : value) : list (string * value) :=
  map_to_list (own_enumerable v).

(** An object the code builds, starting from [{}], by assigning to its
    properties: its own fields, and its prototype once that is no longer
    [Object.prototype] ([None] stands for [Object.prototype], [Some VNull]
    for no prototype at all).  A [VObj] is an object as [JSON.parse] makes
    it: all its fields are its own, [__proto__] included, and its prototype
    is [Object.prototype]. *)
Record object : Type := {
  own : record;
  proto : option value
}.

(** [{}] *)
Definition empty_object : object := {| own := ∅; proto := None |}.

(** [obj[key] = v], on an object that has no field [__proto__] of its own
    and inherits that name from [Object.prototype] only.  Every name but
    [__proto__] becomes or stays an own field.  [__proto__] is an accessor
    of [Object.prototype]: the assignment calls its setter, which makes an
    object or null the prototype of [obj], does nothing with any other
    value, and in no case adds a field to [obj].  (The objects the code
    assigns to are in that state when it assigns at [__proto__]: a record
    has one field of that name, and until it is copied the object under
    construction has the prototype it was created with.) *)
Definition assign (obj : object) (key : string) (v : value) : object :=
  if decide (key = "__proto__") then
    match v with
    | VNull | VDate _ | VArr _ | VObj _ => {| own := own obj; proto := Some v |}
    | _ => obj
    end
  else {| own := <[key := v]> (own obj); proto := proto obj |}.

(** ** Errors

    The code throws plain [Error] objects told apart by their message; each
    constructor stands for one message, named after the design document's
    taxonomy.  [TypeError] stands for the type errors the engine itself
    throws. *)
Inductive error : Type :=
| DataFileNotFoundError (dataFile : string)
    (* "Data file not found: <dataFile>" *)
| InvalidJsonError (dataFile : string)
    (* "Invalid JSON in data file: <dataFile>" *)
| InvalidDataShapeError (got : jstype)
    (* "Data must be an array. Got: <typeof data>" *)
| InvalidRecordError (index : nat)
    (* "Invalid item at index <index>: must be an object" *)
| InvalidConfigError
    (* "Batch size must be greater than 0" *)
| DatabaseOperationError (detail : string)
    (* the rejection of a bulkInsert or bulkDelete call *)
| FileSystemError (code : string)
    (* any other rejection of fs.readFile, rethrown as it is *)
| TypeError.
    (* a property read on null or undefined, or a call of a property that
       holds no function: "<x> is not a function" *)

(** ** The record normalizer ([lib/data-processor.js]) *)

Module DataProcessor.

(** The body of the [forEach] callback of [processGeneric]: what one
    entry [(key, value)] does to [processed], the object under
    construction. *)
Definition process_entry (processed : object) (entry : string * value)
  : object :=
  let '(key, value) := entry in
  match value with
  | VNull | VUndefined => processed
  | VStr s =>
      let cleaned := trim s in
      if nonempty cleaned then assign processed key (VStr cleaned)
      else processed
  | VNum _ => assign processed key value
  | VBool _ => assign processed key value
  | VDate _ => assign processed key value
  | VArr _ => assign processed key value
  | VObj _ => assign processed key value
  | VBigInt n => assign processed key (VStr (pretty n))
  | VSymbol d => assign processed key (VStr ("Symbol(" +:+ d +:+ ")"))
  end.

(** [static processGeneric(item, index = 0)]: the object [processed] it
    returns. *)
Definition processGeneric_result (item : value) (index : nat)
  : error + object :=
  if negb (truthy item) || negb (jstype_eqb (typeof item) TyObject)
  then inl (InvalidRecordError index)
  else inr (fold_left process_entry (Object_entries item) empty_object).

(** The record [processGeneric] returns: the own fields of that object,
    which are what [Object.entries], a spread and a serialization of it
    see. *)
Definition processGeneric (item : value) (index : nat) : error + record :=
  match processGeneric_result item index with
  | inl e => inl e
  | inr processed => inr (own processed)
  end.

(** The instance method, [processGeneric(item, config = {})]: it calls
    the static method with index 0 and drops the configuration. *)
Definition processGeneric_instance {Config : Type}
  (item : value) (config : Config) : error + object :=
  processGeneric_result item 0.

End DataProcessor.

(** ** The world around the orchestrator

    The database, the file system and the clock are not part of the
    program.  A run is followed through a trace of the calls it makes; how
    the world answers is fixed by an environment. *)

(** A deletion predicate as [removeData] builds it:
    [{[Op.or]: [{f1: {[Op.in]: vs1}}, {f2: {[Op.in]: vs2}}, ...]}]. *)
Inductive where_clause : Type :=
| WhereOr (conditions : list (string * list value)).

Inductive event : Type :=
| ReadFile (path : string)
    (* fs.readFile(path, "utf8") *)
| BulkInsert (tableName : string) (records : list value)
    (options : option record)
    (* queryInterface.bulkInsert(tableName, records[, options]) *)
| BulkDelete (tableName : string) (predicate : option where_clause)
    (options : option record).
    (* queryInterface.bulkDelete(tableName, predicate[, options]) *)

Definition is_db_call (e : event) : bool :=
  match e with ReadFile _ => false | _ => true end.

Definition db_calls (t : list event) : list event := filter is_db_call t.

(** What [fs.readFile] settles to. *)
Inductive read_result : Type :=
| FileText (content : string)
| ENOENT
| ReadFailure (code : string).

(** The resolved configuration of one entity.  [validFields] and
    [uniqueFields] are [None] when the caller overrides them with null or
    undefined.  Batch sizes are integers. *)
Record EntityConfig : Type := {
  entityType : string;
  tableName : string;
  dataFile : string;
  processor : string;
  batchSize : Z;
  validFields : option (list string);
  uniqueFields : option (list string);
  requiredFields : list string
}.

(** The caller's overrides: a key is [None] when it is not given. *)
Record CustomConfig : Type := {
  custom_tableName : option string;
  custom_dataFile : option string;
  custom_batchSize : option Z;
  custom_validFields : option (option (list string));
  custom_uniqueFields : option (option (list string))
}.

Definition no_overrides : CustomConfig :=
  {| custom_tableName := None; custom_dataFile := None;
     custom_batchSize := None; custom_validFields := None;
     custom_uniqueFields := None |}.

Record Env : Type := {
  (** the file system, by the path given to [fs.readFile] *)
  fs_readFile : string -> read_result;
  (** [JSON.parse]; [None] when it throws a [SyntaxError] *)
  JSON_parse : string -> option value;
  (** the instant (in milliseconds) the n-th [new Date()] of a run reads *)
  Date_now : nat -> Z;
  (** the database: given the calls made so far, whether it rejects the
      next one, and with which detail *)
  db_rejects : list event -> event -> option string;
  (** what the scan of the entity's model file finds: the [tableName]
      literal, the [modelName] literal ([None] when there is no model file
      or no match), the field names and the required field names (empty
      when there is no model file) *)
  model_tableName : string -> option string;
  model_modelName : string -> option string;
  discoverValidFields : string -> list string;
  discoverRequiredFields : string -> list string;
  (** the directory of the data files *)
  dataPath : string
}.

Record World : Type := {
  trace : list event;
  clock_reads : nat
}.

(** How a call ends. [OutOfFuel] marks a loop that was still running when
    the step budget of the model ran out. *)
Inductive outcome (A : Type) : Type :=
| Returned (a : A)
| Thrown (e : error)
| OutOfFuel.
Arguments Returned {A} a.
Arguments Thrown {A} e.
Arguments OutOfFuel {A}.

(** Computations that act on the world and may throw. *)
Definition M (A : Type) : Type := World -> World * outcome A.

Definition ret {A} (a : A) : M A := fun w => (w, Returned a).

Definition throw {A} (e : error) : M A := fun w => (w, Thrown e).

Definition out_of_fuel {A} : M A := fun w => (w, OutOfFuel).

Definition bind {A B} (m : M A) (k : A -> M B) : M B := fun w =>
  match m w with
  | (w', Returned a) => k a w'
  | (w', Thrown e) => (w', Thrown e)
  | (w', OutOfFuel) => (w', OutOfFuel)
  end.

(** [try { body } catch (e) { handler }] *)
Definition try_catch {A} (body : M A) (handler : error -> M A) : M A :=
  fun w =>
    match body w with
    | (w', Thrown e) => handler e w'
    | r => r
    end.

Definition lift {A} (r : error + A) : M A :=
  match r with inl e => throw e | inr a => ret a end.

Declare Scope js_scope.
Delimit Scope js_scope with js.
Notation "x <- m ;; k" := (bind m (fun x => k))
  (at level 100, m at next level, right associativity) : js_scope.
Notation "m ;;; k" := (bind m (fun _ => k))
  (at level 100, right associativity) : js_scope.
Local Open Scope js_scope.

(** [for (const x of xs) acc.push(await f(x))] *)
Fixpoint for_each_push {A B} (f : A -> M B) (xs : list A) : M (list B) :=
  match xs with
  | [] => ret []
  | x :: xs' => y <- f x ;; ys <- for_each_push f xs' ;; ret (y :: ys)
  end.

(** [Array.prototype.slice]: a negative index counts from the end, and
    both ends are clamped to the array. *)
Definition relative_index (len k : Z) : Z :=
  if (k <? 0)%Z then Z.max (len + k) 0 else Z.min k len.

Definition Array_slice {A} (l : list A) (start stop : Z) : list A :=
  let len := Z.of_nat (length l) in
  let from := relative_index len start in
  let to := relative_index len stop in
  take (Z.to_nat (to - from)) (drop (Z.to_nat from) l).

(** [item[field]]: a read on null or undefined throws.  Field names are
    the names of data fields: what a read would find up the prototype chain
    ([__proto__], the members of [Object.prototype], the [length] of an
    array or a string) is outside the model. *)
Definition get_property (item : value) (field : string) : error + value :=
  if is_nullish item then inl TypeError
  else inr (default VUndefined (own_enumerable item !! field)).

(** [obj.hasOwnProperty(field)]: the method is looked up on the object
    and then along its prototype chain, and called.  The fields of data
    hold no functions: when the object, or the object that was made its
    prototype, has a field named [hasOwnProperty], or when the object has
    no prototype, the call throws; otherwise the method of
    [Object.prototype] answers whether [field] is an own field. *)
Definition hasOwnProperty (obj : object) (field : string) : error + bool :=
  let builtin := inr (bool_decide (is_Some (own obj !! field))) in
  match own obj !! "hasOwnProperty" with
  | Some _ => inl TypeError
  | None =>
      match proto obj with
      | None => builtin
      | Some VNull => inl TypeError
      | Some p =>
          match own_enumerable p !! "hasOwnProperty" with
          | Some _ => inl TypeError
          | None => builtin
          end
      end
  end.

(** A value of the data as an object: its own fields, under
    [Object.prototype] (for an array or a string, under a prototype that
    has the same [hasOwnProperty]). *)
Definition as_object (item : value) : object :=
  {| own := own_enumerable item; proto := None |}.

(** ** Configuration ([lib/seeder-config.js]) *)

Module SeederConfig.
Section Config.
Variable env : Env.

(** [_pluralize] *)
Definition _pluralize (word : string) : string :=
  match rev (list_ascii_of_string word) with
  | "y"%char :: front => string_of_list_ascii (rev front) +:+ "ies"
  | "s"%char :: _ => word +:+ "es"
  | _ => word +:+ "s"
  end.

(** [_autoDiscoverTableName]: the fixed mapping, then the model file, then
    the entity name as it is. *)
Definition _autoDiscoverTableName (entity : string) : string :=
  if decide (entity = "Users") then "People"
  else if decide (entity = "User") then "People"
  else
    match model_tableName env entity with
    | Some name => name
    | None =>
        match model_modelName env entity with
        | Some name => _pluralize name
        | None => entity
        end
    end.

(** [_getDataFileName] *)
Definition _getDataFileName (entity : string) : string :=
  dataPath env +:+ "/" +:+ toLowerCase entity +:+ ".json".

(** [_autoDiscoverUniqueFields] *)
Definition _autoDiscoverUniqueFields (entity : string) : list string :=
  if decide (entity = "Users") then ["userName"; "email"]
  else if decide (entity = "User") then ["userName"; "email"]
  else ["name"].

(** [getEntityConfig]: the discovered configuration with the caller's
    overrides (the keys a seeder sets) spread over it.  The cache only saves recomputing the same
    record and is left out. *)
Definition getEntityConfig (entity : string) (customConfig : CustomConfig)
  : EntityConfig :=
  let autoConfig :=
    {| entityType := entity;
       tableName := _autoDiscoverTableName entity;
       dataFile := _getDataFileName entity;
       processor := "processGeneric";
       batchSize := 1000;
       validFields := Some (discoverValidFields env entity);
       uniqueFields := Some (_autoDiscoverUniqueFields entity);
       requiredFields := discoverRequiredFields env entity |} in
  {| entityType := entityType autoConfig;
     tableName := default (tableName autoConfig) (custom_tableName customConfig);
     dataFile := default (dataFile autoConfig) (custom_dataFile customConfig);
     processor := processor autoConfig;
     batchSize := default (batchSize autoConfig) (custom_batchSize customConfig);
     validFields :=
       default (validFields autoConfig) (custom_validFields customConfig);
     uniqueFields :=
       default (uniqueFields autoConfig) (custom_uniqueFields customConfig);
     requiredFields := requiredFields autoConfig |}.

End Config.
End SeederConfig.

(** ** The seeding orchestrator ([lib/seeder-factory.js]) *)

Module SeederFactory.
Section Factory.
Variable env : Env.

(** [new Date()] *)
Definition new_Date : M Z := fun w =>
  ({| trace := trace w; clock_reads := S (clock_reads w) |},
   Returned (Date_now env (clock_reads w))).

(** A call to the database interface: it is recorded, and the database
    accepts or rejects it. *)
Definition db_call (e : event) : M unit := fun w =>
  let w' := {| trace := trace w ++ [e]; clock_reads := clock_reads w |} in
  match db_rejects env (trace w) e with
  | Some detail => (w', Thrown (DatabaseOperationError detail))
  | None => (w', Returned tt)
  end.

Definition bulkInsert (table : string) (records : list value)
  (options : option record) : M unit :=
  db_call (BulkInsert table records options).

Definition bulkDelete (table : string) (predicate : option where_clause)
  (options : option record) : M unit :=
  db_call (BulkDelete table predicate options).

(** [_loadDataFile] *)
Definition _loadDataFile (path : string) : M value := fun w =>
  let w' := {| trace := trace w ++ [ReadFile path];
               clock_reads := clock_reads w |} in
  match fs_readFile env path with
  | FileText fileContent =>
      match JSON_parse env fileContent with
      | Some parsed => (w', Returned parsed)
      | None => (w', Thrown (InvalidJsonError path))
      end
  | ENOENT => (w', Thrown (DataFileNotFoundError path))
  | ReadFailure code => (w', Thrown (FileSystemError code))
  end.

(** The field filter of [processData]: the loop over [config.validFields]
    that copies the fields the processed object owns,
    [if (processed.hasOwnProperty(field)) filtered[field] = processed[field]]. *)
Fixpoint filter_loop (processed : object) (fields : list string)
  (filtered : object) : error + object :=
  match fields with
  | [] => inr filtered
  | field :: rest =>
      match hasOwnProperty processed field with
      | inl e => inl e
      | inr true =>
          filter_loop processed rest
            (assign filtered field
               (default VUndefined (own processed !! field)))
      | inr false => filter_loop processed rest filtered
      end
  end.

Definition filter_fields (processed : object) (fields : list string)
  : error + object :=
  filter_loop processed fields empty_object.

(** The body of the loop of [processData].  An array is truthy, also the
    empty one, so the filter runs whenever [config.validFields] is a list.
    The object pushed on [processedData] is given by its own fields: they
    are all that [insertData] copies into a row.  (With the filter off the
    object pushed is [processed] itself, prototype included.) *)
Definition process_item (config : EntityConfig) (filterValidFields : bool)
  (item : value) : M record :=
  processed <- lift (DataProcessor.processGeneric_instance item config) ;;
  match filterValidFields, validFields config with
  | true, Some fields =>
      filtered <- lift (filter_fields processed fields) ;;
      ret (own filtered)
  | _, _ => ret (own processed)
  end.

(** [processData(entityType, {customConfig, filterValidFields})] *)
Definition processData (entity : string) (customConfig : CustomConfig)
  (filterValidFields : bool) : M (list record) :=
  try_catch
    (let config := SeederConfig.getEntityConfig env entity customConfig in
     data <- _loadDataFile (dataFile config) ;;
     match data with
     | VArr items => for_each_push (process_item config filterValidFields) items
     | _ => throw (InvalidDataShapeError (typeof data))
     end)
    (fun error => throw error).

(** The first loop of [bulkInsertInBatches]:
    [for (let i = 0; i < data.length; i += batchSize)
       batches.push(data.slice(i, i + batchSize))]. *)
Fixpoint make_batches (fuel : nat) (data : list value) (batchSize i : Z)
  (batches : list (list value)) : option (list (list value)) :=
  if (i <? Z.of_nat (length data))%Z then
    match fuel with
    | O => None
    | S fuel' =>
        make_batches fuel' data batchSize (i + batchSize)
          (batches ++ [Array_slice data i (i + batchSize)])
    end
  else Some batches.

(** The second loop: one awaited [bulkInsert] per batch, in order. *)
Fixpoint insert_batches (table : string) (options : option record)
  (batches : list (list value)) : M unit :=
  match batches with
  | [] => ret tt
  | batch :: rest =>
      bulkInsert table batch options ;;; insert_batches table options rest
  end.

(** [static bulkInsertInBatches(queryInterface, tableName, data, batchSize,
    options)], with the defaults of the last two arguments resolved. *)
Definition bulkInsertInBatches (fuel : nat) (table : string) (data : value)
  (batchSize : Z) (options : record) : M unit :=
  match data with
  | VArr records =>
      if (length records =? 0)%nat then ret tt
      else if (batchSize <=? 0)%Z then throw InvalidConfigError
      else
        match make_batches fuel records batchSize 0 [] with
        | None => out_of_fuel
        | Some batches =>
            try_catch
              (insert_batches table
                 (Some (options ∪ {["ignoreDuplicates" := VBool false]}))
                 batches)
              (fun error => throw error)
        end
  | _ => ret tt
  end.

(** [static addTimestamps(data, timestamp = null)]: one instant for the
    whole array. *)
Definition addTimestamps (data : list record) (timestamp : option Z)
  : M (list value) :=
  now <- match timestamp with Some t => ret t | None => new_Date end ;;
  ret (map (fun item =>
              VObj (<["updatedAt" := VDate now]>
                      (<["createdAt" := VDate now]> item)))
           data).

(** The callback of the [map] of [insertData]:
    [item => ({...item, createdAt: new Date(), updatedAt: new Date()})]. *)
Definition stamp (item : record) : M value :=
  createdAt <- new_Date ;;
  updatedAt <- new_Date ;;
  ret (VObj (<["updatedAt" := VDate updatedAt]>
               (<["createdAt" := VDate createdAt]> item))).

(** The loop of [insertData]:
    [for (let i = 0; i < data.length; i += batchSize) {
       const batch = data.slice(i, i + batchSize);
       await this.queryInterface.bulkInsert(config.tableName, batch); }]. *)
Fixpoint insert_loop (fuel : nat) (table : string) (data : list value)
  (batchSize i : Z) : M unit :=
  if (i <? Z.of_nat (length data))%Z then
    match fuel with
    | O => out_of_fuel
    | S fuel' =>
        let batch := Array_slice data i (i + batchSize) in
        bulkInsert table batch None ;;;
        insert_loop fuel' table data batchSize (i + batchSize)
    end
  else ret tt.

(** Steps 3 and 4 of [insertData]: the batch size, then the loop. *)
Definition insert_in_batches (fuel : nat) (config : EntityConfig)
  (dataWithTimestamps : list value) : M unit :=
  let batchSize :=
    if (batchSize config =? 0)%Z then 1000%Z else batchSize config in
  insert_loop fuel (tableName config) dataWithTimestamps batchSize 0.

(** [insertData(entityType, processedData, {customConfig})] *)
Definition insertData (fuel : nat) (entity : string)
  (processedData : list record) (customConfig : CustomConfig) : M unit :=
  let config := SeederConfig.getEntityConfig env entity customConfig in
  try_catch
    (dataWithTimestamps <- for_each_push stamp processedData ;;
     insert_in_batches fuel config dataWithTimestamps)
    (fun error => throw error).

(** [data.map(item => item[field]).filter(val => val != null)] *)
Definition field_values (data : list value) (field : string)
  : M (list value) :=
  vs <- for_each_push (fun item => lift (get_property item field)) data ;;
  ret (filter (fun val => negb (is_nullish val)) vs).

(** The loop over [config.uniqueFields] that builds [conditions]. *)
Fixpoint build_conditions (data : list value) (fields : list string)
  (conditions : list (string * list value))
  : M (list (string * list value)) :=
  match fields with
  | [] => ret conditions
  | field :: rest =>
      values <- field_values data field ;;
      if (0 <? length values)%nat
      then build_conditions data rest (conditions ++ [(field, values)])
      else build_conditions data rest conditions
  end.

(** The targeted removal of [removeData]; it returns whether the function
    has returned from inside it. *)
Definition targeted_removal (config : EntityConfig) (fields : list string)
  : M bool :=
  try_catch
    (data <- _loadDataFile (dataFile config) ;;
     match data with
     | VArr items =>
         if (0 <? length items)%nat then
           conditions <- build_conditions items fields [] ;;
           if (0 <? length conditions)%nat then
             bulkDelete (tableName config) (Some (WhereOr conditions)) None ;;;
             ret true
           else ret false
         else ret false
     | _ => ret false
     end)
    (fun fileError => ret false).

(** [removeData(entityType, {customConfig})] *)
Definition removeData (entity : string) (customConfig : CustomConfig)
  : M unit :=
  let config := SeederConfig.getEntityConfig env entity customConfig in
  try_catch
    (returned <-
       match uniqueFields config with
       | Some fields =>
           if (0 <? length fields)%nat then targeted_removal config fields
           else ret false
       | None => ret false
       end ;;
     if returned then ret tt
     else bulkDelete (tableName config) None (Some ∅))
    (fun error => throw error).

End Factory.
End SeederFactory.

(** ** Definitions the statements use *)

(** The per-field rule of the design document, section 4.2: what becomes
    of a field holding [v]; [None] when the field is dropped. *)
Definition spec_normalize_field (v : value) : option value :=
  match v with
  | VNull | VUndefined => None
  | VStr s => if decide (trim s = "") then None else Some (VStr (trim s))
  | VNum _ | VBool _ | VDate _ | VArr _ | VObj _ => Some v
  | VBigInt n => Some (VStr (pretty n))
  | VSymbol d => Some (VStr ("Symbol(" +:+ d +:+ ")"))
  end.

(** A non-null object, as the guard of [processGeneric] accepts it. *)
Definition is_object (v : value) : bool :=
  match v with VDate _ | VArr _ | VObj _ => true | _ => false end.

Definition no_whitespace (s : string) : Prop :=
  Forall (fun c => is_whitespace c = false) (list_ascii_of_string s).

(** The batches of [n] records that partition a list in order. *)
Fixpoint chunks_go (fuel n : nat) (l : list value) : list (list value) :=
  match fuel with
  | O => []
  | S fuel' =>
      match l with
      | [] => []
      | _ :: _ => take n l :: chunks_go fuel' n (drop n l)
      end
  end.

Definition chunks (n : nat) (l : list value) : list (list value) :=
  chunks_go (length l) n l.

(** The batching property of the design document, section 8: [ceil(N/B)]
    batches, every batch but the last of [B] records, the last of
    [N mod B] records when that is not zero (and of [B] otherwise), and
    the batches in order give back the dataset. *)
Definition batches_partition (B : Z) (dataset : list value)
  (batches : list (list value)) : Prop :=
  let N := Z.of_nat (length dataset) in
  Z.of_nat (length batches) = ((N + B - 1) / B)%Z
  /\ (forall i batch,
         batches !! i = Some batch -> S i < length batches ->
         Z.of_nat (length batch) = B)
  /\ (forall batch,
         last batches = Some batch ->
         Z.of_nat (length batch)
         = if decide (N mod B = 0)%Z then B else (N mod B)%Z)
  /\ concat batches = dataset.

(** A database call without its options argument. *)
Definition erase_options (e : event) : event :=
  match e with
  | ReadFile path => ReadFile path
  | BulkInsert table records _ => BulkInsert table records None
  | BulkDelete table predicate _ => BulkDelete table predicate None
  end.

(** The bulk-inserts of a run: one per batch, each with the options the
    run passes. *)
Definition batch_calls (table : string) (options : option record)
  (batches : list (list value)) : list event :=
  (fun b => BulkInsert table b options) <$> batches.

(** The database answers two runs of calls alike, the first made after the
    calls [h1] and the second after the calls [h2]: as long as it has
    accepted the calls of the first run so far, it accepts the next call of
    both runs, or rejects the next call of both with the same detail. *)
Definition answers_alike (env : Env) (h1 h2 calls1 calls2 : list event)
  : Prop :=
  forall k e1 e2,
    calls1 !! k = Some e1 -> calls2 !! k = Some e2 ->
    (forall j e, j < k -> calls1 !! j = Some e ->
                 db_rejects env (h1 ++ take j calls1) e = None) ->
    db_rejects env (h1 ++ take k calls1) e1
    = db_rejects env (h2 ++ take k calls2) e2.

(** The database accepts every call. *)
Definition db_accepts_all (env : Env) : Prop :=
  forall history e, db_rejects env history e = None.

(** What the data file of a configuration loads as: [None] when it cannot
    be read or is not JSON. *)
Definition loads_as (env : Env) (path : string) : option value :=
  match fs_readFile env path with
  | FileText content => JSON_parse env content
  | _ => None
  end.

(** The non-null values of a field in the records of a file. *)
Definition non_null_values (items : list value) (field : string)
  : list value :=
  filter (fun v => negb (is_nullish v))
    ((fun item => default VUndefined (own_enumerable item !! field))
       <$> items).

(** The targeting predicate of the design document: one "field in values"
    condition per unique field that has values, joined by OR. *)
Definition targeting_conditions (items : list value) (fields : list string)
  : list (string * list value) :=
  omap (fun field =>
          match non_null_values items field with
          | [] => None
          | vs => Some (field, vs)
          end)
       fields.

(** Neither null nor undefined. *)
Definition not_nullish (item : value) : Prop := is_nullish item = false.

(** A run that takes the world from [w] to the result [r] issues the
    batches in order, one bulk-insert each: all of them when it returns, and
    up to the one the database rejects when it throws. *)
Definition issues_batches (table : string) (options : option record)
  (batches : list (list value)) (w : World) (r : World * outcome unit)
  : Prop :=
  exists k,
    k <= length batches
    /\ trace (fst r)
       = trace w ++ ((fun b => BulkInsert table b options) <$> take k batches)
    /\ (snd r = Returned tt /\ k = length batches
        \/ exists detail, snd r = Thrown (DatabaseOperationError detail)).

(** A record stamped at two instants. *)
Definition stamped_at (item : record) (created updated : Z) : value :=
  VObj (<["updatedAt" := VDate updated]>
          (<["createdAt" := VDate created]> item)).

(** The records of one [insertData] call as the code stamps them: two
    clock readings per record, starting at reading number [r]. *)
Fixpoint stamps_from (env : Env) (r : nat) (items : list record)
  : list value :=
  match items with
  | [] => []
  | item :: rest =>
      stamped_at item (Date_now env r) (Date_now env (S r))
      :: stamps_from env (S (S r)) rest
  end.

(** *** Environments for the examples *)

Definition double_quote : string := String "034"%char EmptyString.

(** A world where no model file exists, with the data files in [data]. *)
Definition example_env (files : string -> read_result)
  (parse : string -> option value) (clock : nat -> Z)
  (db : list event -> event -> option string) : Env :=
  {| fs_readFile := files;
     JSON_parse := parse;
     Date_now := clock;
     db_rejects := db;
     model_tableName := fun _ => None;
     model_modelName := fun _ => None;
     discoverValidFields := fun _ => [];
     discoverRequiredFields := fun _ => [];
     dataPath := "data" |}.

Definition accepting_db : list event -> event -> option string :=
  fun _ _ => None.

(** Whether a call sets the option [ignoreDuplicates]. *)
Definition ignoreDuplicates (options : option record) : bool :=
  match options with
  | Some o => from_option truthy false (o !! "ignoreDuplicates")
  | None => false
  end.

(** A table with a unique key on which all the rows of the data collide:
    the database takes the first bulk-insert and rejects every later one,
    unless the call sets [ignoreDuplicates]. *)
Definition unique_key_db : list event -> event -> option string :=
  fun history e =>
    match e with
    | BulkInsert _ _ options =>
        if ignoreDuplicates options then None
        else if (0 <? length (db_calls history))%nat then Some "duplicate key"
        else None
    | _ => None
    end.

Definition ticking_clock : nat -> Z := fun n => (1000 + Z.of_nat n)%Z.

Definition no_file : string -> read_result := fun _ => ENOENT.

Definition no_json : string -> option value := fun _ => None.

Definition start : World := {| trace := []; clock_reads := 0 |}.

Definition john : record := <["userName" := VStr "john"]> ∅.

Definition jane : record := <["userName" := VStr "jane"]> ∅.

(** John with one more field, and John with a field that hides the
    method [hasOwnProperty]. *)
Definition john_aged : record := <["age" := VNum 30]> john.

Definition masked_john : record := <["hasOwnProperty" := VStr "x"]> john.

(** A record whose field [__proto__] holds an object with a field named
    [hasOwnProperty]. *)
Definition masked_by_prototype : record :=
  <["__proto__" := VObj (<["hasOwnProperty" := VNull]> ∅)]> john.

(** John with an e-mail address that is blank. *)
Definition john_blank_email : record := <["email" := VStr "  "]> john.

(** The text [[{"userName":"john"}]]. *)
Definition john_json : string :=
  "[{" +:+ double_quote +:+ "userName" +:+ double_quote +:+ ":"
  +:+ double_quote +:+ "john" +:+ double_quote +:+ "}]".

(** The text ["not an array"], quotes included. *)
Definition not_an_array_json : string :=
  double_quote +:+ "not an array" +:+ double_quote.

(** A file system with one file, and a parser that knows one text. *)
Definition one_file (path content : string) : string -> read_result :=
  fun p => if decide (p = path) then FileText content else ENOENT.

Definition parses (text : string) (v : value) : string -> option value :=
  fun s => if decide (s = text) then Some v else None.

Definition with_batchSize (b : Z) : CustomConfig :=
  {| custom_tableName := None; custom_dataFile := None;
     custom_batchSize := Some b; custom_validFields := None;
     custom_uniqueFields := None |}.

Definition with_validFields (fields : list string) : CustomConfig :=
  {| custom_tableName := None; custom_dataFile := None;
     custom_batchSize := None; custom_validFields := Some (Some fields);
     custom_uniqueFields := None |}.

(** ** Model files and the configuration cache ([lib/seeder-config.js]) *)

Module ModelFiles.
Section Lookup.
(** [fs.existsSync], and the directory of the model files. *)
Variable existsSync : string -> bool.
Variable modelsPath : string.

(** [_singularize] *)
Definition _singularize (word : string) : string :=
  match rev (list_ascii_of_string word) with
  | "s"%char :: "e"%char :: "i"%char :: front =>
      string_of_list_ascii (rev front) +:+ "y"
  | "s"%char :: front => string_of_list_ascii (rev front)
  | _ => word
  end.

(** [a-z] *)
Definition is_lower_letter (c : ascii) : bool :=
  ((97 <=? nat_of_ascii c) && (nat_of_ascii c <=? 122))%nat.

(** [toUpperCase] of a letter of [a-z]. *)
Definition upper_letter (c : ascii) : ascii :=
  ascii_of_nat (nat_of_ascii c - 32).

(** [str.replace(/-([a-z])/g, g => g[1].toUpperCase())], on the code
    units: every hyphen followed by a lower-case letter gives way to the
    letter in upper case, scanning from the left. *)
Fixpoint camel_chars (l : list ascii) : list ascii :=
  match l with
  | [] => []
  | c :: rest =>
      match rest with
      | d :: rest' =>
          if Ascii.eqb c "-" && is_lower_letter d
          then upper_letter d :: camel_chars rest'
          else c :: camel_chars rest
      | [] => [c]
      end
  end.

(** [_camelCase] *)
Definition _camelCase (str : string) : string :=
  string_of_list_ascii (camel_chars (list_ascii_of_string str)).

(** The candidate names of [_findModelFile], in the order they are tried. *)
Definition possibleNames (entity : string) : list string :=
  let names :=
    [toLowerCase entity;
     toLowerCase (_singularize entity);
     _camelCase (toLowerCase entity);
     _camelCase (toLowerCase (_singularize entity))] in
  if decide (entity = "Users") then "person" :: names
  else if decide (entity = "User") then "person" :: names
  else names.

Definition model_path (name : string) : string :=
  modelsPath +:+ "/" +:+ name +:+ ".js".

(** The loop of [_findModelFile] over the candidates. *)
Fixpoint first_existing (names : list string) : option string :=
  match names with
  | [] => None
  | name :: rest =>
      let filePath := model_path name in
      if existsSync filePath then Some filePath else first_existing rest
  end.

(** [_findModelFile] *)
Definition _findModelFile (entity : string) : option string :=
  first_existing (possibleNames entity).

End Lookup.
End ModelFiles.

Module CachedConfig.
Section Cache.
(** [JSON.stringify] of the caller's overrides. *)
Variable JSON_stringify : CustomConfig -> string.

Definition cacheKey (entity : string) (customConfig : CustomConfig) : string :=
  entity +:+ "_" +:+ JSON_stringify customConfig.

(** [getEntityConfig] with its cache: the cached record when the key is
    known, else the computed one, which is stored. *)
Definition getEntityConfig (env : Env) (cache : gmap string EntityConfig)
  (entity : string) (customConfig : CustomConfig)
  : EntityConfig * gmap string EntityConfig :=
  let key := cacheKey entity customConfig in
  match cache !! key with
  | Some config => (config, cache)
  | None =>
      let config := SeederConfig.getEntityConfig env entity customConfig in
      (config, <[key := config]> cache)
  end.

(** [clearCache] *)
Definition clearCache (cache : gmap string EntityConfig)
  : gmap string EntityConfig := ∅.

(** A series of resolutions on one resolver; the files on disk, hence the
    environment, may differ from one call to the next. *)
Fixpoint resolve_all (cache : gmap string EntityConfig)
  (requests : list (Env * string * CustomConfig))
  : list EntityConfig * gmap string EntityConfig :=
  match requests with
  | [] => ([], cache)
  | (env, entity, customConfig) :: rest =>
      let '(config, cache') := getEntityConfig env cache entity customConfig in
      let '(configs, cache'') := resolve_all cache' rest in
      (config :: configs, cache'')
  end.

End Cache.
End CachedConfig.

(** ** What a processed record is *)

(** The own fields of the object the normalizer makes of an item: what
    the per-field rule of section 4.2 makes of each field, but for a field
    named [__proto__], which is not stored. *)
Definition normalized (item : value) : record :=
  delete "__proto__" (omap spec_normalize_field (own_enumerable item)).

(** The prototype of that object when it is no longer [Object.prototype]:
    the object, array or date the item holds in a field [__proto__]. *)
Definition normalized_proto (item : value) : option value :=
  match own_enumerable item !! "__proto__" with
  | Some (VDate t) => Some (VDate t)
  | Some (VArr elems) => Some (VArr elems)
  | Some (VObj props) => Some (VObj props)
  | _ => None
  end.

(** The processed object of the item does not answer [hasOwnProperty]: a
    field of that name survives normalization, or the object the item
    holds under [__proto__] has one. *)
Definition shadows_hasOwnProperty (item : value) : bool :=
  bool_decide (is_Some (normalized item !! "hasOwnProperty"))
  || match normalized_proto item with
     | Some p => bool_decide (is_Some (own_enumerable p !! "hasOwnProperty"))
     | None => false
     end.

(** The object answers [hasOwnProperty]: it has a prototype, and neither
    the object nor the value that was made its prototype has a field of
    that name. *)
Definition answers_hasOwnProperty (obj : object) : bool :=
  bool_decide (own obj !! "hasOwnProperty" = None)
  && match proto obj with
     | None => true
     | Some VNull => false
     | Some p => bool_decide (own_enumerable p !! "hasOwnProperty" = None)
     end.

(** The filter of [processData] has a field to ask for: it is on, and the
    list of valid fields is not empty. *)
Definition filter_asks (config : EntityConfig) (filterValidFields : bool)
  : bool :=
  match filterValidFields, validFields config with
  | true, Some (_ :: _) => true
  | _, _ => false
  end.

(** A record cut down to the listed fields. *)
Definition projected (fields : list string) (processed : record) : record :=
  filter (fun entry => entry.1 ∈ fields) processed.

(** What [processData] makes of one item under a configuration. *)
Definition processed_record (config : EntityConfig) (filterValidFields : bool)
  (item : value) : record :=
  match filterValidFields, validFields config with
  | true, Some fields => projected fields (normalized item)
  | _, _ => normalized item
  end.

(** ** The seeder template ([templates/seeder-template.js]) *)

Module SeederTemplate.
Section Seeder.
Variable env : Env.
(** [ENTITY_NAME] and [CUSTOM_CONFIG] *)
Variable ENTITY_NAME : string.
Variable CUSTOM_CONFIG : CustomConfig.

(** [up] *)
Definition up (fuel : nat) : M unit :=
  try_catch
    (processedData <-
       SeederFactory.processData env ENTITY_NAME CUSTOM_CONFIG true ;;
     if (length processedData =? 0)%nat then ret tt
     else SeederFactory.insertData env fuel ENTITY_NAME processedData
            CUSTOM_CONFIG)
    (fun error => throw error).

(** [down] *)
Definition down : M unit :=
  try_catch
    (SeederFactory.removeData env ENTITY_NAME CUSTOM_CONFIG)
    (fun error => throw error).

End Seeder.
End SeederTemplate.

(** ** Validation ([SeederFactory.validateRequiredFields] and the
    validator class of [lib/data-processor.js]) *)

(** The messages of the validators, one constructor per message text. *)
Inductive message : Type :=
| DataMustBeArray
    (* "Data must be an array" *)
| RequiredFieldsMustBeArray
    (* "Required fields must be an array" *)
| MissingRequiredField (index : nat) (field : string)
    (* "Record <index>: Missing required field '<field>'" *)
| EntityDataMustBeArray (entityName : string)
    (* "<entityName> data must be an array" *)
| DuplicateValue (entityName : string) (v : value) (fieldName : string)
    (firstIndex index : nat)
    (* "<entityName>: Duplicate value '<v>' for field '<fieldName>' found at
       indices <firstIndex> and <index>" *)
| SourceAndTargetMustBeArrays
    (* "Source and target data must be arrays" *)
| ReferenceNotFound (sourceName : string) (index : nat)
    (sourceField : string) (referenceValue : value)
    (targetName targetField : string).
    (* "<sourceName> item at index <index>: Reference '<sourceField>' value
       '<referenceValue>' not found in <targetName>.<targetField>" *)

(** A validation result; [errors] and [warnings] are [None] when the
    object has no such key. *)
Record ValidationResult (A : Type) : Type := {
  isValid : bool;
  errors : option (list A);
  warnings : option (list A)
}.
Arguments isValid {A} _.
Arguments errors {A} _.
Arguments warnings {A} _.

(** The keys of a [Map] and the members of a [Set] are compared by
    SameValueZero: primitives by value, with NaN equal to itself and the
    two zeros equal; objects, arrays, dates and symbols by identity, and
    the values of a dataset are distinct objects. *)
Definition SameValueZero (a b : value) : bool :=
  match a, b with
  | VUndefined, VUndefined => true
  | VNull, VNull => true
  | VBool x, VBool y => Bool.eqb x y
  | VNum x, VNum y =>
      PrimFloat.eqb x y
      || (negb (PrimFloat.eqb x x) && negb (PrimFloat.eqb y y))
  | VStr x, VStr y => String.eqb x y
  | VBigInt x, VBigInt y => (x =? y)%Z
  | _, _ => false
  end.

Module SeederValidation.

(** What [requiredFields] can be. *)
Inductive fields_arg : Type :=
| FieldList (fields : list string)
| NotAFieldList.

(** The test of [validateRequiredFields] on one record and one field:
    [!item.hasOwnProperty(field) || item[field] === null ||
     item[field] === undefined]. *)
Definition field_missing (item : value) (field : string) : error + bool :=
  if is_nullish item then inl TypeError
  else
    match hasOwnProperty (as_object item) field with
    | inl e => inl e
    | inr false => inr true
    | inr true =>
        match get_property item field with
        | inl e => inl e
        | inr v => inr (is_nullish v)
        end
    end.

(** [requiredFields.forEach(field => ...)] for one record. *)
Fixpoint check_fields (item : value) (index : nat) (fields : list string)
  (errors : list message) : error + list message :=
  match fields with
  | [] => inr errors
  | field :: rest =>
      match field_missing item field with
      | inl e => inl e
      | inr true =>
          check_fields item index rest
            (errors ++ [MissingRequiredField index field])
      | inr false => check_fields item index rest errors
      end
  end.

(** [data.forEach((item, index) => ...)] *)
Fixpoint check_items (items : list value) (index : nat)
  (fields : list string) (errors : list message) : error + list message :=
  match items with
  | [] => inr errors
  | item :: rest =>
      match check_fields item index fields errors with
      | inl e => inl e
      | inr errors' => check_items rest (S index) fields errors'
      end
  end.

(** [static validateRequiredFields(data, requiredFields = [])] *)
Definition validateRequiredFields (data : value) (requiredFields : fields_arg)
  : error + ValidationResult message :=
  match data with
  | VArr items =>
      match requiredFields with
      | FieldList fields =>
          match check_items items 0 fields [] with
          | inl e => inl e
          | inr errors =>
              inr {| isValid := (length errors =? 0)%nat;
                     errors := Some errors;
                     warnings := None |}
          end
      | NotAFieldList =>
          inr {| isValid := false;
                 errors := Some [RequiredFieldsMustBeArray];
                 warnings := None |}
      end
  | _ =>
      inr {| isValid := false;
             errors := Some [DataMustBeArray];
             warnings := None |}
  end.

(** [value !== null && value !== undefined && value !== ""] *)
Definition has_value (v : value) : bool :=
  match v with
  | VNull | VUndefined => false
  | VStr s => negb (String.eqb s "")
  | _ => true
  end.

(** [valueMap.get(value)], on a map kept as its entries in insertion
    order. *)
Fixpoint Map_get (valueMap : list (value * nat)) (v : value) : option nat :=
  match valueMap with
  | [] => None
  | (key, index) :: rest =>
      if SameValueZero key v then Some index else Map_get rest v
  end.

(** The inner loop of [validateUniqueness], over the records, for one
    field. *)
Fixpoint scan_field (entityName fieldName : string) (items : list value)
  (index : nat) (valueMap : list (value * nat)) (errors : list message)
  : error + list message :=
  match items with
  | [] => inr errors
  | item :: rest =>
      match get_property item fieldName with
      | inl e => inl e
      | inr v =>
          if has_value v then
            match Map_get valueMap v with
            | Some firstIndex =>
                scan_field entityName fieldName rest (S index) valueMap
                  (errors ++
                   [DuplicateValue entityName v fieldName firstIndex index])
            | None =>
                scan_field entityName fieldName rest (S index)
                  (valueMap ++ [(v, index)]) errors
            end
          else scan_field entityName fieldName rest (S index) valueMap errors
      end
  end.

(** The outer loop, over the unique fields, each with a fresh map. *)
Fixpoint scan_fields (entityName : string) (items : list value)
  (uniqueFields : list string) (errors : list message)
  : error + list message :=
  match uniqueFields with
  | [] => inr errors
  | fieldName :: rest =>
      match scan_field entityName fieldName items 0 [] errors with
      | inl e => inl e
      | inr errors' => scan_fields entityName items rest errors'
      end
  end.

(** [static validateUniqueness(data, uniqueFields, entityName)] *)
Definition validateUniqueness (data : value) (uniqueFields : list string)
  (entityName : string) : error + ValidationResult message :=
  match data with
  | VArr items =>
      match scan_fields entityName items uniqueFields [] with
      | inl e => inl e
      | inr errors =>
          inr {| isValid := (length errors =? 0)%nat;
                 errors := Some errors;
                 warnings := Some [] |}
      end
  | _ =>
      inr {| isValid := false;
             errors := Some [EntityDataMustBeArray entityName];
             warnings := Some [] |}
  end.

(** [set.has(v)], on a set kept as its members in insertion order. *)
Definition Set_has (members : list value) (v : value) : bool :=
  existsb (fun member => SameValueZero member v) members.

(** [new Set(values)] *)
Definition Set_of (values : list value) : list value :=
  fold_left
    (fun members v => if Set_has members v then members else members ++ [v])
    values [].

(** [targetData.map(item => item[targetField])] *)
Fixpoint read_all (items : list value) (field : string)
  : error + list value :=
  match items with
  | [] => inr []
  | item :: rest =>
      match get_property item field with
      | inl e => inl e
      | inr v =>
          match read_all rest field with
          | inl e => inl e
          | inr vs => inr (v :: vs)
          end
      end
  end.

(** The loop of [validateCrossReferences] over the source records. *)
Fixpoint check_references (sourceName sourceField targetName targetField : string)
  (targetValues : list value) (items : list value) (index : nat)
  (errors : list message) : error + list message :=
  match items with
  | [] => inr errors
  | item :: rest =>
      match get_property item sourceField with
      | inl e => inl e
      | inr referenceValue =>
          if negb (is_nullish referenceValue)
             && negb (Set_has targetValues referenceValue)
          then
            check_references sourceName sourceField targetName targetField
              targetValues rest (S index)
              (errors ++
               [ReferenceNotFound sourceName index sourceField referenceValue
                  targetName targetField])
          else
            check_references sourceName sourceField targetName targetField
              targetValues rest (S index) errors
      end
  end.

(** [static validateCrossReferences(sourceData, targetData, sourceField,
    targetField, sourceName, targetName)] *)
Definition validateCrossReferences (sourceData targetData : value)
  (sourceField targetField sourceName targetName : string)
  : error + ValidationResult message :=
  match sourceData, targetData with
  | VArr sources, VArr targets =>
      match read_all targets targetField with
      | inl e => inl e
      | inr values =>
          match check_references sourceName sourceField targetName
                  targetField (Set_of values) sources 0 [] with
          | inl e => inl e
          | inr errors =>
              inr {| isValid := (length errors =? 0)%nat;
                     errors := Some errors;
                     warnings := Some [] |}
          end
      end
  | _, _ =>
      inr {| isValid := false;
             errors := Some [SourceAndTargetMustBeArrays];
             warnings := Some [] |}
  end.

(** The report of [generateValidationReport]. *)
Record Report (A : Type) : Type := {
  report_isValid : bool;
  totalValidations : nat;
  passedValidations : nat;
  failedValidations : nat;
  report_errors : list A;
  report_warnings : list A
}.
Arguments report_isValid {A} _.
Arguments totalValidations {A} _.
Arguments passedValidations {A} _.
Arguments failedValidations {A} _.
Arguments report_errors {A} _.
Arguments report_warnings {A} _.

(** The state of the loop of [generateValidationReport]:
    [allErrors], [allWarnings], [totalValidations], [passedValidations]. *)
Definition report_step {A} (state : list A * list A * nat * nat)
  (result : ValidationResult A) : list A * list A * nat * nat :=
  let '(allErrors, allWarnings, total, passed) := state in
  (match errors result with
   | Some es => allErrors ++ es
   | None => allErrors
   end,
   match warnings result with
   | Some ws => allWarnings ++ ws
   | None => allWarnings
   end,
   S total,
   if isValid result then S passed else passed).

(** [static generateValidationReport(validationResults)] *)
Definition generateValidationReport {A}
  (validationResults : list (ValidationResult A)) : Report A :=
  let '(allErrors, allWarnings, total, passed) :=
    fold_left report_step validationResults ([], [], 0, 0) in
  {| report_isValid := (length allErrors =? 0)%nat;
     totalValidations := total;
     passedValidations := passed;
     failedValidations := total - passed;
     report_errors := allErrors;
     report_warnings := allWarnings |}.

End SeederValidation.

(** ** Definitions the further statements use *)

(** The value of a field in a record that is neither null nor undefined:
    what [item[field]] reads. *)
Definition field_value (field : string) (item : value) : value :=
  default VUndefined (own_enumerable item !! field).

(** The record lacks the field, or holds null or undefined in it. *)
Definition lacks (item : value) (field : string) : Prop :=
  forall v, own_enumerable item !! field = Some v -> is_nullish v = true.

Definition lacksb (item : value) (field : string) : bool :=
  match own_enumerable item !! field with
  | None => true
  | Some v => is_nullish v
  end.

(** The record can be asked for its fields: it is neither null nor
    undefined, and has no field named [hasOwnProperty] that would hide the
    method. *)
Definition record_answers (item : value) : bool :=
  negb (is_nullish item) && answers_hasOwnProperty (as_object item).

(** The errors of [validateRequiredFields] for one record: one for each
    entry of the list of required fields that the record lacks, in the
    order of the list. *)
Definition missing_fields (index : nat) (item : value) (fields : list string)
  : list message :=
  omap (fun field =>
          if lacksb item field then Some (MissingRequiredField index field)
          else None)
       fields.

(** The errors one record adds to those of [validateRequiredFields], and
    those a run of records adds. *)
Fixpoint missing_in (item : value) (index : nat) (fields : list string)
  : list message :=
  match fields with
  | [] => []
  | field :: rest =>
      if lacksb item field
      then MissingRequiredField index field :: missing_in item index rest
      else missing_in item index rest
  end.

Fixpoint missing_from (index : nat) (items : list value) (fields : list string)
  : list message :=
  match items with
  | [] => []
  | item :: rest =>
      missing_in item index fields ++ missing_from (S index) rest fields
  end.

(** No two records hold, in the field, values that are the same: the
    values that count are those that are not null, undefined or the empty
    string. *)
Definition no_duplicates (field : string) (items : list value) : Prop :=
  forall i j u v,
    i < j ->
    (field_value field <$> items) !! i = Some u ->
    (field_value field <$> items) !! j = Some v ->
    SeederValidation.has_value u = true ->
    SeederValidation.has_value v = true ->
    SameValueZero u v = false.

(** The reference of a source record is found among the target records. *)
Definition reference_found (targetField : string) (targets : list value)
  (referenceValue : value) : Prop :=
  exists target,
    target ∈ targets
    /\ SameValueZero (field_value targetField target) referenceValue = true.

(** The reference dangles: it is neither null nor undefined, and no
    target record holds the same value in the target field. *)
Definition dangling (targetField : string) (targets : list value)
  (referenceValue : value) : bool :=
  negb (is_nullish referenceValue)
  && negb (existsb
             (fun target =>
                SameValueZero (field_value targetField target) referenceValue)
             targets).

(** ** More definitions the further statements use *)

(** No file of that name in the models directory. *)
Definition absent (existsSync : string -> bool) (modelsPath name : string)
  : Prop :=
  existsSync (ModelFiles.model_path modelsPath name) = false.

Definition no_hyphen (s : string) : Prop :=
  Forall (fun c => c <> "-"%char) (list_ascii_of_string s).

(** A row is a record with its two timestamps set and nothing else
    changed. *)
Definition stamped_row (item : record) (row : value) : Prop :=
  exists (r : record) (created updated : Z),
    row = VObj r
    /\ r !! "createdAt" = Some (VDate created)
    /\ r !! "updatedAt" = Some (VDate updated)
    /\ forall key, key <> "createdAt" -> key <> "updatedAt" ->
                   r !! key = item !! key.

(** With the map built so far, the values to come clash neither with a
    key of the map nor with one another. *)
Definition clash_free (valueMap : list (value * nat)) (vals : list value)
  : Prop :=
  forall j v,
    vals !! j = Some v -> SeederValidation.has_value v = true ->
    SeederValidation.Map_get valueMap v = None
    /\ forall i u, i < j -> vals !! i = Some u -> SeederValidation.has_value u = true ->
                   SameValueZero u v = false.

(** The errors and the warnings a result carries, none when the key is
    absent. *)
Definition errors_of {A} (result : ValidationResult A) : list A :=
  default [] (errors result).

Definition warnings_of {A} (result : ValidationResult A) : list A :=
  default [] (warnings result).

(** * Properties *)

(** ** Trimming *)

Section Trimming.

Lemma skip_whitespace_head c l :
  is_whitespace c = false -> skip_whitespace (c :: l) = c :: l.
Proof. intros H. simpl. now rewrite H. Qed.

Lemma skip_whitespace_shape l :
  skip_whitespace l = [] \/
  exists c l', skip_whitespace l = c :: l' /\ is_whitespace c = false.
Proof.
  induction l as [|c l IH]; simpl; [now left|].
  destruct (is_whitespace c) eqn:E; [exact IH|].
  right. now exists c, l.
Qed.

Lemma skip_whitespace_idem l :
  skip_whitespace (skip_whitespace l) = skip_whitespace l.
Proof.
  destruct (skip_whitespace_shape l) as [-> | (c & l' & -> & Hc)];
    [reflexivity | now apply skip_whitespace_head].
Qed.

(** Skipping leading white space never removes a last code unit that is
    not white space. *)
Lemma skip_whitespace_snoc l c :
  is_whitespace c = false ->
  exists l', skip_whitespace (l ++ [c]) = l' ++ [c].
Proof.
  intros Hc. induction l as [|d l IH]; simpl.
  - rewrite Hc. now exists [].
  - destruct (is_whitespace d); [exact IH|]. now exists (d :: l).
Qed.

Lemma trim_chars_keeps_head c l :
  is_whitespace c = false ->
  exists l', rev (skip_whitespace (rev (c :: l))) = c :: l'.
Proof.
  intros Hc. simpl rev at 2.
  destruct (skip_whitespace_snoc (rev l) c Hc) as [l' ->].
  rewrite rev_app_distr. simpl. now exists (rev l').
Qed.

Lemma trim_chars_idem l : trim_chars (trim_chars l) = trim_chars l.
Proof.
  unfold trim_chars.
  destruct (skip_whitespace_shape l) as [-> | (c & l' & -> & Hc)];
    [reflexivity|].
  destruct (trim_chars_keeps_head c l' Hc) as [m Hm].
  rewrite Hm, (skip_whitespace_head c m Hc), <- Hm.
  now rewrite rev_involutive, skip_whitespace_idem.
Qed.

Lemma trim_idem s : trim (trim s) = trim s.
Proof.
  unfold trim. now rewrite list_ascii_of_string_of_list_ascii, trim_chars_idem.
Qed.

(** A text whose first and last code units are not white space is left
    alone. *)
Lemma trim_chars_fixed c l d :
  is_whitespace c = false -> is_whitespace d = false ->
  trim_chars (c :: l ++ [d]) = c :: l ++ [d].
Proof.
  intros Hc Hd. unfold trim_chars.
  rewrite (skip_whitespace_head _ _ Hc).
  change (c :: l ++ [d]) with ((c :: l) ++ [d]).
  rewrite rev_app_distr. simpl app.
  rewrite (skip_whitespace_head _ _ Hd).
  simpl. now rewrite rev_app_distr, rev_involutive.
Qed.

Lemma trim_chars_fixed1 c :
  is_whitespace c = false -> trim_chars [c] = [c].
Proof. intros Hc. unfold trim_chars. simpl. rewrite Hc. simpl. now rewrite Hc. Qed.

Lemma trim_chars_no_whitespace l :
  Forall (fun c => is_whitespace c = false) l -> trim_chars l = l.
Proof.
  intros Hl. destruct l as [|c l]; [reflexivity|].
  destruct l as [|d l' _] using rev_ind. (* last code unit *)
  - apply trim_chars_fixed1. now inversion Hl.
  - apply trim_chars_fixed.
    + now inversion Hl.
    + inversion Hl as [|? ? _ Hl']; subst.
      apply Forall_app in Hl' as [_ Hd]. now inversion Hd.
Qed.

Lemma nonempty_chars s :
  nonempty s = true <-> list_ascii_of_string s <> [].
Proof.
  unfold nonempty. destruct s; simpl; split; intros; try easy.
Qed.

End Trimming.

Example normalize_john :
  DataProcessor.processGeneric
    (VObj (<["userName" := VStr "john"]>
           (<["email" := VStr " j@x.com "]>
            (<["phone" := VNull]> (<["nick" := VStr "   "]> ∅))))) 0
  = inr (<["userName" := VStr "john"]> (<["email" := VStr "j@x.com"]> ∅)).
Proof. vm_compute. reflexivity. Qed.

Example normalize_array_item :
  DataProcessor.processGeneric (VArr [VStr " a "; VNull; VBigInt (-12)]) 3
  = inr (<["0" := VStr "a"]> (<["2" := VStr "-12"]> ∅)).
Proof. vm_compute. reflexivity. Qed.

Example normalize_rejects_string :
  DataProcessor.processGeneric (VStr "abc") 7 = inl (InvalidRecordError 7).
Proof. reflexivity. Qed.

(** ** Properties of the normalizer *)

Section Normalizer.
Import DataProcessor.

Lemma nonempty_true s : nonempty s = true <-> s <> "".
Proof. unfold nonempty. destruct s; simpl; split; intros; easy. Qed.

(** One step of the loop is the per-field rule followed by an
    assignment. *)
Lemma process_entry_spec processed key v :
  process_entry processed (key, v) =
  match spec_normalize_field v with
  | Some v' => assign processed key v'
  | None => processed
  end.
Proof.
  destruct v; simpl; try reflexivity.
  destruct (decide (trim s = "")) as [E | E].
  - rewrite E. reflexivity.
  - apply nonempty_true in E. now rewrite E.
Qed.

Lemma own_assign obj key v :
  own (assign obj key v)
  = if decide (key = "__proto__") then own obj else <[key := v]> (own obj).
Proof.
  unfold assign. destruct (decide (key = "__proto__")); [|reflexivity].
  now destruct v.
Qed.

Lemma proto_assign obj key v :
  proto (assign obj key v)
  = if decide (key = "__proto__") then
      match v with
      | VNull | VDate _ | VArr _ | VObj _ => Some v
      | _ => proto obj
      end
    else proto obj.
Proof.
  unfold assign. destruct (decide (key = "__proto__")); [|reflexivity].
  now destruct v.
Qed.

Lemma own_process_entry_ne processed k v key :
  key <> k -> own (process_entry processed (k, v)) !! key = own processed !! key.
Proof.
  intros Hne. rewrite process_entry_spec.
  destruct (spec_normalize_field v); [|reflexivity].
  rewrite own_assign. destruct (decide (k = "__proto__")); [reflexivity|].
  now apply lookup_insert_ne.
Qed.

Lemma fold_entries_absent (l : list (string * value)) (acc : object) key :
  key ∉ l.*1 ->
  own (fold_left process_entry l acc) !! key = own acc !! key.
Proof.
  revert acc. induction l as [|[k v] l IH]; intros acc Hk; [reflexivity|].
  rewrite fmap_cons, not_elem_of_cons in Hk. destruct Hk as [Hne Hk].
  cbn [fold_left]. rewrite (IH _ Hk). now apply own_process_entry_ne.
Qed.

Lemma fold_entries_present (l : list (string * value)) (acc : object) key v :
  NoDup l.*1 -> (key, v) ∈ l ->
  own (fold_left process_entry l acc) !! key =
  match spec_normalize_field v with
  | Some v' => if decide (key = "__proto__") then own acc !! key else Some v'
  | None => own acc !! key
  end.
Proof.
  revert acc. induction l as [|[k w] l IH]; intros acc Hnd Hin.
  - now apply elem_of_nil in Hin.
  - rewrite fmap_cons in Hnd. apply NoDup_cons in Hnd as [Hk Hnd].
    cbn [fold_left]. apply elem_of_cons in Hin as [Heq | Hin].
    + injection Heq as <- <-.
      rewrite (fold_entries_absent _ _ _ Hk), process_entry_spec.
      destruct (spec_normalize_field v); [|reflexivity].
      rewrite own_assign.
      destruct (decide (key = "__proto__")); [reflexivity|].
      apply lookup_insert_eq.
    + rewrite (IH _ Hnd Hin).
      assert (Hne : key <> k).
      { intros ->. apply Hk. apply list_elem_of_fmap. now exists (k, v). }
      now rewrite (own_process_entry_ne _ _ _ _ Hne).
Qed.

(** The loop over [Object.entries] computes the per-field rule at every
    property name but [__proto__], where it stores nothing. *)
Lemma fold_entries_lookup (m : record) key :
  own (fold_left process_entry (map_to_list m) empty_object) !! key
  = if decide (key = "__proto__") then None
    else m !! key ≫= spec_normalize_field.
Proof.
  destruct (m !! key) as [v|] eqn:E; simpl.
  - rewrite (fold_entries_present _ _ key v).
    + destruct (spec_normalize_field v), (decide (key = "__proto__"));
        reflexivity || apply lookup_empty.
    + apply NoDup_fst_map_to_list.
    + now apply elem_of_map_to_list.
  - rewrite fold_entries_absent.
    + simpl. rewrite lookup_empty. now destruct (decide (key = "__proto__")).
    + intros Hin. apply list_elem_of_fmap in Hin as ([k v] & -> & Hin).
      apply elem_of_map_to_list in Hin. simpl in E. congruence.
Qed.

Lemma proto_process_entry_ne processed k v :
  k <> "__proto__" -> proto (process_entry processed (k, v)) = proto processed.
Proof.
  intros Hne. rewrite process_entry_spec.
  destruct (spec_normalize_field v); [|reflexivity].
  rewrite proto_assign. now destruct (decide (k = "__proto__")).
Qed.

Lemma fold_proto_absent (l : list (string * value)) (acc : object) :
  "__proto__" ∉ l.*1 ->
  proto (fold_left process_entry l acc) = proto acc.
Proof.
  revert acc. induction l as [|[k v] l IH]; intros acc Hk; [reflexivity|].
  rewrite fmap_cons, not_elem_of_cons in Hk. destruct Hk as [Hne Hk].
  cbn [fold_left]. rewrite (IH _ Hk). apply proto_process_entry_ne.
  intros ->. now apply Hne.
Qed.

Lemma fold_proto_present (l : list (string * value)) (acc : object) v :
  NoDup l.*1 -> ("__proto__", v) ∈ l ->
  proto (fold_left process_entry l acc) =
  match v with
  | VDate _ | VArr _ | VObj _ => Some v
  | _ => proto acc
  end.
Proof.
  revert acc. induction l as [|[k w] l IH]; intros acc Hnd Hin.
  - now apply elem_of_nil in Hin.
  - rewrite fmap_cons in Hnd. apply NoDup_cons in Hnd as [Hk Hnd].
    cbn [fold_left]. apply elem_of_cons in Hin as [Heq | Hin].
    + injection Heq as <- <-.
      rewrite (fold_proto_absent _ _ Hk), process_entry_spec.
      destruct v; simpl; try reflexivity.
      destruct (decide (trim s = "")); reflexivity.
    + rewrite (IH _ Hnd Hin).
      assert (Hne : k <> "__proto__").
      { intros ->. apply Hk. apply list_elem_of_fmap.
        now exists ("__proto__", v). }
      now rewrite (proto_process_entry_ne _ _ _ Hne).
Qed.

Lemma guard_is_object item :
  negb (truthy item) || negb (jstype_eqb (typeof item) TyObject)
  = negb (is_object item).
Proof. destruct item; simpl; try reflexivity; now rewrite ?orb_true_r. Qed.

(** What the normalizer makes of an object: the own fields and the
    prototype of the object it returns. *)
Lemma processGeneric_result_object item index :
  is_object item = true ->
  processGeneric_result item index
  = inr {| own := normalized item; proto := normalized_proto item |}.
Proof.
  intros H. unfold processGeneric_result. rewrite guard_is_object, H.
  simpl. f_equal. unfold Object_entries.
  set (processed := fold_left process_entry _ _).
  assert (Hown : own processed = normalized item).
  { apply map_eq. intros key. subst processed. rewrite fold_entries_lookup.
    unfold normalized. destruct (decide (key = "__proto__")) as [-> | Hne].
    - now rewrite lookup_delete_eq.
    - now rewrite lookup_delete_ne, lookup_omap by congruence. }
  assert (Hproto : proto processed = normalized_proto item).
  { subst processed. unfold normalized_proto.
    destruct (own_enumerable item !! "__proto__") as [v|] eqn:E.
    - rewrite (fold_proto_present _ _ v).
      + now destruct v.
      + apply NoDup_fst_map_to_list.
      + now apply elem_of_map_to_list.
    - rewrite fold_proto_absent; [reflexivity|].
      intros Hin. apply list_elem_of_fmap in Hin as ([k v] & Hk & Hin).
      apply elem_of_map_to_list in Hin. simpl in Hk. subst k. congruence. }
  destruct processed as [o p]. simpl in Hown, Hproto. now subst.
Qed.

Lemma processGeneric_object item index :
  is_object item = true ->
  processGeneric item index = inr (normalized item).
Proof.
  intros H. unfold processGeneric.
  now rewrite processGeneric_result_object.
Qed.

Lemma processGeneric_rejects item index :
  is_object item = false ->
  processGeneric_result item index = inl (InvalidRecordError index).
Proof.
  intros H. unfold processGeneric_result.
  now rewrite guard_is_object, H.
Qed.

Lemma normalized_lookup item key :
  normalized item !! key
  = if decide (key = "__proto__") then None
    else own_enumerable item !! key ≫= spec_normalize_field.
Proof.
  unfold normalized. destruct (decide (key = "__proto__")) as [-> | Hne].
  - now rewrite lookup_delete_eq.
  - now rewrite lookup_delete_ne, lookup_omap by congruence.
Qed.

End Normalizer.

(** *** Texts that trimming leaves alone *)

Section TrimmedTexts.

Lemma trim_no_whitespace s : no_whitespace s -> trim s = s.
Proof.
  intros H. unfold trim. rewrite trim_chars_no_whitespace by exact H.
  apply string_of_list_ascii_of_string.
Qed.

Lemma chars_append (a b : string) :
  list_ascii_of_string (a +:+ b)
  = list_ascii_of_string a ++ list_ascii_of_string b.
Proof. induction a as [|c a IH]; simpl; [reflexivity | now rewrite <- IH]. Qed.

Lemma digit_no_whitespace d : is_whitespace (pretty_N_char d) = false.
Proof. destruct d as [|p]; [reflexivity|]. now do 4 (try destruct p as [p|p|]). Qed.

Lemma pretty_N_go_no_whitespace x s :
  no_whitespace s -> no_whitespace (pretty_N_go x s).
Proof.
  revert s. induction (N.lt_wf_0 x) as [x _ IH]; intros s Hs.
  destruct (decide (x = 0)%N) as [-> | Hx]; [now rewrite pretty_N_go_0|].
  rewrite pretty_N_go_step by lia. apply IH.
  - apply N.div_lt; lia.
  - constructor; [apply digit_no_whitespace | exact Hs].
Qed.

Lemma pretty_N_go_nonempty x s : s <> "" -> pretty_N_go x s <> "".
Proof.
  revert s. induction (N.lt_wf_0 x) as [x _ IH]; intros s Hs.
  destruct (decide (x = 0)%N) as [-> | Hx]; [now rewrite pretty_N_go_0|].
  rewrite pretty_N_go_step by lia. apply IH; [apply N.div_lt; lia | easy].
Qed.

Lemma pretty_pos_trimmed (p : positive) :
  no_whitespace (pretty p) /\ pretty p <> "".
Proof.
  unfold pretty, pretty_positive, pretty, pretty_N.
  destruct (decide (N.pos p = 0)%N); [easy|]. split.
  - apply pretty_N_go_no_whitespace. constructor.
  - rewrite pretty_N_go_step by lia. now apply pretty_N_go_nonempty.
Qed.

(** The decimal text of a big integer has no white space and is not
    empty. *)
Lemma pretty_Z_trimmed (n : Z) :
  trim (pretty n) = pretty n /\ pretty n <> "".
Proof.
  destruct n as [|p|p]; unfold pretty, pretty_Z.
  - now vm_compute.
  - destruct (pretty_pos_trimmed p) as [Hw Hne].
    split; [now apply trim_no_whitespace | exact Hne].
  - destruct (pretty_pos_trimmed p) as [Hw Hne]. split; [|easy].
    apply trim_no_whitespace. now constructor.
Qed.

(** The text of a symbol starts with [S] and ends with a parenthesis. *)
Lemma symbol_text_trimmed (d : string) :
  trim ("Symbol(" +:+ d +:+ ")") = "Symbol(" +:+ d +:+ ")"
  /\ "Symbol(" +:+ d +:+ ")" <> "".
Proof.
  split; [|easy].
  assert (list_ascii_of_string ("Symbol(" +:+ d +:+ ")")
          = "S" :: ("y" :: "m" :: "b" :: "o" :: "l" :: "(" ::
                      list_ascii_of_string d) ++ [")"])%char as E
    by (now rewrite !chars_append).
  unfold trim. rewrite E, trim_chars_fixed by reflexivity. rewrite <- E.
  apply string_of_list_ascii_of_string.
Qed.

(** A value the per-field rule keeps is a fixed point of the rule. *)
Lemma spec_normalize_field_fixed v v' :
  spec_normalize_field v = Some v' -> spec_normalize_field v' = Some v'.
Proof.
  destruct v; simpl; intros H; try discriminate;
    try (injection H as <-; reflexivity).
  - destruct (decide (trim s = "")) as [|Hne]; [discriminate|].
    injection H as <-. simpl. rewrite trim_idem.
    now destruct (decide (trim s = "")).
  - injection H as <-. simpl.
    destruct (pretty_Z_trimmed n) as [-> Hne].
    now destruct (decide (pretty n = "")).
  - injection H as <-. simpl.
    destruct (symbol_text_trimmed description) as [-> Hne].
    now destruct (decide ("Symbol(" +:+ description +:+ ")" = "")).
Qed.

(** What the per-field rule keeps is neither null nor undefined, and a
    string it keeps is trimmed and not empty. *)
Lemma spec_normalize_field_clean v v' :
  spec_normalize_field v = Some v' ->
  v' <> VNull /\ v' <> VUndefined /\
  forall s, v' = VStr s -> trim s = s /\ s <> "".
Proof.
  intros H. pose proof (spec_normalize_field_fixed _ _ H) as Hfix.
  destruct v'; simpl in Hfix; try discriminate;
    (split; [easy|]; split; [easy|]); intros s' Hs'; try discriminate.
  injection Hs' as <-.
  destruct (decide (trim s = "")) as [|Hne]; [discriminate|].
  injection Hfix as Hfix. split; [exact Hfix | congruence].
Qed.

End TrimmedTexts.

(** ** The orchestrator: how calls end and what they leave in the trace *)

Section Orchestrator.
Import SeederFactory.
Variable env : Env.

Lemma try_rethrow {A} (body : M A) w :
  try_catch body (fun error => throw error) w = body w.
Proof.
  unfold try_catch, throw. destruct (body w) as [w' [a|e|]]; reflexivity.
Qed.

(** Processing one item does not touch the world. *)
Lemma process_item_world config flt item w :
  fst (process_item config flt item w) = w.
Proof.
  unfold process_item, bind, lift, DataProcessor.processGeneric_instance.
  destruct (DataProcessor.processGeneric_result item 0) as [e|processed];
    simpl; [reflexivity|].
  destruct flt; [destruct (validFields config) as [fields|]|];
    try reflexivity.
  now destruct (filter_fields processed fields).
Qed.

Lemma process_items_world config flt items w :
  fst (for_each_push (process_item config flt) items w) = w.
Proof.
  induction items as [|item items IH]; simpl; [reflexivity|].
  unfold bind at 1.
  pose proof (process_item_world config flt item w) as H1.
  destruct (process_item config flt item w) as [w1 [r|e|]];
    simpl in H1; subst w1; simpl; try reflexivity.
  unfold bind.
  destruct (for_each_push (process_item config flt) items w)
    as [w2 [rs|e|]]; simpl in IH; subst w2; reflexivity.
Qed.

(** [processData] reads the data file once and calls nothing else. *)
Lemma processData_trace entity customConfig flt w :
  let path := dataFile (SeederConfig.getEntityConfig env entity customConfig) in
  fst (processData env entity customConfig flt w)
  = {| trace := trace w ++ [ReadFile path]; clock_reads := clock_reads w |}.
Proof.
  intros path. unfold processData. rewrite try_rethrow.
  unfold bind, _loadDataFile. fold path.
  destruct (fs_readFile env path) as [content| |code]; try reflexivity.
  destruct (JSON_parse env content) as [parsed|]; [|reflexivity].
  destruct parsed; try reflexivity.
  apply process_items_world.
Qed.

Lemma db_calls_app t1 t2 : db_calls (t1 ++ t2) = db_calls t1 ++ db_calls t2.
Proof. unfold db_calls. apply filter_app. Qed.

(** With an empty field list the filter keeps nothing. *)
Lemma filter_fields_nil processed :
  filter_fields processed [] = inr empty_object.
Proof. reflexivity. Qed.

(** Stamping reads the clock twice per record and calls nothing. *)
Lemma stamp_all_spec items w :
  for_each_push (stamp env) items w
  = ({| trace := trace w; clock_reads := clock_reads w + 2 * length items |},
     Returned (stamps_from env (clock_reads w) items)).
Proof.
  revert w. induction items as [|item items IH]; intros [t r]; simpl.
  - unfold ret. do 2 f_equal. lia.
  - unfold bind at 1. unfold stamp, bind, new_Date, ret. simpl.
    rewrite IH. simpl. do 2 f_equal. lia.
Qed.

Lemma stamps_from_length r items :
  length (stamps_from env r items) = length items.
Proof.
  revert r. induction items as [|item items IH]; intros r; simpl;
    [reflexivity | now rewrite IH].
Qed.

End Orchestrator.

(** ** Batching *)

Section Chunks.
Variable n : nat.
Hypothesis n_pos : 1 <= n.

Lemma chunks_go_fuel fuel1 fuel2 l :
  length l <= fuel1 -> length l <= fuel2 ->
  chunks_go fuel1 n l = chunks_go fuel2 n l.
Proof using n_pos.
  revert fuel2 l. induction fuel1 as [|fuel1 IH]; intros fuel2 l H1 H2.
  - destruct l; [|simpl in H1; lia]. now destruct fuel2.
  - destruct l as [|x l]; [now destruct fuel2|].
    destruct fuel2 as [|fuel2]; [simpl in H2; lia|].
    simpl chunks_go. f_equal.
    apply IH; rewrite length_drop; simpl in *; lia.
Qed.

Lemma chunks_nil : chunks n [] = [].
Proof. reflexivity. Qed.

Lemma chunks_cons x l :
  chunks n (x :: l) = take n (x :: l) :: chunks n (drop n (x :: l)).
Proof using n_pos.
  unfold chunks. simpl chunks_go. f_equal.
  apply chunks_go_fuel; rewrite length_drop; simpl; lia.
Qed.

Lemma chunks_enough_fuel fuel l :
  length l <= fuel -> chunks_go fuel n l = chunks n l.
Proof using n_pos. intros H. now apply chunks_go_fuel. Qed.

(** Induction on a list by whole batches. *)
Lemma batch_ind (P : list value -> Prop) :
  P [] ->
  (forall x l, P (drop n (x :: l)) -> P (x :: l)) ->
  forall l, P l.
Proof using n_pos.
  intros Hnil Hstep l.
  remember (length l) as m eqn:Hm. revert l Hm.
  induction m as [m IH] using lt_wf_ind. intros l Hm.
  destruct l as [|x l]; [exact Hnil|].
  apply Hstep. apply (IH (length (drop n (x :: l)))); [|reflexivity].
  rewrite length_drop. subst m. simpl. lia.
Qed.

Lemma concat_chunks l : concat (chunks n l) = l.
Proof using n_pos.
  induction l as [|x l IH] using batch_ind; [reflexivity|].
  rewrite chunks_cons. simpl concat. rewrite IH. apply take_drop.
Qed.

Lemma chunks_lookup l i batch :
  chunks n l !! i = Some batch ->
  batch = take n (drop (i * n) l) /\ i * n < length l.
Proof using n_pos.
  revert l. induction i as [|i IH]; intros l H.
  - destruct l as [|x l]; [discriminate|].
    rewrite chunks_cons in H. injection H as <-. simpl; split; [reflexivity|lia].
  - destruct l as [|x l]; [discriminate|].
    rewrite chunks_cons in H. simpl lookup in H.
    apply IH in H as [-> Hlt]. rewrite drop_drop in *.
    rewrite length_drop in Hlt.
    split; [f_equal; f_equal; lia | lia].
Qed.

Lemma chunks_length l :
  Z.of_nat (length (chunks n l))
  = ((Z.of_nat (length l) + Z.of_nat n - 1) / Z.of_nat n)%Z.
Proof using n_pos.
  induction l as [|x l IH] using batch_ind.
  - simpl. symmetry. apply Z.div_small. lia.
  - rewrite chunks_cons. cbn [length]. rewrite Nat2Z.inj_succ, IH.
    rewrite length_drop. cbn [length].
    destruct (decide (S (length l) <= n)) as [Hle | Hgt].
    + replace (S (length l) - n) with 0 by lia.
      rewrite (Z.div_small (Z.of_nat 0 + _ - 1)) by lia.
      apply Z.div_unique with (r := (Z.of_nat (S (length l)) - 1)%Z); lia.
    + rewrite Nat2Z.inj_sub by lia.
      replace (Z.of_nat (S (length l)) + Z.of_nat n - 1)%Z
        with (Z.of_nat (S (length l)) - Z.of_nat n + Z.of_nat n - 1
              + 1 * Z.of_nat n)%Z by lia.
      rewrite Z.div_add by lia. lia.
Qed.

End Chunks.

Section Partition.

Lemma take_drop_length (l : list value) i n :
  i * n < length l ->
  Z.of_nat (length (take n (drop (i * n) l)))
  = Z.min (Z.of_nat n) (Z.of_nat (length l) - Z.of_nat i * Z.of_nat n).
Proof.
  intros H. rewrite length_take, length_drop. lia.
Qed.

(** The batches of [B] records partition the dataset as section 8 says. *)
Lemma chunks_partition (B : Z) (l : list value) :
  (1 <= B)%Z -> batches_partition B l (chunks (Z.to_nat B) l).
Proof.
  intros HB. set (n := Z.to_nat B).
  assert (Hn : 1 <= n) by (subst n; lia).
  assert (HnB : Z.of_nat n = B) by (subst n; lia).
  pose proof (chunks_length n Hn l) as Hlen. rewrite HnB in Hlen.
  unfold batches_partition. cbv zeta.
  split; [exact Hlen|]. split; [|split; [|now apply concat_chunks]].
  - intros i batch Hi Hnext.
    destruct (lookup_lt_is_Some_2 (chunks n l) (S i) Hnext) as [b' Hb'].
    apply (chunks_lookup n Hn) in Hi as [-> Hlt].
    apply (chunks_lookup n Hn) in Hb' as [_ Hlt'].
    rewrite take_drop_length by exact Hlt. simpl in Hlt'. nia.
  - intros batch Hlast. rewrite last_lookup in Hlast.
    set (i := pred (length (chunks n l))) in *.
    assert (Hi : (Z.of_nat i = (Z.of_nat (length l) + B - 1) / B - 1)%Z).
    { apply lookup_lt_Some in Hlast. subst i. lia. }
    apply (chunks_lookup n Hn) in Hlast as [-> Hlt].
    rewrite take_drop_length by exact Hlt. rewrite HnB.
    set (N := Z.of_nat (length l)) in *.
    pose proof (Z.div_mod N B ltac:(lia)) as Hdm.
    pose proof (Z.mod_pos_bound N B ltac:(lia)) as Hr.
    assert (Hlt' : (Z.of_nat i * B < N)%Z) by nia.
    destruct (decide (N mod B = 0)%Z) as [H0 | H0].
    + assert (Hc : ((N + B - 1) / B = N / B)%Z).
      { symmetry. apply Z.div_unique with (r := (B - 1)%Z); lia. }
      rewrite Hc in Hi. nia.
    + assert (Hc : ((N + B - 1) / B = N / B + 1)%Z).
      { symmetry. apply Z.div_unique with (r := (N mod B - 1)%Z); lia. }
      rewrite Hc in Hi. nia.
Qed.

Lemma Array_slice_batch (data : list value) (k : nat) (B : Z) :
  (1 <= B)%Z -> k < length data ->
  Array_slice data (Z.of_nat k) (Z.of_nat k + B)
  = take (Z.to_nat B) (drop k data).
Proof.
  intros HB Hk. unfold Array_slice, relative_index.
  destruct (Z.ltb_spec (Z.of_nat k) 0); [lia|].
  destruct (Z.ltb_spec (Z.of_nat k + B) 0); [lia|].
  rewrite (Z.min_l (Z.of_nat k)) by lia. rewrite Nat2Z.id.
  destruct (Z.le_ge_cases (Z.of_nat k + B) (Z.of_nat (length data))).
  - rewrite Z.min_l by lia. f_equal. lia.
  - rewrite Z.min_r by lia.
    rewrite !take_ge; [reflexivity | |]; rewrite length_drop; lia.
Qed.

End Partition.

Section Loops.
Import SeederFactory.
Variable env : Env.

(** The loop of [insertData] issues the batches of [batchSize] records. *)
Lemma insert_loop_chunks fuel table data (B : Z) k w :
  (1 <= B)%Z -> length data - k <= fuel ->
  insert_loop env fuel table data B (Z.of_nat k) w
  = insert_batches env table None (chunks (Z.to_nat B) (drop k data)) w.
Proof.
  intros HB. assert (Hn : 1 <= Z.to_nat B) by lia.
  revert k w. induction fuel as [|fuel IH]; intros k w Hfuel.
  - simpl. destruct (Z.ltb_spec (Z.of_nat k) (Z.of_nat (length data))); [lia|].
    rewrite drop_ge by lia. reflexivity.
  - simpl. destruct (Z.ltb_spec (Z.of_nat k) (Z.of_nat (length data))).
    + rewrite Array_slice_batch by lia.
      destruct (drop k data) as [|x rest] eqn:E.
      { apply (f_equal length) in E. rewrite length_drop in E. simpl in E. lia. }
      rewrite (chunks_cons _ Hn). simpl insert_batches. unfold bind.
      destruct (bulkInsert env table (take (Z.to_nat B) (x :: rest)) None w)
        as [w' [[]|e|]]; try reflexivity.
      replace (Z.of_nat k + B)%Z with (Z.of_nat (k + Z.to_nat B)) by lia.
      rewrite IH by lia. now rewrite <- E, drop_drop.
    + rewrite drop_ge by lia. reflexivity.
Qed.

(** The first loop of [bulkInsertInBatches] builds the same batches. *)
Lemma make_batches_chunks fuel data (B : Z) k batches :
  (1 <= B)%Z -> length data - k <= fuel ->
  make_batches fuel data B (Z.of_nat k) batches
  = Some (batches ++ chunks (Z.to_nat B) (drop k data)).
Proof.
  intros HB. assert (Hn : 1 <= Z.to_nat B) by lia.
  revert k batches. induction fuel as [|fuel IH]; intros k batches Hfuel.
  - simpl. destruct (Z.ltb_spec (Z.of_nat k) (Z.of_nat (length data))); [lia|].
    rewrite drop_ge by lia. now rewrite app_nil_r.
  - simpl. destruct (Z.ltb_spec (Z.of_nat k) (Z.of_nat (length data))).
    + rewrite Array_slice_batch by lia.
      destruct (drop k data) as [|x rest] eqn:E.
      { apply (f_equal length) in E. rewrite length_drop in E. simpl in E. lia. }
      rewrite (chunks_cons _ Hn).
      replace (Z.of_nat k + B)%Z with (Z.of_nat (k + Z.to_nat B)) by lia.
      rewrite IH by lia. rewrite <- E, drop_drop, <- app_assoc. reflexivity.
    + rewrite drop_ge by lia. now rewrite app_nil_r.
Qed.

Lemma bulkInsertInBatches_chunks fuel table records (B : Z) options w :
  records <> [] -> (1 <= B)%Z -> length records <= fuel ->
  bulkInsertInBatches env fuel table (VArr records) B options w
  = insert_batches env table
      (Some (options ∪ {["ignoreDuplicates" := VBool false]}))
      (chunks (Z.to_nat B) records) w.
Proof.
  intros Hne HB Hfuel. unfold bulkInsertInBatches.
  destruct records as [|x rest]; [congruence|]. cbn [length Nat.eqb].
  destruct (Z.leb_spec B 0); [lia|].
  pose proof (make_batches_chunks fuel (x :: rest) B 0 [] HB
                ltac:(simpl in *; lia)) as Hmk.
  change (Z.of_nat 0) with 0%Z in Hmk. rewrite Hmk.
  rewrite drop_0, app_nil_l. apply try_rethrow.
Qed.

(** When the database accepts them, all the batches are issued. *)
Lemma insert_batches_accepted table options batches w :
  db_accepts_all env ->
  insert_batches env table options batches w
  = ({| trace :=
          trace w ++ ((fun b => BulkInsert table b options) <$> batches);
        clock_reads := clock_reads w |},
     Returned tt).
Proof.
  intros Hdb. revert w. induction batches as [|b rest IH]; intros [t r].
  - simpl. unfold ret. now rewrite app_nil_r.
  - simpl. unfold bind, bulkInsert, db_call. simpl. rewrite Hdb.
    rewrite IH. simpl. now rewrite <- app_assoc.
Qed.

(** Whatever the database answers, the calls made are the batches in
    order, up to the first rejection. *)
Lemma insert_batches_issues table options batches w :
  issues_batches table options batches w
    (insert_batches env table options batches w)
  /\ clock_reads (fst (insert_batches env table options batches w))
     = clock_reads w.
Proof.
  revert w. induction batches as [|b rest IH]; intros [t r].
  - split; [|reflexivity]. exists 0. simpl. rewrite app_nil_r.
    repeat split; [lia | now left].
  - simpl insert_batches. unfold bind, bulkInsert, db_call. simpl.
    destruct (db_rejects env t (BulkInsert table b options)) as [detail|].
    + split; [|reflexivity]. exists 1. simpl.
      repeat split; [lia | right; now exists detail].
    + destruct (IH {| trace := t ++ [BulkInsert table b options];
                      clock_reads := r |}) as [(k & Hk & Ht & Hend) Hc].
      split; [|exact Hc]. exists (S k). simpl in *.
      rewrite Ht, <- app_assoc. repeat split; [lia | ].
      destruct Hend as [[-> ->] | Hthrown]; [now left | now right].
Qed.

Lemma insert_batches_extends table options batches w :
  length (trace w)
  <= length (trace (fst (insert_batches env table options batches w))).
Proof.
  revert w. induction batches as [|b rest IH]; intros w; [reflexivity|].
  simpl. unfold bind, bulkInsert, db_call.
  destruct (db_rejects env (trace w) (BulkInsert table b options)).
  - simpl. rewrite length_app. lia.
  - etransitivity; [|apply IH]. simpl. rewrite length_app. lia.
Qed.

Lemma snoc_take {A} (h : list A) e l j :
  h ++ take (S j) (e :: l) = (h ++ [e]) ++ take j l.
Proof. simpl. now rewrite <- app_assoc. Qed.

Lemma answers_alike_cons h1 h2 e1 e2 calls1 calls2 :
  answers_alike env h1 h2 (e1 :: calls1) (e2 :: calls2)
  <-> db_rejects env h1 e1 = db_rejects env h2 e2
      /\ (db_rejects env h1 e1 = None ->
          answers_alike env (h1 ++ [e1]) (h2 ++ [e2]) calls1 calls2).
Proof.
  unfold answers_alike. split.
  - intros H. split.
    + specialize (H 0 e1 e2 eq_refl eq_refl). simpl in H.
      rewrite !app_nil_r in H. apply H. intros j e Hj. lia.
    + intros Hacc k a1 a2 Ha1 Ha2 Hprev.
      rewrite <- !snoc_take. apply (H (S k) a1 a2 Ha1 Ha2).
      intros [|j] e Hj He.
      * injection He as <-. simpl. now rewrite app_nil_r.
      * rewrite snoc_take. apply Hprev; [lia | exact He].
  - intros [Hfirst Hrest] [|k] a1 a2 Ha1 Ha2 Hprev.
    + injection Ha1 as <-. injection Ha2 as <-. simpl.
      now rewrite !app_nil_r.
    + rewrite !snoc_take. apply Hrest; try assumption.
      * specialize (Hprev 0 e1 ltac:(lia) eq_refl). simpl in Hprev.
        now rewrite app_nil_r in Hprev.
      * intros j e Hj He. rewrite <- snoc_take.
        apply (Hprev (S j) e); [lia | exact He].
Qed.

(** Two runs over the same batches that differ in the options they pass
    make the same calls and end the same way exactly when the database
    answers them alike. *)
Lemma insert_batches_alike table o1 o2 batches w1 w2 :
  erase_options <$> trace w1 = erase_options <$> trace w2 ->
  answers_alike env (trace w1) (trace w2)
    (batch_calls table o1 batches) (batch_calls table o2 batches)
  <-> erase_options <$> trace (fst (insert_batches env table o1 batches w1))
      = erase_options <$> trace (fst (insert_batches env table o2 batches w2))
      /\ snd (insert_batches env table o1 batches w1)
         = snd (insert_batches env table o2 batches w2).
Proof.
  revert w1 w2. induction batches as [|b rest IH]; intros w1 w2 Ht.
  - simpl. split; [now split|]. intros _ k e1 e2 H. discriminate.
  - assert (Hlen : length (trace w1) = length (trace w2)).
    { apply (f_equal length) in Ht. now rewrite !length_fmap in Ht. }
    unfold batch_calls. rewrite !fmap_cons, answers_alike_cons.
    fold (batch_calls table o1 rest) (batch_calls table o2 rest).
    simpl insert_batches. unfold bind, bulkInsert, db_call.
    destruct (db_rejects env (trace w1) (BulkInsert table b o1)) as [d1|] eqn:E1;
      destruct (db_rejects env (trace w2) (BulkInsert table b o2)) as [d2|] eqn:E2;
      cbn [fst snd trace].
    + split.
      * intros [[= ->] _]. split; [|reflexivity].
        now rewrite !fmap_app, Ht.
      * intros [_ [= ->]]. split; [reflexivity | discriminate].
    + split; [intros [H _]; discriminate|]. intros [Htr Hout]. exfalso.
      set (w2' := {| trace := trace w2 ++ [BulkInsert table b o2];
                     clock_reads := clock_reads w2 |}) in *.
      destruct rest as [|b' rest']; [discriminate|].
      apply (f_equal length) in Htr. rewrite !length_fmap, length_app in Htr.
      simpl insert_batches in Htr. unfold bind, bulkInsert, db_call in Htr.
      destruct (db_rejects env (trace w2') (BulkInsert table b' o2)).
      * simpl in Htr. rewrite !length_app in Htr. simpl in Htr. lia.
      * pose proof (insert_batches_extends table o2 rest'
                      {| trace := trace w2' ++ [BulkInsert table b' o2];
                         clock_reads := clock_reads w2' |}) as Hext.
        simpl in Hext, Htr. rewrite !length_app in Hext. simpl in Hext. lia.
    + split; [intros [H _]; discriminate|]. intros [Htr Hout]. exfalso.
      set (w1' := {| trace := trace w1 ++ [BulkInsert table b o1];
                     clock_reads := clock_reads w1 |}) in *.
      destruct rest as [|b' rest']; [discriminate|].
      apply (f_equal length) in Htr. rewrite !length_fmap, length_app in Htr.
      simpl insert_batches in Htr. unfold bind, bulkInsert, db_call in Htr.
      destruct (db_rejects env (trace w1') (BulkInsert table b' o1)).
      * simpl in Htr. rewrite !length_app in Htr. simpl in Htr. lia.
      * pose proof (insert_batches_extends table o1 rest'
                      {| trace := trace w1' ++ [BulkInsert table b' o1];
                         clock_reads := clock_reads w1' |}) as Hext.
        simpl in Hext, Htr. rewrite !length_app in Hext. simpl in Hext. lia.
    + rewrite <- IH by (simpl; now rewrite !fmap_app, Ht). simpl.
      split; [intros [_ H]; now apply H | intros H; split; [reflexivity | now intros _]].
Qed.

End Loops.

(** ** What [processData] returns *)

Section ProcessData.
Import SeederFactory.

Lemma insert_batches_ends env table options batches w :
  snd (insert_batches env table options batches w) <> OutOfFuel.
Proof.
  revert w. induction batches as [|b rest IH]; intros w; [easy|].
  simpl. unfold bind, bulkInsert, db_call.
  destruct (db_rejects env (trace w) (BulkInsert table b options));
    [easy | apply IH].
Qed.

(** With an empty list of valid fields and the filter on, every record
    comes back empty. *)
Lemma processData_empty_validFields env entity customConfig w records :
  validFields (SeederConfig.getEntityConfig env entity customConfig) = Some [] ->
  snd (processData env entity customConfig true w) = Returned records ->
  Forall (fun r => r = ∅) records.
Proof.
  intros Hvf. unfold processData. rewrite try_rethrow.
  set (config := SeederConfig.getEntityConfig env entity customConfig) in *.
  unfold bind at 1.
  destruct (_loadDataFile env (dataFile config) w) as [w1 [data|e|]];
    try discriminate.
  destruct data; try discriminate.
  revert records w1. induction elems as [|item items IH]; intros records w1.
  - simpl. intros [= <-]. constructor.
  - simpl. unfold bind at 1. unfold process_item at 1. rewrite Hvf.
    unfold bind at 1, lift.
    destruct (DataProcessor.processGeneric_instance item config)
      as [e|processed]; [discriminate|].
    simpl. unfold bind at 1.
    destruct (for_each_push (process_item config true) items w1)
      as [w2 [rs|e|]] eqn:E; try discriminate.
    simpl. intros [= <-]. constructor; [reflexivity|].
    apply (IH rs w1). now rewrite E.
Qed.

End ProcessData.

(** ** Rollback *)

Section Rollback.
Import SeederFactory.
Variable env : Env.

Lemma read_fields_ok items field w :
  Forall not_nullish items ->
  for_each_push (fun item => lift (get_property item field)) items w
  = (w, Returned ((fun item => default VUndefined (own_enumerable item !! field))
                    <$> items)).
Proof.
  induction 1 as [|item items Hitem _ IH]; [reflexivity|].
  simpl. unfold bind at 1. unfold get_property at 1. rewrite Hitem. simpl.
  unfold bind. now rewrite IH.
Qed.

Lemma read_fields_throws items field w :
  Exists (fun item => is_nullish item = true) items ->
  for_each_push (fun item => lift (get_property item field)) items w
  = (w, Thrown TypeError).
Proof.
  induction items as [|item items IH]; intros H; [now inversion H|].
  simpl. unfold bind at 1. unfold get_property at 1.
  destruct (is_nullish item) eqn:E; [reflexivity|]. simpl.
  unfold bind. rewrite IH; [reflexivity|].
  inversion H; subst; [congruence | assumption].
Qed.

Lemma field_values_ok items field w :
  Forall not_nullish items ->
  field_values items field w = (w, Returned (non_null_values items field)).
Proof.
  intros H. unfold field_values, bind. now rewrite read_fields_ok.
Qed.

Lemma build_conditions_ok items fields conditions w :
  Forall not_nullish items ->
  build_conditions items fields conditions w
  = (w, Returned (conditions ++ targeting_conditions items fields)).
Proof.
  intros H. revert conditions.
  induction fields as [|field rest IH]; intros conditions.
  - simpl. unfold ret. now rewrite app_nil_r.
  - simpl. unfold bind. rewrite field_values_ok by exact H.
    destruct (non_null_values items field) as [|v vs]; simpl.
    + apply IH.
    + rewrite IH, <- app_assoc. reflexivity.
Qed.

Lemma build_conditions_throws items field rest conditions w :
  Exists (fun item => is_nullish item = true) items ->
  build_conditions items (field :: rest) conditions w = (w, Thrown TypeError).
Proof.
  intros H. simpl. unfold bind at 1. unfold field_values, bind.
  now rewrite read_fields_throws.
Qed.

(** A non-null value of a unique field gives a condition. *)
Lemma targeting_conditions_nonempty items fields field item v :
  field ∈ fields -> item ∈ items ->
  own_enumerable item !! field = Some v -> is_nullish v = false ->
  targeting_conditions items fields <> [].
Proof.
  intros Hf Hi Hv Hnn Hnil.
  assert (Hin : v ∈ non_null_values items field).
  { unfold non_null_values. apply list_elem_of_filter. split.
    - now rewrite Hnn.
    - apply list_elem_of_fmap. exists item. now rewrite Hv. }
  destruct (non_null_values items field) as [|v0 vs] eqn:E.
  - now apply elem_of_nil in Hin.
  - assert ((field, v0 :: vs) ∈ targeting_conditions items fields) as Hc.
    { unfold targeting_conditions. apply list_elem_of_omap.
      exists field. split; [exact Hf|]. now rewrite E. }
    rewrite Hnil in Hc. now apply elem_of_nil in Hc.
Qed.

Lemma loadDataFile_loads path w :
  _loadDataFile env path w
  = ({| trace := trace w ++ [ReadFile path]; clock_reads := clock_reads w |},
     match loads_as env path with
     | Some v => Returned v
     | None =>
         match fs_readFile env path with
         | FileText _ => Thrown (InvalidJsonError path)
         | ENOENT => Thrown (DataFileNotFoundError path)
         | ReadFailure code => Thrown (FileSystemError code)
         end
     end).
Proof.
  unfold _loadDataFile, loads_as.
  destruct (fs_readFile env path); try reflexivity.
  now destruct (JSON_parse env content).
Qed.

End Rollback.

(** The targeted delete is awaited inside the [try] that guards the file
    load: when the database rejects it, the rejection is swallowed and the
    unconditional delete follows. *)
Example removeData_rejected_targeted_delete :
  let rejecting : list event -> event -> option string :=
    fun _ e =>
      match e with BulkDelete _ (Some _) _ => Some "locked" | _ => None end in
  SeederFactory.removeData
    (example_env (one_file "data/products.json" "rows")
       (parses "rows" (VArr [VObj (<["name" := VStr "a"]> ∅)]))
       ticking_clock rejecting)
    "Products" no_overrides start
  = ({| trace :=
          [ReadFile "data/products.json";
           BulkDelete "Products" (Some (WhereOr [("name", [VStr "a"])])) None;
           BulkDelete "Products" None (Some ∅)];
        clock_reads := 0 |},
     Returned tt).
Proof. vm_compute. reflexivity. Qed.

(** With a negative batch size the loop of [insertData] never ends: the
    index moves away from the length, whatever the number of steps. *)
Lemma insert_loop_negative_diverges env fuel table data (B i : Z) w :
  (B < 0)%Z -> (i < Z.of_nat (length data))%Z ->
  snd (SeederFactory.insert_loop env fuel table data B i w) <> Returned tt.
Proof.
  intros HB. revert i w. induction fuel as [|fuel IH]; intros i w Hi.
  - simpl. now destruct (Z.ltb_spec i (Z.of_nat (length data))); [|lia].
  - simpl. destruct (Z.ltb_spec i (Z.of_nat (length data))); [|lia].
    unfold bind.
    destruct (SeederFactory.bulkInsert env table
                (Array_slice data i (i + B)) None w) as [w' [[]|e|]];
      [apply IH; lia | easy | easy].
Qed.

Example pluralize_words :
  SeederConfig._pluralize "Category" = "Categories"
  /\ SeederConfig._pluralize "Class" = "Classes"
  /\ SeederConfig._pluralize "Product" = "Products".
Proof. repeat split. Qed.

Example data_file_of_entity :
  dataFile
    (SeederConfig.getEntityConfig
       (example_env no_file no_json ticking_clock accepting_db)
       "WorkOrders" no_overrides)
  = "data/workorders.json".
Proof. reflexivity. Qed.

(** A database that rejects the second call it gets: both batch inserts
    stop there, two of the three batches issued. *)
Example both_stop_at_the_rejected_batch :
  let second_fails : list event -> event -> option string :=
    fun history _ =>
      if (length history =? 1)%nat then Some "duplicate key" else None in
  let env := example_env no_file no_json ticking_clock second_fails in
  let rows := [VObj john; VObj jane; VObj john] in
  SeederFactory.insert_loop env 3 "Products" rows 1 0 start
  = ({| trace := [BulkInsert "Products" [VObj john] None;
                  BulkInsert "Products" [VObj jane] None];
        clock_reads := 0 |},
     Thrown (DatabaseOperationError "duplicate key"))
  /\ snd (SeederFactory.bulkInsertInBatches env 3 "Products" (VArr rows) 1 ∅
            start)
     = Thrown (DatabaseOperationError "duplicate key")
  /\ length (trace (fst (SeederFactory.bulkInsertInBatches env 3 "Products"
                           (VArr rows) 1 ∅ start))) = 2.
Proof. vm_compute. repeat split; reflexivity. Qed.

(** * The claims of the design document *)

(** C1. The design document says an empty [validFields] list means no
    filtering.  The code tests [config.validFields] for truthiness, and an
    empty array is truthy: with no model file found, the record
    [{"userName": "john"}] comes back as [{}] when the filter is on, and
    whole when it is off. *)
Theorem C1_empty_validFields_filters_everything :
  let env :=
    example_env (one_file "data/products.json" john_json)
      (parses john_json (VArr [VObj john])) ticking_clock accepting_db in
  validFields (SeederConfig.getEntityConfig env "Products" no_overrides)
  = Some []
  /\ snd (SeederFactory.processData env "Products" no_overrides true start)
     = Returned [∅]
  /\ snd (SeederFactory.processData env "Products" no_overrides false start)
     = Returned [john].
Proof. vm_compute. repeat split; reflexivity. Qed.

(** C2, as stated, fails: with an empty array [bulkInsertInBatches]
    returns normally whatever the batch size, and [insertData] with batch
    size 0 inserts with the default size instead of failing. *)
Lemma C2_counterexample :
  let env := example_env no_file no_json ticking_clock accepting_db in
  SeederFactory.bulkInsertInBatches env 0 "Products" (VArr []) 0 ∅ start
  = (start, Returned tt)
  /\ SeederFactory.insertData env 1 "Products" [john] (with_batchSize 0) start
     = ({| trace :=
             [BulkInsert "Products" [stamped_at john 1000 1001] None];
           clock_reads := 2 |},
        Returned tt).
Proof. vm_compute. split; reflexivity. Qed.

(** C2, amended. For every call to [bulkInsertInBatches] with a non-empty
    array and a non-positive batch size, the call fails with
    [InvalidConfigError] at once: the world is as it was, no file was read
    and no database call made.  [insertData] does not validate: a batch
    size of 0 there stands for the default of 1000. *)
Theorem C2_batch_size_validation env fuel table (records : list value)
  (B : Z) options w :
  records <> [] -> (B <= 0)%Z ->
  SeederFactory.bulkInsertInBatches env fuel table (VArr records) B options w
  = (w, Thrown InvalidConfigError)
  /\ (forall config stamped,
        batchSize config = 0%Z ->
        SeederFactory.insert_in_batches env fuel config stamped w
        = SeederFactory.insert_loop env fuel (tableName config) stamped
            1000 0 w).
Proof.
  intros Hne HB. split.
  - unfold SeederFactory.bulkInsertInBatches.
    destruct records as [|x rest]; [congruence|]. cbn [length Nat.eqb].
    now destruct (Z.leb_spec B 0); [|lia].
  - intros config stamped H0. unfold SeederFactory.insert_in_batches.
    now rewrite H0.
Qed.

Lemma C2_batch_size_validation_witness :
  SeederFactory.bulkInsertInBatches
    (example_env no_file no_json ticking_clock accepting_db)
    3 "Products" (VArr [VObj john]) (-5) ∅ start
  = (start, Thrown InvalidConfigError)
  /\ (forall config stamped,
        batchSize config = 0%Z ->
        SeederFactory.insert_in_batches
          (example_env no_file no_json ticking_clock accepting_db)
          3 config stamped start
        = SeederFactory.insert_loop
            (example_env no_file no_json ticking_clock accepting_db)
            3 (tableName config) stamped 1000 0 start).
Proof.
  apply (C2_batch_size_validation
           (example_env no_file no_json ticking_clock accepting_db)
           3 "Products" [VObj john] (-5) ∅ start); [discriminate | lia].
Defined.

(** C3, as stated, fails twice.  At batch size 0 steps 3 and 4 of
    [insertData] fall back to 1000 and insert the record, while the helper
    refuses.  And the helper passes an options argument that [insertData]
    does not: with [ignoreDuplicates] set in the helper's options and a
    database that honours it, the helper inserts both batches while the
    steps of [insertData] stop at the second with an error. *)
Lemma C3_counterexample :
  (let env := example_env no_file no_json ticking_clock accepting_db in
   let config :=
     SeederConfig.getEntityConfig env "Products" (with_batchSize 0) in
   SeederFactory.insert_in_batches env 1 config [VObj john] start
   = ({| trace := [BulkInsert "Products" [VObj john] None];
         clock_reads := 0 |},
      Returned tt)
   /\ SeederFactory.bulkInsertInBatches env 1 (tableName config)
        (VArr [VObj john]) (batchSize config) ∅ start
      = (start, Thrown InvalidConfigError))
  /\ (let env := example_env no_file no_json ticking_clock unique_key_db in
      let config :=
        SeederConfig.getEntityConfig env "Products" (with_batchSize 1) in
      snd (SeederFactory.insert_in_batches env 2 config
             [VObj john; VObj john] start)
      = Thrown (DatabaseOperationError "duplicate key")
      /\ snd (SeederFactory.bulkInsertInBatches env 2 (tableName config)
                (VArr [VObj john; VObj john]) (batchSize config)
                {["ignoreDuplicates" := VBool true]} start)
         = Returned tt).
Proof. vm_compute. repeat split; reflexivity. Qed.

(** C3, amended. For every list of records, table name and batch size of
    at least 1, the helper [bulkInsertInBatches] and steps 3 and 4 of
    [insertData] issue the same batches in the same order, one bulk-insert
    each, and each stops at the first batch the database rejects; the
    helper passes [{ignoreDuplicates: false, ...options}] with every call,
    [insertData] passes no options.  They make the same calls and end the
    same way (both return, or both stop at the same batch with the same
    error) exactly when the database answers the calls of the one as it
    answers the calls of the other. *)
Theorem C3_batching_equivalence env fuel config (stamped : list value)
  options w :
  (1 <= batchSize config)%Z ->
  length stamped <= fuel ->
  let table := tableName config in
  let batches := chunks (Z.to_nat (batchSize config)) stamped in
  let passed := options ∪ {["ignoreDuplicates" := VBool false]} in
  let r1 := SeederFactory.insert_in_batches env fuel config stamped w in
  let r2 :=
    SeederFactory.bulkInsertInBatches env fuel table (VArr stamped)
      (batchSize config) options w in
  issues_batches table None batches w r1
  /\ issues_batches table (Some passed) batches w r2
  /\ (answers_alike env (trace w) (trace w)
        (batch_calls table None batches)
        (batch_calls table (Some passed) batches)
      <-> erase_options <$> trace (fst r1) = erase_options <$> trace (fst r2)
          /\ snd r1 = snd r2).
Proof.
  intros HB Hfuel table batches passed r1 r2.
  assert (H1 : r1 = SeederFactory.insert_batches env table None batches w).
  { subst r1. unfold SeederFactory.insert_in_batches.
    destruct (Z.eqb_spec (batchSize config) 0) as [H0|_]; [lia|].
    pose proof (insert_loop_chunks env fuel (tableName config) stamped
                  (batchSize config) 0 w HB ltac:(lia)) as Hloop.
    change (Z.of_nat 0) with 0%Z in Hloop. now rewrite Hloop, drop_0. }
  assert (H2 : r2 = SeederFactory.insert_batches env table (Some passed)
                      batches w).
  { subst r2 batches. destruct stamped as [|x rest]; [reflexivity|].
    now rewrite bulkInsertInBatches_chunks by (try easy; exact Hfuel). }
  rewrite H1, H2. split; [|split].
  - apply insert_batches_issues.
  - apply insert_batches_issues.
  - now apply insert_batches_alike.
Qed.

(** A database that honours [ignoreDuplicates] and rejects the second
    batch: called with the default options, the helper stops where the
    steps of [insertData] stop, with the same error. *)
Lemma C3_batching_equivalence_witness :
  let env := example_env no_file no_json ticking_clock unique_key_db in
  let config := SeederConfig.getEntityConfig env "Products" (with_batchSize 2) in
  let rows := [VObj john; VObj jane; VObj john] in
  let passed : record := {["ignoreDuplicates" := VBool false]} in
  let r1 := SeederFactory.insert_in_batches env 3 config rows start in
  let r2 :=
    SeederFactory.bulkInsertInBatches env 3 (tableName config) (VArr rows)
      (batchSize config) ∅ start in
  (issues_batches "Products" None [[VObj john; VObj jane]; [VObj john]]
     start r1
   /\ issues_batches "Products" (Some passed)
        [[VObj john; VObj jane]; [VObj john]] start r2)
  /\ snd r1 = Thrown (DatabaseOperationError "duplicate key")
  /\ erase_options <$> trace (fst r1) = erase_options <$> trace (fst r2)
  /\ snd r1 = snd r2.
Proof.
  intros env config rows passed r1 r2.
  pose proof (C3_batching_equivalence env 3 config rows ∅ start
                ltac:(simpl; lia) ltac:(simpl; lia)) as (Hr1 & Hr2 & Halike).
  split; [split; [exact Hr1 | exact Hr2]|].
  split; [vm_compute; reflexivity|].
  apply Halike. intros k e1 e2 He1 He2 _.
  destruct k as [|[|k]]; simpl in He1, He2.
  - injection He1 as <-. injection He2 as <-. reflexivity.
  - injection He1 as <-. injection He2 as <-. reflexivity.
  - discriminate.
Defined.

(** C4. The design document wants one instant for all the records of one
    [insertData] call.  The code evaluates [new Date()] twice per record:
    with a clock that advances at every reading, two records get four
    different instants.  [addTimestamps], the static helper, reads the
    clock once and stamps the same two records with one instant. *)
Theorem C4_timestamps_read_per_record :
  let env := example_env no_file no_json ticking_clock accepting_db in
  SeederFactory.insertData env 2 "Products" [john; jane] no_overrides start
  = ({| trace :=
          [BulkInsert "Products"
             [stamped_at john 1000 1001; stamped_at jane 1002 1003] None];
        clock_reads := 4 |},
     Returned tt)
  /\ SeederFactory.addTimestamps env [john; jane] None start
     = ({| trace := []; clock_reads := 1 |},
        Returned [stamped_at john 1000 1000; stamped_at jane 1000 1000]).
Proof. vm_compute. split; reflexivity. Qed.

(** C5, as stated, fails when the array holds a null element: the file
    loads as a non-empty array with a non-null value of the unique field
    [name], yet reading [name] off the null element throws, the error is
    caught with the file errors, and the whole table is deleted. *)
Lemma C5_counterexample :
  let items := [VNull; VObj (<["name" := VStr "a"]> ∅)] in
  let env :=
    example_env (one_file "data/products.json" "rows")
      (parses "rows" (VArr items)) ticking_clock accepting_db in
  let config := SeederConfig.getEntityConfig env "Products" no_overrides in
  uniqueFields config = Some ["name"]
  /\ loads_as env (dataFile config) = Some (VArr items)
  /\ own_enumerable (VObj (<["name" := VStr "a"]> ∅)) !! "name"
     = Some (VStr "a")
  /\ SeederFactory.removeData env "Products" no_overrides start
     = ({| trace :=
             [ReadFile "data/products.json";
              BulkDelete "Products" None (Some ∅)];
           clock_reads := 0 |},
        Returned tt).
Proof. vm_compute. repeat split; reflexivity. Qed.

(** C5, amended. For every configuration with non-empty [uniqueFields]
    whose data file loads as an array without null elements that holds a
    non-null value of some unique field, [removeData] issues one targeted
    bulk-delete, whose predicate is the OR, over the unique fields that
    have values, of "field in the non-null values of that field in the
    file"; when the database accepts it, nothing else is issued.  When
    [uniqueFields] is empty or absent, or the file cannot be loaded, is not
    an array, is empty, holds a null element or yields no value,
    [removeData] issues one unconditional bulk-delete on the table and
    ends as that call ends: a failure to load the file is never fatal. *)
Theorem C5_removeData env entity customConfig w :
  let config := SeederConfig.getEntityConfig env entity customConfig in
  let table := tableName config in
  let path := dataFile config in
  let read :=
    {| trace := trace w ++ [ReadFile path]; clock_reads := clock_reads w |} in
  let fallback := BulkDelete table None (Some ∅) in
  (forall fields items,
      uniqueFields config = Some fields ->
      loads_as env path = Some (VArr items) ->
      Forall not_nullish items ->
      (exists field item v,
          field ∈ fields /\ item ∈ items /\
          own_enumerable item !! field = Some v /\ is_nullish v = false) ->
      let targeted :=
        BulkDelete table
          (Some (WhereOr (targeting_conditions items fields))) None in
      db_rejects env (trace read) targeted = None ->
      SeederFactory.removeData env entity customConfig w
      = ({| trace := trace read ++ [targeted]; clock_reads := clock_reads w |},
         Returned tt))
  /\ (uniqueFields config = None \/ uniqueFields config = Some [] ->
      SeederFactory.removeData env entity customConfig w
      = SeederFactory.db_call env fallback w)
  /\ (forall fields,
        uniqueFields config = Some fields -> fields <> [] ->
        loads_as env path = None
        \/ (exists v, loads_as env path = Some v /\ Array_isArray v = false)
        \/ loads_as env path = Some (VArr [])
        \/ (exists items,
               loads_as env path = Some (VArr items) /\
               Exists (fun item => is_nullish item = true) items)
        \/ (exists items,
               loads_as env path = Some (VArr items) /\
               Forall not_nullish items /\
               targeting_conditions items fields = []) ->
        SeederFactory.removeData env entity customConfig w
        = SeederFactory.db_call env fallback read).
Proof.
  intros config table path read fallback.
  unfold SeederFactory.removeData. fold config. rewrite try_rethrow.
  split; [|split].
  - intros fields items Hu Hload Hnn (field & item & v & Hf & Hi & Hv & Hvn)
      Hdb.
    pose proof (targeting_conditions_nonempty _ _ _ _ _ Hf Hi Hv Hvn) as Hne.
    unfold bind at 1. rewrite Hu.
    destruct fields as [|f0 fields']; [now apply elem_of_nil in Hf|].
    cbn [length Nat.ltb Nat.leb].
    unfold SeederFactory.targeted_removal, try_catch. unfold bind at 1.
    rewrite loadDataFile_loads. fold path. rewrite Hload.
    destruct items as [|i0 items']; [now apply elem_of_nil in Hi|].
    cbn [length Nat.ltb Nat.leb]. unfold bind at 1.
    rewrite build_conditions_ok by exact Hnn. rewrite app_nil_l.
    destruct (targeting_conditions (i0 :: items') (f0 :: fields'))
      as [|c cs] eqn:E; [congruence|].
    cbn [length Nat.ltb Nat.leb]. unfold bind at 1.
    unfold SeederFactory.bulkDelete, SeederFactory.db_call.
    fold table. simpl in Hdb. simpl trace. rewrite Hdb.
    reflexivity.
  - intros [Hu | Hu]; unfold bind; rewrite Hu; reflexivity.
  - intros fields Hu Hfields Hcase. unfold bind at 1. rewrite Hu.
    destruct fields as [|f0 fields']; [congruence|].
    cbn [length Nat.ltb Nat.leb].
    unfold SeederFactory.targeted_removal, try_catch. unfold bind at 1.
    rewrite loadDataFile_loads. fold path.
    destruct Hcase as [Hl | [(v & Hl & Hv) | [Hl | [(items & Hl & Hex)
                      | (items & Hl & Hnn & Hnil)]]]]; rewrite Hl.
    + now destruct (fs_readFile env path).
    + destruct v; try reflexivity. discriminate.
    + reflexivity.
    + destruct items as [|i0 items']; [reflexivity|].
      cbn [length Nat.ltb Nat.leb]. unfold bind at 1.
      now rewrite build_conditions_throws.
    + destruct items as [|i0 items']; [reflexivity|].
      cbn [length Nat.ltb Nat.leb]. unfold bind at 1.
      rewrite build_conditions_ok by exact Hnn. rewrite app_nil_l, Hnil.
      reflexivity.
Qed.

Lemma C5_removeData_witness :
  let user : record :=
    <["userName" := VStr "a"]> (<["email" := VStr "a@x.com"]> ∅) in
  SeederFactory.removeData
    (example_env (one_file "data/users.json" "rows")
       (parses "rows" (VArr [VObj user])) ticking_clock accepting_db)
    "Users" no_overrides start
  = ({| trace :=
          [ReadFile "data/users.json";
           BulkDelete "People"
             (Some (WhereOr [("userName", [VStr "a"]);
                             ("email", [VStr "a@x.com"])]))
             None];
        clock_reads := 0 |},
     Returned tt)
  /\ SeederFactory.removeData
       (example_env no_file no_json ticking_clock accepting_db)
       "Users" no_overrides start
     = ({| trace :=
             [ReadFile "data/users.json"; BulkDelete "People" None (Some ∅)];
           clock_reads := 0 |},
        Returned tt).
Proof.
  intros user. split.
  - apply (proj1 (C5_removeData
                    (example_env (one_file "data/users.json" "rows")
                       (parses "rows" (VArr [VObj user])) ticking_clock
                       accepting_db)
                    "Users" no_overrides start)
             ["userName"; "email"] [VObj user]).
    + reflexivity.
    + reflexivity.
    + repeat constructor.
    + exists "email", (VObj user), (VStr "a@x.com").
      split; [set_solver|]. split; [set_solver|]. split; reflexivity.
    + reflexivity.
  - apply (proj2 (proj2 (C5_removeData
                           (example_env no_file no_json ticking_clock
                              accepting_db)
                           "Users" no_overrides start))
             ["userName"; "email"]).
    + reflexivity.
    + discriminate.
    + left. reflexivity.
Defined.

(** C6. [processData] never calls the database.  When the data file is
    absent it fails with [DataFileNotFoundError]; when its content is not
    JSON, with [InvalidJsonError]; when it parses to something that is not
    an array, with [InvalidDataShapeError]. *)
Theorem C6_processData_load_errors env entity customConfig
  (filterValidFields : bool) w :
  let path := dataFile (SeederConfig.getEntityConfig env entity customConfig) in
  let run :=
    SeederFactory.processData env entity customConfig filterValidFields w in
  db_calls (trace (fst run)) = db_calls (trace w)
  /\ (fs_readFile env path = ENOENT ->
      snd run = Thrown (DataFileNotFoundError path))
  /\ (forall content,
        fs_readFile env path = FileText content ->
        JSON_parse env content = None ->
        snd run = Thrown (InvalidJsonError path))
  /\ (forall content parsed,
        fs_readFile env path = FileText content ->
        JSON_parse env content = Some parsed ->
        Array_isArray parsed = false ->
        snd run = Thrown (InvalidDataShapeError (typeof parsed))).
Proof.
  intros path run. split.
  - subst run. rewrite processData_trace. simpl.
    rewrite db_calls_app. simpl. apply app_nil_r.
  - subst run. unfold SeederFactory.processData. rewrite try_rethrow.
    unfold bind, SeederFactory._loadDataFile. fold path.
    split; [|split].
    + intros ->. reflexivity.
    + intros content -> ->. reflexivity.
    + intros content parsed -> -> Harr.
      destruct parsed; try reflexivity. discriminate.
Qed.

Lemma C6_processData_load_errors_witness :
  snd (SeederFactory.processData
         (example_env no_file no_json ticking_clock accepting_db)
         "Products" no_overrides true start)
  = Thrown (DataFileNotFoundError "data/products.json")
  /\ snd (SeederFactory.processData
            (example_env (one_file "data/products.json" "[1,") no_json
               ticking_clock accepting_db)
            "Products" no_overrides true start)
     = Thrown (InvalidJsonError "data/products.json")
  /\ snd (SeederFactory.processData
            (example_env (one_file "data/products.json" not_an_array_json)
               (parses not_an_array_json (VStr "not an array"))
               ticking_clock accepting_db)
            "Products" no_overrides true start)
     = Thrown (InvalidDataShapeError TyString).
Proof.
  split; [|split].
  - apply (C6_processData_load_errors
             (example_env no_file no_json ticking_clock accepting_db)
             "Products" no_overrides true start).
    reflexivity.
  - apply (C6_processData_load_errors
             (example_env (one_file "data/products.json" "[1,") no_json
                ticking_clock accepting_db)
             "Products" no_overrides true start) with (content := "[1,");
      reflexivity.
  - apply (C6_processData_load_errors
             (example_env (one_file "data/products.json" not_an_array_json)
                (parses not_an_array_json (VStr "not an array"))
                ticking_clock accepting_db)
             "Products" no_overrides true start)
      with (content := not_an_array_json) (parsed := VStr "not an array");
      reflexivity.
Defined.

(** C7. For every dataset of [N] records and every batch size [B >= 1],
    [insertData] and [bulkInsertInBatches] partition the (stamped)
    dataset into [ceil(N/B)] contiguous batches, each but the last of [B]
    records, the last of [N mod B] records when that is not zero, which in
    order give back the dataset; they issue these batches in order, one
    bulk-insert each, up to the first one the database rejects, and all
    of them, returning, when the database accepts the calls. *)
Theorem C7_batching env fuel entity customConfig (data : list record)
  table (dataset : list value) options (B : Z) w :
  (1 <= B)%Z -> length data <= fuel -> length dataset <= fuel ->
  batchSize (SeederConfig.getEntityConfig env entity customConfig) = B ->
  (exists batches,
      batches_partition B (stamps_from env (clock_reads w) data) batches
      /\ issues_batches
           (tableName (SeederConfig.getEntityConfig env entity customConfig))
           None batches w
           (SeederFactory.insertData env fuel entity data customConfig w)
      /\ (db_accepts_all env ->
          snd (SeederFactory.insertData env fuel entity data customConfig w)
          = Returned tt))
  /\ (exists batches,
        batches_partition B dataset batches
        /\ issues_batches table
             (Some (options ∪ {["ignoreDuplicates" := VBool false]}))
             batches w
             (SeederFactory.bulkInsertInBatches env fuel table (VArr dataset)
                B options w)
        /\ (db_accepts_all env ->
            snd (SeederFactory.bulkInsertInBatches env fuel table
                   (VArr dataset) B options w)
            = Returned tt)).
Proof.
  intros HB Hfuel Hfuel' Hcfg. split.
  - exists (chunks (Z.to_nat B) (stamps_from env (clock_reads w) data)).
    split; [now apply chunks_partition|].
    unfold SeederFactory.insertData. rewrite try_rethrow.
    unfold bind. rewrite stamp_all_spec.
    unfold SeederFactory.insert_in_batches. rewrite Hcfg.
    destruct (Z.eqb_spec B 0) as [H0|_]; [lia|].
    match goal with
    | |- context [SeederFactory.insert_loop _ _ ?t ?d _ _ ?w0] =>
        pose proof (insert_loop_chunks env fuel t d B 0 w0 HB) as Hloop
    end.
    change (Z.of_nat 0) with 0%Z in Hloop.
    rewrite Hloop by (rewrite stamps_from_length; lia).
    rewrite drop_0. split.
    + match goal with
      | |- context [SeederFactory.insert_batches _ ?t ?o ?bs ?w0] =>
          destruct (insert_batches_issues env t o bs w0) as [Hissues _]
      end.
      exact Hissues.
    + intros Hdb. now rewrite insert_batches_accepted.
  - exists (chunks (Z.to_nat B) dataset).
    split; [now apply chunks_partition|].
    destruct dataset as [|x rest].
    + split; [|reflexivity]. exists 0. simpl. rewrite app_nil_r.
      repeat split; [lia | now left].
    + rewrite bulkInsertInBatches_chunks by (try easy). split.
      * apply insert_batches_issues.
      * intros Hdb. now rewrite insert_batches_accepted.
Qed.

Lemma C7_batching_witness :
  let env := example_env no_file no_json ticking_clock accepting_db in
  (exists batches,
      batches_partition 2
        (stamps_from env (clock_reads start) [john; jane; john]) batches
      /\ issues_batches
           (tableName
              (SeederConfig.getEntityConfig env "Products" (with_batchSize 2)))
           None batches start
           (SeederFactory.insertData env 3 "Products" [john; jane; john]
              (with_batchSize 2) start)
      /\ (db_accepts_all env ->
          snd (SeederFactory.insertData env 3 "Products" [john; jane; john]
                 (with_batchSize 2) start)
          = Returned tt))
  /\ (exists batches,
        batches_partition 2 [VObj john; VObj jane; VObj john] batches
        /\ issues_batches "Products"
             (Some (∅ ∪ {["ignoreDuplicates" := VBool false]}))
             batches start
             (SeederFactory.bulkInsertInBatches env 3 "Products"
                (VArr [VObj john; VObj jane; VObj john]) 2 ∅ start)
        /\ (db_accepts_all env ->
            snd (SeederFactory.bulkInsertInBatches env 3 "Products"
                   (VArr [VObj john; VObj jane; VObj john]) 2 ∅ start)
            = Returned tt)).
Proof.
  apply (C7_batching
           (example_env no_file no_json ticking_clock accepting_db) 3
           "Products" (with_batchSize 2) [john; jane; john] "Products"
           [VObj john; VObj jane; VObj john] ∅ 2 start).
  - lia.
  - simpl. lia.
  - simpl. lia.
  - reflexivity.
Defined.

(** C8. The design document has every field of a record go through the
    per-field rule, and the comments of the code say of numbers, arrays and
    objects "keep as-is".  The code stores with [processed[key] = value],
    and at the key [__proto__] that assignment runs the prototype setter of
    [Object.prototype] instead of storing: of the record
    [{"__proto__": 5, "userName": " john "}] the field [__proto__], a
    number the rule keeps, is lost, and of
    [{"__proto__": {"role": "admin"}, "userName": "john"}] the nested
    object is not a field of the result but its prototype. *)
Theorem C8_proto_field_lost :
  let item :=
    VObj (<["__proto__" := VNum 5]> (<["userName" := VStr " john "]> ∅)) in
  let nested : value := VObj (<["role" := VStr "admin"]> ∅) in
  let item' :=
    VObj (<["__proto__" := nested]> (<["userName" := VStr "john"]> ∅)) in
  own_enumerable item !! "__proto__" ≫= spec_normalize_field = Some (VNum 5)
  /\ DataProcessor.processGeneric item 0
     = inr (<["userName" := VStr "john"]> ∅)
  /\ own_enumerable item' !! "__proto__" ≫= spec_normalize_field = Some nested
  /\ DataProcessor.processGeneric_result item' 0
     = inr {| own := <["userName" := VStr "john"]> ∅; proto := Some nested |}.
Proof. vm_compute. repeat split; reflexivity. Qed.

(** C9. Normalization is idempotent: for every input that is a non-null
    object, normalizing the normalized record gives the same record; the
    normalized record has no null or undefined field, and its strings are
    trimmed and not empty. *)
Theorem C9_normalize_idempotent (item : value) (index index' : nat) :
  is_object item = true ->
  exists out : record,
    DataProcessor.processGeneric item index = inr out /\
    DataProcessor.processGeneric (VObj out) index' = inr out /\
    (forall key v,
        out !! key = Some v ->
        v <> VNull /\ v <> VUndefined /\
        (forall s, v = VStr s -> trim s = s /\ s <> "")).
Proof.
  intros Hobj. eexists. split; [now apply processGeneric_object|]. split.
  - rewrite processGeneric_object by reflexivity. f_equal.
    apply map_eq. intros key. rewrite normalized_lookup.
    simpl own_enumerable. rewrite normalized_lookup.
    destruct (decide (key = "__proto__")); [reflexivity|].
    destruct (own_enumerable item !! key) as [v|]; [simpl|reflexivity].
    destruct (spec_normalize_field v) as [v'|] eqn:E; [simpl|reflexivity].
    now apply spec_normalize_field_fixed in E.
  - intros key v. rewrite normalized_lookup.
    destruct (decide (key = "__proto__")); [discriminate|].
    destruct (own_enumerable item !! key) as [v0|]; [simpl|discriminate].
    apply spec_normalize_field_clean.
Qed.

Lemma C9_normalize_idempotent_witness :
  exists out : record,
    DataProcessor.processGeneric
      (VObj (<["email" := VStr " j@x.com "]> (<["big" := VBigInt 12]> ∅))) 0
    = inr out /\
    DataProcessor.processGeneric (VObj out) 0 = inr out /\
    (forall key v,
        out !! key = Some v ->
        v <> VNull /\ v <> VUndefined /\
        (forall s, v = VStr s -> trim s = s /\ s <> "")).
Proof.
  apply (C9_normalize_idempotent
           (VObj (<["email" := VStr " j@x.com "]> (<["big" := VBigInt 12]> ∅)))
           0 0).
  reflexivity.
Defined.

(** C10. Whatever the table name, the options and the batch size, zero
    and negative ones included, [bulkInsertInBatches] called with an empty
    array or with something that is not an array returns normally and
    leaves the world untouched: no error, no database call. *)
Theorem C10_empty_data_returns env fuel table (data : value) (B : Z)
  options w :
  data = VArr [] \/ Array_isArray data = false ->
  SeederFactory.bulkInsertInBatches env fuel table data B options w
  = (w, Returned tt).
Proof.
  intros [-> | H]; [reflexivity|].
  destruct data; try reflexivity. discriminate.
Qed.

Lemma C10_empty_data_returns_witness :
  SeederFactory.bulkInsertInBatches
    (example_env no_file no_json ticking_clock accepting_db)
    0 "Products" (VArr []) (-3) ∅ start = (start, Returned tt)
  /\ SeederFactory.bulkInsertInBatches
       (example_env no_file no_json ticking_clock accepting_db)
       0 "Products" (VStr "rows") 0 ∅ start = (start, Returned tt).
Proof.
  split.
  - apply (C10_empty_data_returns
             (example_env no_file no_json ticking_clock accepting_db)
             0 "Products" (VArr []) (-3) ∅ start).
    left. reflexivity.
  - apply (C10_empty_data_returns
             (example_env no_file no_json ticking_clock accepting_db)
             0 "Products" (VStr "rows") 0 ∅ start).
    right. reflexivity.
Defined.

(** * Further properties of the code *)

(** ** Names of model files *)

Section Names.
Import ModelFiles.

Lemma string_of_chars_app (a b : list ascii) :
  string_of_list_ascii (a ++ b)
  = string_of_list_ascii a +:+ string_of_list_ascii b.
Proof. induction a as [|c a IH]; simpl; [reflexivity | now rewrite IH]. Qed.

Lemma string_append_assoc (a b c : string) :
  (a +:+ b) +:+ c = a +:+ b +:+ c.
Proof.
  induction a as [|x a IH]; [reflexivity|].
  change (String x ((a +:+ b) +:+ c) = String x (a +:+ b +:+ c)).
  now rewrite IH.
Qed.

Lemma string_of_rev_chars (w : string) (r : list ascii) :
  rev (list_ascii_of_string w) = r -> w = string_of_list_ascii (rev r).
Proof.
  intros <-. now rewrite rev_involutive, string_of_list_ascii_of_string.
Qed.

Lemma rev_chars_append (a b : string) :
  rev (list_ascii_of_string (a +:+ b))
  = rev (list_ascii_of_string b) ++ rev (list_ascii_of_string a).
Proof. now rewrite chars_append, rev_app_distr. Qed.

Lemma rev_chars_of_string (l : list ascii) :
  rev (list_ascii_of_string (string_of_list_ascii (rev l))) = l.
Proof. now rewrite list_ascii_of_string_of_list_ascii, rev_involutive. Qed.

(** The two functions by the last letters of the word. *)
Lemma pluralize_cases (w : string) :
  SeederConfig._pluralize w =
  match rev (list_ascii_of_string w) with
  | c :: front =>
      if Ascii.eqb c "y" then string_of_list_ascii (rev front) +:+ "ies"
      else if Ascii.eqb c "s" then w +:+ "es"
      else w +:+ "s"
  | [] => w +:+ "s"
  end.
Proof.
  unfold SeederConfig._pluralize.
  destruct (rev (list_ascii_of_string w)) as [|c front]; [reflexivity|].
  destruct c as [[] [] [] [] [] [] [] []]; reflexivity.
Qed.

Lemma singularize_cases (w : string) :
  _singularize w =
  match rev (list_ascii_of_string w) with
  | c1 :: front1 =>
      if Ascii.eqb c1 "s" then
        match front1 with
        | c2 :: c3 :: front =>
            if Ascii.eqb c2 "e" && Ascii.eqb c3 "i"
            then string_of_list_ascii (rev front) +:+ "y"
            else string_of_list_ascii (rev front1)
        | _ => string_of_list_ascii (rev front1)
        end
      else w
  | [] => w
  end.
Proof.
  unfold _singularize.
  destruct (rev (list_ascii_of_string w)) as [|c1 front1]; [reflexivity|].
  destruct c1 as [[] [] [] [] [] [] [] []]; try reflexivity.
  destruct front1 as [|c2 front2]; [reflexivity|].
  destruct c2 as [[] [] [] [] [] [] [] []];
    try (destruct front2; reflexivity).
  destruct front2 as [|c3 front]; [reflexivity|].
  destruct c3 as [[] [] [] [] [] [] [] []]; reflexivity.
Qed.

End Names.

(** X1. [_singularize] undoes [_pluralize] on every word that ends neither
    in [s] nor in [ie]; a word in [s] comes back with an [e] added, and a
    word in [ie] comes back in [y]. *)
Theorem singularize_pluralize (w : string) :
  ((forall front, w <> front +:+ "s") ->
   (forall front, w <> front +:+ "ie") ->
   ModelFiles._singularize (SeederConfig._pluralize w) = w)
  /\ (forall front, w = front +:+ "s" ->
      ModelFiles._singularize (SeederConfig._pluralize w) = w +:+ "e")
  /\ (forall front, w = front +:+ "ie" ->
      ModelFiles._singularize (SeederConfig._pluralize w) = front +:+ "y").
Proof.
  split; [|split].
  - intros Hs Hie. rewrite pluralize_cases.
    destruct (rev (list_ascii_of_string w)) as [|c front] eqn:E0.
    + apply string_of_rev_chars in E0. subst w. reflexivity.
    + pose proof (string_of_rev_chars _ _ E0) as E. simpl rev in E.
      rewrite string_of_chars_app in E. simpl in E.
      destruct (Ascii.eqb_spec c "y") as [-> | Hy].
      * rewrite singularize_cases, rev_chars_append, rev_chars_of_string.
        simpl. now rewrite E.
      * destruct (Ascii.eqb_spec c "s") as [-> | Hc]; [now destruct (Hs _ E)|].
        rewrite singularize_cases, rev_chars_append, E0. simpl.
        assert (Hw : string_of_list_ascii (rev front ++ [c]) = w)
          by (symmetry; now apply (string_of_rev_chars w (c :: front))).
        destruct front as [|c3 front']; [exact Hw|].
        destruct (Ascii.eqb_spec c "e") as [-> | He]; [|exact Hw].
        destruct (Ascii.eqb_spec c3 "i") as [-> | Hi]; [|exact Hw].
        exfalso. apply (Hie (string_of_list_ascii (rev front'))).
        rewrite E. simpl. rewrite !string_of_chars_app. simpl.
        now rewrite string_append_assoc.
  - intros front ->. rewrite pluralize_cases, rev_chars_append. simpl.
    rewrite singularize_cases, rev_chars_append. simpl.
    rewrite rev_chars_append. simpl.
    rewrite rev_involutive, !string_of_chars_app.
    rewrite string_of_list_ascii_of_string. simpl.
    now rewrite string_append_assoc.
  - intros front ->. rewrite pluralize_cases, rev_chars_append. simpl.
    rewrite singularize_cases, rev_chars_append. simpl.
    rewrite rev_chars_append. simpl.
    now rewrite rev_involutive, string_of_list_ascii_of_string.
Qed.

Lemma singularize_pluralize_witness :
  ModelFiles._singularize (SeederConfig._pluralize "Category") = "Category"
  /\ ModelFiles._singularize (SeederConfig._pluralize "Class") = "Class" +:+ "e"
  /\ ModelFiles._singularize (SeederConfig._pluralize "Movie") = "Mov" +:+ "y".
Proof.
  split; [|split].
  - apply (proj1 (singularize_pluralize "Category")).
    + intros front H. apply (f_equal (fun s => rev (list_ascii_of_string s))) in H.
      rewrite rev_chars_append in H. discriminate.
    + intros front H. apply (f_equal (fun s => rev (list_ascii_of_string s))) in H.
      rewrite rev_chars_append in H. discriminate.
  - apply (proj1 (proj2 (singularize_pluralize "Class")) "Clas"). reflexivity.
  - apply (proj2 (proj2 (singularize_pluralize "Movie")) "Mov"). reflexivity.
Defined.

Section ModelFileLookup.
Import ModelFiles.
Variable existsSync : string -> bool.
Variable modelsPath : string.

Lemma first_existing_spec names :
  match first_existing existsSync modelsPath names with
  | Some filePath =>
      exists before name after,
        names = before ++ name :: after
        /\ filePath = model_path modelsPath name
        /\ existsSync filePath = true
        /\ Forall (absent existsSync modelsPath) before
  | None => Forall (absent existsSync modelsPath) names
  end.
Proof.
  induction names as [|name rest IH]; simpl; [constructor|].
  destruct (existsSync (model_path modelsPath name)) eqn:E.
  - exists [], name, rest. repeat split; [exact E | constructor].
  - destruct (first_existing existsSync modelsPath rest) as [filePath|].
    + destruct IH as (before & n & after & -> & -> & Hex & Hbefore).
      exists (name :: before), n, after.
      repeat split; [exact Hex | now constructor].
    + now constructor.
Qed.

Lemma chars_toLowerCase s :
  list_ascii_of_string (toLowerCase s) = map lower_char (list_ascii_of_string s).
Proof. induction s as [|c s IH]; simpl; [reflexivity | now rewrite IH]. Qed.

Lemma lower_char_hyphen c : lower_char c = "-"%char -> c = "-"%char.
Proof.
  destruct c as [[] [] [] [] [] [] [] []]; vm_compute; intros H;
    first [reflexivity | discriminate H].
Qed.

Lemma camel_chars_step c d l :
  camel_chars (c :: d :: l)
  = if Ascii.eqb c "-" && is_lower_letter d
    then upper_letter d :: camel_chars l
    else c :: camel_chars (d :: l).
Proof. reflexivity. Qed.

Lemma camel_chars_no_hyphen l :
  Forall (fun c => c <> "-"%char) l -> camel_chars l = l.
Proof.
  induction 1 as [|c l Hc Hl IH]; [reflexivity|].
  destruct l as [|d l']; [reflexivity|]. rewrite camel_chars_step.
  destruct (Ascii.eqb_spec c "-") as [->|_]; [congruence|].
  cbn [andb]. now rewrite IH.
Qed.

Lemma camelCase_no_hyphen s : no_hyphen s -> _camelCase s = s.
Proof.
  intros H. unfold _camelCase. rewrite camel_chars_no_hyphen by exact H.
  apply string_of_list_ascii_of_string.
Qed.

Lemma toLowerCase_no_hyphen s : no_hyphen s -> no_hyphen (toLowerCase s).
Proof.
  unfold no_hyphen. rewrite chars_toLowerCase. intros H.
  apply List.Forall_map. eapply List.Forall_impl; [|exact H].
  intros c Hc Hl. now apply Hc, lower_char_hyphen.
Qed.

Lemma singularize_no_hyphen s : no_hyphen s -> no_hyphen (_singularize s).
Proof.
  unfold no_hyphen. intros H. rewrite singularize_cases.
  assert (Hrev : Forall (fun c => c <> "-"%char) (rev (list_ascii_of_string s)))
    by now apply List.Forall_rev.
  destruct (rev (list_ascii_of_string s)) as [|c1 front1]; [exact H|].
  destruct (Ascii.eqb c1 "s"); [|exact H].
  assert (H1 : Forall (fun c => c <> "-"%char) (rev front1)).
  { apply List.Forall_rev. now inversion Hrev. }
  destruct front1 as [|c2 [|c3 front]];
    try (now rewrite list_ascii_of_string_of_list_ascii).
  destruct (Ascii.eqb c2 "e" && Ascii.eqb c3 "i");
    [|now rewrite list_ascii_of_string_of_list_ascii].
  rewrite chars_append, list_ascii_of_string_of_list_ascii.
  apply Forall_app. split.
  - apply List.Forall_rev. inversion Hrev as [|? ? _ H2]; subst.
    inversion H2 as [|? ? _ H3]; subst. now inversion H3.
  - now repeat constructor.
Qed.

Lemma first_existing_repeated a b :
  first_existing existsSync modelsPath [a; b; a; b]
  = first_existing existsSync modelsPath [a; b].
Proof.
  simpl. destruct (existsSync (model_path modelsPath a)); [reflexivity|].
  now destruct (existsSync (model_path modelsPath b)).
Qed.

End ModelFileLookup.

(** X2. [_findModelFile] returns the path of the first candidate name
    whose file exists, the candidates before it having none, and nothing
    exactly when no candidate has a file. *)
Theorem findModelFile_first (existsSync : string -> bool)
  (modelsPath entity : string) :
  match ModelFiles._findModelFile existsSync modelsPath entity with
  | Some filePath =>
      exists before name after,
        ModelFiles.possibleNames entity = before ++ name :: after
        /\ filePath = ModelFiles.model_path modelsPath name
        /\ existsSync filePath = true
        /\ Forall (absent existsSync modelsPath) before
  | None =>
      Forall (absent existsSync modelsPath) (ModelFiles.possibleNames entity)
  end.
Proof. apply first_existing_spec. Qed.

(** X3. For an entity name without a hyphen, other than [Users] and
    [User], the two camel-cased candidates repeat the first two:
    [_findModelFile] tries the lower-cased name, then the lower-cased
    singular, and nothing else. *)
Theorem findModelFile_plain_names (existsSync : string -> bool)
  (modelsPath entity : string) :
  entity <> "Users" -> entity <> "User" -> no_hyphen entity ->
  ModelFiles._findModelFile existsSync modelsPath entity
  = ModelFiles.first_existing existsSync modelsPath
      [toLowerCase entity; toLowerCase (ModelFiles._singularize entity)].
Proof.
  intros H1 H2 Hh. unfold ModelFiles._findModelFile, ModelFiles.possibleNames.
  destruct (decide (entity = "Users")); [congruence|].
  destruct (decide (entity = "User")); [congruence|].
  rewrite !camelCase_no_hyphen
    by (apply toLowerCase_no_hyphen; try apply singularize_no_hyphen; exact Hh).
  apply first_existing_repeated.
Qed.

Lemma findModelFile_plain_names_witness :
  ModelFiles._findModelFile
    (fun p => if decide (p = "models/product.js") then true else false)
    "models" "Products"
  = ModelFiles.first_existing
      (fun p => if decide (p = "models/product.js") then true else false)
      "models"
      [toLowerCase "Products"; toLowerCase (ModelFiles._singularize "Products")].
Proof.
  apply (findModelFile_plain_names
           (fun p => if decide (p = "models/product.js") then true else false)
           "models" "Products").
  - discriminate.
  - discriminate.
  - unfold no_hyphen. simpl. repeat constructor; discriminate.
Defined.

Example findModelFile_products :
  ModelFiles._findModelFile
    (fun p => if decide (p = "models/product.js") then true else false)
    "models" "Products"
  = Some "models/product.js".
Proof. reflexivity. Qed.

Example camelCase_work_orders :
  ModelFiles._camelCase "work-orders" = "workOrders"
  /\ ModelFiles._camelCase "a--b-" = "a-B-".
Proof. split; reflexivity. Qed.

(** ** The configuration cache *)

Section CacheFacts.
Import CachedConfig.
Variable JSON_stringify : CustomConfig -> string.

(** A cached record stays, whatever is resolved afterwards, and answers
    every request with its key. *)
Lemma cache_entry_stays cache requests key config :
  cache !! key = Some config ->
  (resolve_all JSON_stringify cache requests).2 !! key = Some config
  /\ forall i env entity customConfig,
       requests !! i = Some (env, entity, customConfig) ->
       cacheKey JSON_stringify entity customConfig = key ->
       (resolve_all JSON_stringify cache requests).1 !! i = Some config.
Proof.
  revert cache. induction requests as [|[[env entity] customConfig] rest IH];
    intros cache Hkey.
  - split; [exact Hkey|]. intros i ? ? ? Hi. discriminate.
  - simpl. unfold getEntityConfig.
    destruct (cache !! cacheKey JSON_stringify entity customConfig)
      as [cached|] eqn:E.
    + destruct (IH cache Hkey) as [Hc Hall].
      destruct (resolve_all JSON_stringify cache rest) as [configs cache'].
      split; [exact Hc|]. intros [|i] env' e' c' Hi Hk; simpl in *.
      * injection Hi as <- <- <-. rewrite Hk in E. congruence.
      * eapply Hall; eassumption.
    + assert (Hne : cacheKey JSON_stringify entity customConfig <> key)
        by congruence.
      destruct (IH (<[cacheKey JSON_stringify entity customConfig :=
                       SeederConfig.getEntityConfig env entity customConfig]>
                      cache)) as [Hc Hall].
      { now rewrite lookup_insert_ne. }
      destruct (resolve_all JSON_stringify _ rest) as [configs cache'].
      split; [exact Hc|]. intros [|i] env' e' c' Hi Hk; simpl in *.
      * injection Hi as <- <- <-. congruence.
      * eapply Hall; eassumption.
Qed.

End CacheFacts.

(** X4. Once a configuration is resolved, the resolver never computes it
    again: the first request with a key not yet cached gets the record
    computed from the files as they are then, and every later request with
    the same key gets that same record, whatever the files have become
    and whatever else was resolved in between. *)
Theorem cache_returns_first_resolution (JSON_stringify : CustomConfig -> string)
  cache env entity customConfig rest :
  cache !! CachedConfig.cacheKey JSON_stringify entity customConfig = None ->
  let config := SeederConfig.getEntityConfig env entity customConfig in
  let configs :=
    (CachedConfig.resolve_all JSON_stringify cache
       ((env, entity, customConfig) :: rest)).1 in
  configs !! 0 = Some config
  /\ forall i env' entity' customConfig',
       rest !! i = Some (env', entity', customConfig') ->
       CachedConfig.cacheKey JSON_stringify entity' customConfig'
       = CachedConfig.cacheKey JSON_stringify entity customConfig ->
       configs !! S i = Some config.
Proof.
  intros Hmiss config configs. subst configs.
  cbn [CachedConfig.resolve_all]. unfold CachedConfig.getEntityConfig.
  rewrite !Hmiss. fold config.
  pose proof (cache_entry_stays JSON_stringify
                (<[CachedConfig.cacheKey JSON_stringify entity customConfig :=
                     config]> cache)
                rest _ config (lookup_insert_eq _ _ _)) as [_ Hall].
  destruct (CachedConfig.resolve_all JSON_stringify _ rest)
    as [configs cache'].
  split; [reflexivity|]. intros i env' e' c' Hi Hk. simpl.
  eapply Hall; eassumption.
Qed.

(** ** What [processData] returns, item by item *)

Section ProcessedRecords.
Import SeederFactory.
Variable env : Env.

Lemma bool_decide_is_Some {A} (o : option A) :
  bool_decide (is_Some o) = match o with Some _ => true | None => false end.
Proof.
  destruct o; case_bool_decide as H; try reflexivity.
  - exfalso. apply H. now eexists.
  - now destruct H.
Qed.

Lemma bool_decide_None {A} (o : option A) :
  bool_decide (o = None) = match o with Some _ => false | None => true end.
Proof. destruct o; case_bool_decide; congruence. Qed.

Lemma hasOwnProperty_answers (obj : object) field :
  hasOwnProperty obj field
  = if answers_hasOwnProperty obj
    then inr (bool_decide (is_Some (own obj !! field)))
    else inl TypeError.
Proof.
  unfold hasOwnProperty, answers_hasOwnProperty. rewrite bool_decide_None.
  destruct (own obj !! "hasOwnProperty") as [v|]; [reflexivity|]. simpl.
  destruct (proto obj) as [p|]; [|reflexivity].
  destruct p; try reflexivity; rewrite bool_decide_None;
    match goal with
    | |- context [own_enumerable ?p !! "hasOwnProperty"] =>
        now destruct (own_enumerable p !! "hasOwnProperty")
    end.
Qed.

Lemma processed_answers item :
  answers_hasOwnProperty
    {| own := normalized item; proto := normalized_proto item |}
  = negb (shadows_hasOwnProperty item).
Proof.
  unfold answers_hasOwnProperty, shadows_hasOwnProperty. simpl.
  rewrite negb_orb, bool_decide_None, bool_decide_is_Some. f_equal.
  - now destruct (normalized item !! "hasOwnProperty").
  - unfold normalized_proto.
    destruct (own_enumerable item !! "__proto__") as [[]|]; try reflexivity;
      rewrite bool_decide_None, bool_decide_is_Some;
      match goal with
      | |- context [own_enumerable ?p !! "hasOwnProperty"] =>
          now destruct (own_enumerable p !! "hasOwnProperty")
      end.
Qed.

(** The loop of the filter on an object that answers [hasOwnProperty]. *)
Lemma filter_loop_lookup (processed : object) fields (filtered : object) :
  answers_hasOwnProperty processed = true ->
  exists out,
    filter_loop processed fields filtered = inr out
    /\ forall key,
         own out !! key
         = if decide (key ∈ fields /\ key <> "__proto__") then
             match own processed !! key with
             | Some v => Some v
             | None => own filtered !! key
             end
           else own filtered !! key.
Proof.
  intros Hans. revert filtered.
  induction fields as [|f rest IH]; intros filtered.
  - exists filtered. split; [reflexivity|]. intros key.
    destruct (decide _) as [[H _]|_]; [|reflexivity].
    now apply elem_of_nil in H.
  - cbn [filter_loop]. rewrite hasOwnProperty_answers, Hans.
    destruct (own processed !! f) as [v|] eqn:E.
    + rewrite bool_decide_is_Some. simpl.
      destruct (IH (assign filtered f v)) as (out & -> & Hout).
      exists out. split; [reflexivity|]. intros key. rewrite Hout.
      rewrite own_assign.
      destruct (decide (key = f)) as [-> | Hne].
      * destruct (decide (f = "__proto__")) as [Hp | Hp].
        -- destruct (decide (f ∈ rest /\ f <> "__proto__")) as [[_ H]|_];
             [contradiction|].
           destruct (decide (f ∈ f :: rest /\ f <> "__proto__")) as [[_ H]|_];
             [contradiction | reflexivity].
        -- rewrite E, lookup_insert_eq.
           destruct (decide (f ∈ f :: rest /\ f <> "__proto__")) as [_|H];
             [|exfalso; apply H; split; [left | exact Hp]].
           now destruct (decide (f ∈ rest /\ f <> "__proto__")).
      * assert (Hacc :
          (if decide (f = "__proto__") then own filtered
           else <[f := v]> (own filtered)) !! key = own filtered !! key).
        { destruct (decide (f = "__proto__")); [reflexivity|].
          now rewrite lookup_insert_ne. }
        rewrite Hacc.
        destruct (decide (key ∈ rest /\ key <> "__proto__")) as [[Hin Hp]|Hn];
          destruct (decide (key ∈ f :: rest /\ key <> "__proto__"))
            as [[Hin' Hp']|Hn']; try reflexivity.
        -- exfalso. apply Hn'. split; [now right | exact Hp].
        -- exfalso. apply Hn. split; [|exact Hp'].
           apply elem_of_cons in Hin' as [?|?]; [congruence | assumption].
    + rewrite bool_decide_is_Some. simpl.
      destruct (IH filtered) as (out & -> & Hout).
      exists out. split; [reflexivity|]. intros key. rewrite Hout.
      destruct (decide (key ∈ rest /\ key <> "__proto__")) as [[Hin Hp]|Hn];
        destruct (decide (key ∈ f :: rest /\ key <> "__proto__"))
          as [[Hin' Hp']|Hn']; try reflexivity.
      * exfalso. apply Hn'. split; [now right | exact Hp].
      * apply elem_of_cons in Hin' as [-> | Hin'].
        -- now rewrite E.
        -- exfalso. apply Hn. now split.
Qed.

Lemma filter_fields_lookup (processed : object) fields :
  answers_hasOwnProperty processed = true ->
  exists filtered,
    filter_fields processed fields = inr filtered
    /\ forall key,
         own filtered !! key
         = if decide (key ∈ fields /\ key <> "__proto__")
           then own processed !! key else None.
Proof.
  intros Hans.
  destruct (filter_loop_lookup processed fields empty_object Hans)
    as (out & Heq & Hout).
  exists out. split; [exact Heq|]. intros key. rewrite Hout. simpl.
  rewrite lookup_empty.
  destruct (decide (key ∈ fields /\ key <> "__proto__")); [|reflexivity].
  now destruct (own processed !! key).
Qed.

Lemma filter_fields_throws (processed : object) field fields :
  answers_hasOwnProperty processed = false ->
  filter_fields processed (field :: fields) = inl TypeError.
Proof.
  intros Hans. unfold filter_fields. cbn [filter_loop].
  now rewrite hasOwnProperty_answers, Hans.
Qed.

Lemma normalized_no_proto item : normalized item !! "__proto__" = None.
Proof. unfold normalized. apply lookup_delete_eq. Qed.

Lemma projected_nil (processed : record) : projected [] processed = ∅.
Proof.
  apply map_eq. intros key. unfold projected.
  rewrite map_lookup_filter, lookup_empty.
  destruct (processed !! key) as [v|]; [|reflexivity]. simpl.
  now rewrite ?option_guard_False by apply not_elem_of_nil.
Qed.

Lemma process_item_object config flt item w :
  is_object item = true ->
  process_item config flt item w
  = (w, if filter_asks config flt && shadows_hasOwnProperty item
        then Thrown TypeError
        else Returned (processed_record config flt item)).
Proof.
  intros H. unfold process_item, bind, lift,
    DataProcessor.processGeneric_instance, processed_record, filter_asks.
  rewrite processGeneric_result_object by exact H. unfold ret at 1.
  destruct flt; [|reflexivity].
  destruct (validFields config) as [fields|]; [|reflexivity].
  pose proof (processed_answers item) as Hans.
  destruct (shadows_hasOwnProperty item); simpl in Hans.
  - destruct fields as [|f rest].
    + rewrite projected_nil. reflexivity.
    + now rewrite filter_fields_throws.
  - destruct (filter_fields_lookup _ fields Hans) as (out & -> & Hout).
    assert (Heq : own out = projected fields (normalized item)).
    { apply map_eq. intros key. rewrite Hout. simpl. unfold projected.
      rewrite map_lookup_filter.
      destruct (decide (key = "__proto__")) as [-> | Hne].
      - rewrite normalized_no_proto. simpl.
        now destruct (decide ("__proto__" ∈ fields /\ _)).
      - destruct (normalized item !! key) as [v|]; simpl.
        + destruct (decide (key ∈ fields)) as [Hin|Hin].
          * rewrite option_guard_True by exact Hin.
            now destruct (decide (key ∈ fields /\ key <> "__proto__"))
              as [_|Hn]; [|exfalso; apply Hn].
          * rewrite option_guard_False by exact Hin.
            now destruct (decide (key ∈ fields /\ key <> "__proto__"))
              as [[? _]|_].
        + now destruct (decide (key ∈ fields /\ key <> "__proto__")). }
    destruct fields; cbn [andb]; unfold ret; now rewrite Heq.
Qed.

Lemma process_items_objects config flt items w :
  Forall (fun item => is_object item = true) items ->
  for_each_push (process_item config flt) items w
  = (w, if filter_asks config flt && existsb shadows_hasOwnProperty items
        then Thrown TypeError
        else Returned (processed_record config flt <$> items)).
Proof.
  induction 1 as [|item items Hitem _ IH].
  - simpl. now rewrite andb_false_r.
  - cbn [for_each_push existsb]. unfold bind at 1.
    rewrite process_item_object by exact Hitem.
    destruct (filter_asks config flt); [|simpl in *; unfold bind; now rewrite IH].
    cbn [andb] in *.
    destruct (shadows_hasOwnProperty item); [reflexivity|].
    cbn [orb]. unfold bind. rewrite IH.
    now destruct (existsb shadows_hasOwnProperty items).
Qed.

Lemma process_items_bad config flt good bad rest w :
  Forall (fun item => is_object item = true) good ->
  filter_asks config flt && existsb shadows_hasOwnProperty good = false ->
  is_object bad = false ->
  for_each_push (process_item config flt) (good ++ bad :: rest) w
  = (w, Thrown (InvalidRecordError 0)).
Proof.
  intros Hgood Hpass Hbad. induction Hgood as [|item items Hitem _ IH].
  - simpl. unfold bind at 1. unfold process_item, bind, lift,
      DataProcessor.processGeneric_instance.
    now rewrite processGeneric_rejects.
  - cbn [app for_each_push]. unfold bind at 1.
    rewrite process_item_object by exact Hitem.
    cbn [existsb] in Hpass.
    destruct (filter_asks config flt); cbn [andb] in *.
    + apply orb_false_iff in Hpass as [H1 H2]. rewrite H1.
      unfold bind. now rewrite (IH H2).
    + unfold bind. now rewrite (IH eq_refl).
Qed.

End ProcessedRecords.

(** X20. For every input that is a non-null object, the normalizer
    returns an object that holds, at every field name but [__proto__], what
    the per-field rule of section 4.2 makes of the original value: nothing
    for null, undefined and strings that are empty once trimmed; the
    trimmed text for other strings; the value itself for numbers, booleans,
    dates, arrays and nested objects; the string representation for
    anything else.  It never has a field named [__proto__]: when the input
    holds an object, an array or a date under that name, that value becomes
    the prototype of the returned object, and any other value under that
    name is lost. *)
Theorem normalizer_fields (item : value) (index : nat) :
  is_object item = true ->
  exists processed : object,
    DataProcessor.processGeneric_result item index = inr processed
    /\ DataProcessor.processGeneric item index = inr (own processed)
    /\ own processed !! "__proto__" = None
    /\ (forall key,
          key <> "__proto__" ->
          own processed !! key
          = own_enumerable item !! key ≫= spec_normalize_field)
    /\ proto processed
       = match own_enumerable item !! "__proto__" with
         | Some (VDate t) => Some (VDate t)
         | Some (VArr elems) => Some (VArr elems)
         | Some (VObj props) => Some (VObj props)
         | _ => None
         end.
Proof.
  intros Hobj. eexists. split; [now apply processGeneric_result_object|].
  split; [now apply processGeneric_object|]. simpl.
  split; [apply normalized_no_proto|]. split; [|reflexivity].
  intros key Hkey. rewrite normalized_lookup.
  now destruct (decide (key = "__proto__")).
Qed.

Lemma normalizer_fields_witness :
  exists processed : object,
    DataProcessor.processGeneric_result (VObj masked_by_prototype) 4
    = inr processed
    /\ DataProcessor.processGeneric (VObj masked_by_prototype) 4
       = inr (own processed)
    /\ own processed !! "__proto__" = None
    /\ (forall key,
          key <> "__proto__" ->
          own processed !! key
          = masked_by_prototype !! key ≫= spec_normalize_field)
    /\ proto processed = Some (VObj (<["hasOwnProperty" := VNull]> ∅)).
Proof.
  apply (normalizer_fields (VObj masked_by_prototype) 4). reflexivity.
Defined.

(** X5. The field filter of [processData] works on an object the normalizer
    returns, which has no field named [__proto__].  On an object that
    answers [hasOwnProperty] it keeps exactly the listed fields the object
    owns, with their values, in a plain object: a listed field the object
    lacks is not added, and a field listed twice is kept once.  On an
    object that does not answer
    [hasOwnProperty] (it has, or the object made its prototype has, a field
    of that name) the filter throws a [TypeError] as soon as it has a field
    to ask for. *)
Theorem filter_fields_keeps_listed (processed : object)
  (fields : list string) :
  own processed !! "__proto__" = None ->
  (answers_hasOwnProperty processed = true ->
   exists filtered,
     SeederFactory.filter_fields processed fields = inr filtered
     /\ proto filtered = None
     /\ forall key,
          own filtered !! key
          = if decide (key ∈ fields) then own processed !! key else None)
  /\ (answers_hasOwnProperty processed = false -> fields <> [] ->
      SeederFactory.filter_fields processed fields = inl TypeError).
Proof.
  intros Hproto. split.
  - intros Hans.
    destruct (filter_fields_lookup processed fields Hans)
      as (filtered & Heq & Hout).
    exists filtered. split; [exact Heq|]. split.
    + clear Hout. unfold SeederFactory.filter_fields in Heq.
      assert (Hgen : forall acc out,
        proto acc = None ->
        SeederFactory.filter_loop processed fields acc = inr out ->
        proto out = None).
      { clear Heq. induction fields as [|f rest IH]; intros acc out Hacc.
        - now intros [= <-].
        - cbn [SeederFactory.filter_loop].
          rewrite hasOwnProperty_answers, Hans.
          destruct (own processed !! f) as [v|] eqn:E.
          + rewrite bool_decide_is_Some. simpl.
            apply IH. rewrite proto_assign.
            destruct (decide (f = "__proto__")) as [-> | _]; [|exact Hacc].
            congruence.
          + rewrite bool_decide_is_Some. simpl.
            now apply IH. }
      now apply (Hgen empty_object).
    + intros key. rewrite Hout.
      destruct (decide (key = "__proto__")) as [-> | Hne].
      * rewrite Hproto.
        destruct (decide ("__proto__" ∈ fields /\ _));
          now destruct (decide ("__proto__" ∈ fields)).
      * destruct (decide (key ∈ fields)) as [Hin|Hin].
        -- now destruct (decide (key ∈ fields /\ key <> "__proto__"))
             as [_|Hn]; [|exfalso; apply Hn].
        -- now destruct (decide (key ∈ fields /\ key <> "__proto__"))
             as [[? _]|_].
  - intros Hans Hne. destruct fields as [|f rest]; [congruence|].
    now apply filter_fields_throws.
Qed.

Lemma filter_fields_keeps_listed_witness :
  (exists filtered,
      SeederFactory.filter_fields {| own := john_aged; proto := None |}
        ["userName"; "email"]
      = inr filtered
      /\ proto filtered = None
      /\ forall key,
           own filtered !! key
           = if decide (key ∈ ["userName"; "email"])
             then john_aged !! key else None)
  /\ SeederFactory.filter_fields {| own := masked_john; proto := None |}
       ["userName"]
     = inl TypeError.
Proof.
  split.
  - apply (proj1 (filter_fields_keeps_listed
                    {| own := john_aged; proto := None |}
                    ["userName"; "email"] ltac:(vm_compute; reflexivity))).
    reflexivity.
  - apply (proj2 (filter_fields_keeps_listed
                    {| own := masked_john; proto := None |}
                    ["userName"] ltac:(vm_compute; reflexivity))).
    + reflexivity.
    + discriminate.
Defined.

(** X6. When the data file loads as an array of objects, [processData]
    returns one record per element, in the order of the file: the
    normalized element, cut down to the valid fields when the filter is on
    and a list of valid fields is configured.  The one exception: when the
    filter has a field to ask for and the processed object of some element
    does not answer [hasOwnProperty], [processData] throws a [TypeError].
    Either way the data file is read once and no database call is made.
    (The records are the own fields of the objects returned; with the
    filter off, an object, array or date that an element holds under
    [__proto__] is the prototype of the object returned for it.) *)
Theorem processData_records env entity customConfig
  (filterValidFields : bool) (items : list value) w :
  let config := SeederConfig.getEntityConfig env entity customConfig in
  loads_as env (dataFile config) = Some (VArr items) ->
  Forall (fun item => is_object item = true) items ->
  SeederFactory.processData env entity customConfig filterValidFields w
  = ({| trace := trace w ++ [ReadFile (dataFile config)];
        clock_reads := clock_reads w |},
     if filter_asks config filterValidFields
        && existsb shadows_hasOwnProperty items
     then Thrown TypeError
     else Returned (processed_record config filterValidFields <$> items)).
Proof.
  intros config Hload Hitems. unfold SeederFactory.processData.
  rewrite try_rethrow. fold config. unfold bind at 1.
  rewrite loadDataFile_loads, Hload.
  now rewrite process_items_objects.
Qed.

Lemma processData_records_witness :
  let env items :=
    example_env (one_file "data/products.json" "rows")
      (parses "rows" (VArr items)) ticking_clock accepting_db in
  let read :=
    {| trace := [ReadFile "data/products.json"]; clock_reads := 0 |} in
  SeederFactory.processData (env [VObj john_aged; VObj jane]) "Products"
    (with_validFields ["userName"]) true start
  = (read, Returned [john; jane])
  /\ SeederFactory.processData (env [VObj john; VObj masked_john]) "Products"
       (with_validFields ["userName"]) true start
     = (read, Thrown TypeError)
  /\ SeederFactory.processData (env [VObj john; VObj masked_john]) "Products"
       (with_validFields ["userName"]) false start
     = (read, Returned [john; masked_john]).
Proof.
  intros env read. split; [|split].
  - rewrite (processData_records (env [VObj john_aged; VObj jane]) "Products"
               (with_validFields ["userName"]) true
               [VObj john_aged; VObj jane] start);
      [vm_compute; reflexivity | reflexivity | repeat constructor].
  - rewrite (processData_records (env [VObj john; VObj masked_john])
               "Products" (with_validFields ["userName"]) true
               [VObj john; VObj masked_john] start);
      [vm_compute; reflexivity | reflexivity | repeat constructor].
  - rewrite (processData_records (env [VObj john; VObj masked_john])
               "Products" (with_validFields ["userName"]) false
               [VObj john; VObj masked_john] start);
      [vm_compute; reflexivity | reflexivity | repeat constructor].
Defined.

(** A record whose [__proto__] field holds an object with a field named
    [hasOwnProperty] stops the filter; with the filter off it comes back
    without the field [__proto__]. *)
Example processData_prototype_hides_method :
  let env :=
    example_env (one_file "data/products.json" "rows")
      (parses "rows" (VArr [VObj masked_by_prototype])) ticking_clock
      accepting_db in
  snd (SeederFactory.processData env "Products"
         (with_validFields ["userName"]) true start)
  = Thrown TypeError
  /\ snd (SeederFactory.processData env "Products"
            (with_validFields ["userName"]) false start)
     = Returned [john].
Proof. vm_compute. split; reflexivity. Qed.

(** X7. When an element of the data file is not an object, and no element
    before it stops the field filter (see X6), [processData] fails with the
    invalid-item error, and the index the error reports is always 0,
    wherever the element stands: the instance method of the normalizer
    does not pass the position on.  No database call is made. *)
Theorem processData_invalid_item_index env entity customConfig
  (filterValidFields : bool) (good : list value) (bad : value)
  (rest : list value) w :
  let config := SeederConfig.getEntityConfig env entity customConfig in
  loads_as env (dataFile config) = Some (VArr (good ++ bad :: rest)) ->
  Forall (fun item => is_object item = true) good ->
  filter_asks config filterValidFields
  && existsb shadows_hasOwnProperty good = false ->
  is_object bad = false ->
  SeederFactory.processData env entity customConfig filterValidFields w
  = ({| trace := trace w ++ [ReadFile (dataFile config)];
        clock_reads := clock_reads w |},
     Thrown (InvalidRecordError 0)).
Proof.
  intros config Hload Hgood Hpass Hbad. unfold SeederFactory.processData.
  rewrite try_rethrow. fold config. unfold bind at 1.
  rewrite loadDataFile_loads, Hload.
  now rewrite process_items_bad.
Qed.

Lemma processData_invalid_item_index_witness :
  SeederFactory.processData
    (example_env (one_file "data/products.json" "rows")
       (parses "rows" (VArr ([VObj john; VObj jane] ++ VStr "x" :: [])))
       ticking_clock accepting_db)
    "Products" (with_validFields ["userName"]) true start
  = ({| trace := trace start ++ [ReadFile "data/products.json"];
        clock_reads := clock_reads start |},
     Thrown (InvalidRecordError 0)).
Proof.
  apply (processData_invalid_item_index
           (example_env (one_file "data/products.json" "rows")
              (parses "rows" (VArr ([VObj john; VObj jane] ++ VStr "x" :: [])))
              ticking_clock accepting_db)
           "Products" (with_validFields ["userName"]) true [VObj john; VObj jane] (VStr "x") []
           start).
  - reflexivity.
  - repeat constructor.
  - reflexivity.
  - reflexivity.
Defined.

(** ** What [insertData] inserts *)

Section InsertedRows.
Import SeederFactory.
Variable env : Env.

Lemma stamped_at_row item created updated :
  stamped_row item (stamped_at item created updated).
Proof.
  exists (<["updatedAt" := VDate updated]>
            (<["createdAt" := VDate created]> item)), created, updated.
  repeat split.
  - rewrite lookup_insert_ne by discriminate. apply lookup_insert_eq.
  - apply lookup_insert_eq.
  - intros key Hc Hu. now rewrite !lookup_insert_ne by congruence.
Qed.

Lemma stamps_from_rows r data :
  Forall2 stamped_row data (stamps_from env r data).
Proof.
  revert r. induction data as [|item data IH]; intros r; simpl;
    constructor; [apply stamped_at_row | apply IH].
Qed.

Lemma stamps_from_constant t r data :
  (forall n, Date_now env n = t) ->
  stamps_from env r data = (fun item => stamped_at item t t) <$> data.
Proof.
  intros Hclock. revert r. induction data as [|item data IH]; intros r;
    simpl; [reflexivity|]. now rewrite !Hclock, IH.
Qed.

(** With a negative batch size and an accepting database, every step of
    the budget is spent on one more call. *)
Lemma insert_loop_negative_calls fuel table data (B i : Z) w :
  db_accepts_all env -> (B < 0)%Z -> (i < Z.of_nat (length data))%Z ->
  snd (insert_loop env fuel table data B i w) = OutOfFuel
  /\ length (trace (fst (insert_loop env fuel table data B i w)))
     = length (trace w) + fuel.
Proof.
  intros Hdb HB. revert i w. induction fuel as [|fuel IH]; intros i w Hi.
  - simpl. destruct (Z.ltb_spec i (Z.of_nat (length data))); [|lia].
    simpl. split; [reflexivity | lia].
  - simpl. destruct (Z.ltb_spec i (Z.of_nat (length data))); [|lia].
    unfold bind, bulkInsert, db_call. rewrite Hdb.
    destruct (IH (i + B)%Z
                {| trace := trace w ++ [BulkInsert table
                                          (Array_slice data i (i + B)) None];
                   clock_reads := clock_reads w |} ltac:(lia)) as [Ho Hl].
    split; [exact Ho|]. rewrite Hl. simpl. rewrite length_app. simpl. lia.
Qed.

End InsertedRows.

(** X8. With a negative batch size and records to insert, [insertData]
    never returns: the loop index moves away from the length.  Against a
    database that accepts the calls it is still issuing bulk-inserts when
    any step budget runs out, one call per step. *)
Theorem insertData_negative_batch_size env fuel entity
  (data : list record) customConfig w :
  (batchSize (SeederConfig.getEntityConfig env entity customConfig) < 0)%Z ->
  data <> [] ->
  snd (SeederFactory.insertData env fuel entity data customConfig w)
  <> Returned tt
  /\ (db_accepts_all env ->
      snd (SeederFactory.insertData env fuel entity data customConfig w)
      = OutOfFuel
      /\ length
           (trace
              (fst (SeederFactory.insertData env fuel entity data
                      customConfig w)))
         = length (trace w) + fuel).
Proof.
  intros HB Hdata. unfold SeederFactory.insertData. rewrite try_rethrow.
  unfold bind. rewrite stamp_all_spec.
  unfold SeederFactory.insert_in_batches.
  destruct (Z.eqb_spec
              (batchSize (SeederConfig.getEntityConfig env entity customConfig))
              0) as [H0|_]; [lia|].
  assert (Hlen : (0 < Z.of_nat
                        (length (stamps_from env (clock_reads w) data)))%Z).
  { rewrite stamps_from_length. destruct data; [congruence | simpl; lia]. }
  split.
  - now apply insert_loop_negative_diverges.
  - intros Hdb.
    now apply (insert_loop_negative_calls env fuel _ _ _ 0%Z
                 {| trace := trace w;
                    clock_reads := clock_reads w + 2 * length data |}).
Qed.

Lemma insertData_negative_batch_size_witness :
  snd (SeederFactory.insertData
         (example_env no_file no_json ticking_clock accepting_db)
         7 "Products" [john; jane] (with_batchSize (-1)) start)
  <> Returned tt
  /\ (db_accepts_all (example_env no_file no_json ticking_clock accepting_db) ->
      snd (SeederFactory.insertData
             (example_env no_file no_json ticking_clock accepting_db)
             7 "Products" [john; jane] (with_batchSize (-1)) start)
      = OutOfFuel
      /\ length
           (trace
              (fst (SeederFactory.insertData
                      (example_env no_file no_json ticking_clock accepting_db)
                      7 "Products" [john; jane] (with_batchSize (-1)) start)))
         = length (trace start) + 7).
Proof.
  apply (insertData_negative_batch_size
           (example_env no_file no_json ticking_clock accepting_db)
           7 "Products" [john; jane] (with_batchSize (-1)) start).
  - simpl. lia.
  - discriminate.
Defined.

(** X9. With a batch size of at least 1 and a database that accepts the
    calls, the rows [insertData] inserts are, in the order of the data, the
    records with [createdAt] and [updatedAt] set to dates and every other
    field as it was; a [createdAt] or [updatedAt] the record already had
    is overwritten. *)
Theorem insertData_rows env fuel entity (data : list record) customConfig w :
  (1 <= batchSize (SeederConfig.getEntityConfig env entity customConfig))%Z ->
  db_accepts_all env -> length data <= fuel ->
  exists batches,
    SeederFactory.insertData env fuel entity data customConfig w
    = ({| trace :=
            trace w ++
            ((fun b =>
                BulkInsert
                  (tableName
                     (SeederConfig.getEntityConfig env entity customConfig))
                  b None) <$> batches);
          clock_reads := clock_reads w + 2 * length data |},
       Returned tt)
    /\ Forall2 stamped_row data (concat batches).
Proof.
  intros HB Hdb Hfuel.
  set (B := batchSize (SeederConfig.getEntityConfig env entity customConfig))
    in *.
  exists (chunks (Z.to_nat B) (stamps_from env (clock_reads w) data)).
  split.
  - unfold SeederFactory.insertData. rewrite try_rethrow.
    unfold bind. rewrite stamp_all_spec.
    unfold SeederFactory.insert_in_batches. fold B.
    destruct (Z.eqb_spec B 0) as [H0|_]; [lia|].
    match goal with
    | |- SeederFactory.insert_loop _ _ ?t ?d _ _ ?w0 = _ =>
        pose proof (insert_loop_chunks env fuel t d B 0 w0 HB) as Hloop
    end.
    change (Z.of_nat 0) with 0%Z in Hloop.
    rewrite Hloop by (rewrite stamps_from_length; lia).
    rewrite drop_0. now rewrite insert_batches_accepted.
  - rewrite concat_chunks by lia. apply stamps_from_rows.
Qed.

Lemma insertData_rows_witness :
  exists batches,
    SeederFactory.insertData
      (example_env no_file no_json ticking_clock accepting_db)
      3 "Products" [john; jane; john] (with_batchSize 2) start
    = ({| trace :=
            trace start ++
            ((fun b =>
                BulkInsert
                  (tableName
                     (SeederConfig.getEntityConfig
                        (example_env no_file no_json ticking_clock accepting_db)
                        "Products" (with_batchSize 2)))
                  b None) <$> batches);
          clock_reads := clock_reads start + 2 * length [john; jane; john] |},
       Returned tt)
    /\ Forall2 stamped_row [john; jane; john] (concat batches).
Proof.
  apply (insertData_rows
           (example_env no_file no_json ticking_clock accepting_db)
           3 "Products" [john; jane; john] (with_batchSize 2) start).
  - simpl. lia.
  - intros history e. reflexivity.
  - simpl. lia.
Defined.

(** X10. When the clock stands still during the call and the batch size
    is at least 1, [insertData] does what the two static helpers do one
    after the other, [addTimestamps] on the records and then
    [bulkInsertInBatches] on the result with the configured table and batch
    size: both issue the same batches of the same stamped rows in the same
    order and stop at the first batch the database rejects.  The helper
    passes [{ignoreDuplicates: false, ...options}] with every call and
    [insertData] no options: the two make the same calls and end the same
    way exactly when the database answers the calls of the one as it
    answers the calls of the other. *)
Theorem insertData_as_static_helpers env fuel entity (data : list record)
  customConfig options (t : Z) w :
  let config := SeederConfig.getEntityConfig env entity customConfig in
  (forall n, Date_now env n = t) ->
  (1 <= batchSize config)%Z ->
  length data <= fuel ->
  let table := tableName config in
  let rows := (fun item => stamped_at item t t) <$> data in
  let batches := chunks (Z.to_nat (batchSize config)) rows in
  let passed := options ∪ {["ignoreDuplicates" := VBool false]} in
  let r1 := SeederFactory.insertData env fuel entity data customConfig w in
  let r2 :=
    bind (SeederFactory.addTimestamps env data None)
      (fun rows =>
         SeederFactory.bulkInsertInBatches env fuel table
           (VArr rows) (batchSize config) options) w in
  issues_batches table None batches w r1
  /\ issues_batches table (Some passed) batches w r2
  /\ (answers_alike env (trace w) (trace w)
        (batch_calls table None batches)
        (batch_calls table (Some passed) batches)
      <-> erase_options <$> trace (fst r1) = erase_options <$> trace (fst r2)
          /\ snd r1 = snd r2).
Proof.
  intros config Hclock HB Hfuel table rows batches passed r1 r2.
  assert (Hrows : length rows = length data) by apply length_fmap.
  set (w1 := {| trace := trace w;
                clock_reads := clock_reads w + 2 * length data |}).
  set (w2 := {| trace := trace w; clock_reads := S (clock_reads w) |}).
  assert (H1 : r1 = SeederFactory.insert_batches env table None batches w1).
  { subst r1. unfold SeederFactory.insertData. rewrite try_rethrow.
    fold config. unfold bind. rewrite stamp_all_spec.
    rewrite (stamps_from_constant env t) by exact Hclock. fold rows.
    unfold SeederFactory.insert_in_batches.
    destruct (Z.eqb_spec (batchSize config) 0) as [H0|_]; [lia|].
    match goal with
    | |- SeederFactory.insert_loop _ _ ?tb ?d _ _ ?w0 = _ =>
        pose proof (insert_loop_chunks env fuel tb d (batchSize config) 0 w0
                      HB) as Hloop
    end.
    change (Z.of_nat 0) with 0%Z in Hloop.
    rewrite Hloop by lia. now rewrite drop_0. }
  assert (H2 : r2 = SeederFactory.insert_batches env table (Some passed)
                      batches w2).
  { assert (H2 : r2 = SeederFactory.bulkInsertInBatches env fuel table
                        (VArr rows) (batchSize config) options w2).
    { subst r2. unfold bind, SeederFactory.addTimestamps, bind,
        SeederFactory.new_Date, ret. now rewrite Hclock. }
    rewrite H2. subst batches. destruct rows as [|x rest] eqn:E;
      [reflexivity|].
    now rewrite bulkInsertInBatches_chunks by (try easy; simpl in *; lia). }
  rewrite H1, H2. split; [|split].
  - apply (insert_batches_issues env table None batches w1).
  - apply (insert_batches_issues env table (Some passed) batches w2).
  - now apply (insert_batches_alike env table None (Some passed) batches w1 w2).
Qed.

(** With a database that honours [ignoreDuplicates] and rejects the second
    batch, and the default options. *)
Lemma insertData_as_static_helpers_witness :
  let env := example_env no_file no_json (fun _ => 1000%Z) unique_key_db in
  let config := SeederConfig.getEntityConfig env "Products" (with_batchSize 2) in
  let r1 :=
    SeederFactory.insertData env 3 "Products" [john; jane; john]
      (with_batchSize 2) start in
  let r2 :=
    bind (SeederFactory.addTimestamps env [john; jane; john] None)
      (fun rows =>
         SeederFactory.bulkInsertInBatches env 3 (tableName config)
           (VArr rows) (batchSize config) ∅) start in
  snd r1 = Thrown (DatabaseOperationError "duplicate key")
  /\ erase_options <$> trace (fst r1) = erase_options <$> trace (fst r2)
  /\ snd r1 = snd r2.
Proof.
  intros env config r1 r2.
  pose proof (insertData_as_static_helpers env 3 "Products" [john; jane; john]
                (with_batchSize 2) ∅ 1000 start ltac:(reflexivity)
                ltac:(simpl; lia) ltac:(simpl; lia)) as (_ & _ & Halike).
  split; [vm_compute; reflexivity|].
  apply Halike. intros k e1 e2 He1 He2 _.
  destruct k as [|[|k]]; simpl in He1, He2.
  - injection He1 as <-. injection He2 as <-. reflexivity.
  - injection He1 as <-. injection He2 as <-. reflexivity.
  - discriminate.
Defined.

(** ** Rollback: how [removeData] can end *)

Section RollbackOutcomes.
Import SeederFactory.
Variable env : Env.

Lemma read_fields_world items field w :
  exists o,
    for_each_push (fun item => lift (get_property item field)) items w = (w, o)
    /\ o <> OutOfFuel.
Proof.
  induction items as [|item items (o & IH & Ho)].
  - now exists (Returned []).
  - simpl. unfold bind at 1. unfold get_property at 1.
    destruct (is_nullish item); simpl; [now exists (Thrown TypeError)|].
    unfold bind. rewrite IH.
    destruct o as [vs|e|]; [eexists | eexists | congruence]; now split.
Qed.

Lemma build_conditions_world items fields conditions w :
  exists o,
    build_conditions items fields conditions w = (w, o) /\ o <> OutOfFuel.
Proof.
  revert conditions. induction fields as [|field rest IH]; intros conditions.
  - now exists (Returned conditions).
  - simpl. unfold bind at 1. unfold field_values, bind.
    destruct (read_fields_world items field w) as (o & -> & Ho).
    destruct o as [vs|e|]; [|now exists (Thrown e)|congruence].
    unfold ret. cbv beta iota.
    destruct (0 <? length (filter (fun val => negb (is_nullish val)) vs))%nat;
      apply IH.
Qed.

(** The targeted step leaves the file read in the trace, and at most its
    one delete; it never throws. *)
Lemma targeted_removal_cases config fields w :
  let read :=
    {| trace := trace w ++ [ReadFile (dataFile config)];
       clock_reads := clock_reads w |} in
  targeted_removal env config fields w = (read, Returned false)
  \/ exists conditions,
       let targeted :=
         BulkDelete (tableName config) (Some (WhereOr conditions)) None in
       let deleted :=
         {| trace := trace read ++ [targeted];
            clock_reads := clock_reads w |} in
       (targeted_removal env config fields w = (deleted, Returned true)
        /\ db_rejects env (trace read) targeted = None)
       \/ (targeted_removal env config fields w = (deleted, Returned false)
           /\ db_rejects env (trace read) targeted <> None).
Proof.
  intros read.
  remember (targeted_removal env config fields w) as r eqn:Hr.
  unfold targeted_removal, try_catch in Hr. unfold bind at 1 in Hr.
  rewrite loadDataFile_loads in Hr. fold read in Hr.
  destruct (loads_as env (dataFile config)) as [data|].
  2:{ left. now destruct (fs_readFile env (dataFile config)). }
  destruct data; try (now left).
  destruct (0 <? length elems)%nat; [|now left].
  unfold bind at 1 in Hr.
  destruct (build_conditions_world elems fields [] read) as (o & Hb & Ho).
  rewrite Hb in Hr.
  destruct o as [conds|e|]; [|now left|congruence].
  destruct (0 <? length conds)%nat; [|now left].
  right. exists conds. unfold bind, bulkDelete, db_call in Hr. simpl in Hr.
  simpl.
  destruct (db_rejects env (trace w ++ [ReadFile (dataFile config)])
              (BulkDelete (tableName config) (Some (WhereOr conds)) None))
    as [detail|]; [right | left]; now split.
Qed.

End RollbackOutcomes.

(** X11. [removeData] ends in one of two ways only: it returns, or it
    throws the rejection of the unconditional delete, which is then the
    last call made.  A missing or malformed data file, a null element and a
    rejected targeted delete are all swallowed.  It makes at most two
    database calls. *)
Theorem removeData_outcome env entity customConfig w :
  let config := SeederConfig.getEntityConfig env entity customConfig in
  let fallback := BulkDelete (tableName config) None (Some ∅) in
  let r := SeederFactory.removeData env entity customConfig w in
  (snd r = Returned tt
   \/ exists detail history,
        snd r = Thrown (DatabaseOperationError detail)
        /\ trace (fst r) = history ++ [fallback]
        /\ db_rejects env history fallback = Some detail)
  /\ length (db_calls (trace (fst r))) <= length (db_calls (trace w)) + 2.
Proof.
  intros config fallback r. subst r fallback.
  unfold SeederFactory.removeData. fold config. rewrite try_rethrow.
  assert (Hfb : forall w0,
    (snd (SeederFactory.bulkDelete env (tableName config) None (Some ∅) w0)
     = Returned tt
     \/ exists detail history,
          snd (SeederFactory.bulkDelete env (tableName config) None
                 (Some ∅) w0) = Thrown (DatabaseOperationError detail)
          /\ trace (fst (SeederFactory.bulkDelete env (tableName config) None
                           (Some ∅) w0))
             = history ++ [BulkDelete (tableName config) None (Some ∅)]
          /\ db_rejects env history
               (BulkDelete (tableName config) None (Some ∅)) = Some detail)
    /\ db_calls (trace (fst (SeederFactory.bulkDelete env (tableName config)
                               None (Some ∅) w0)))
       = db_calls (trace w0) ++ [BulkDelete (tableName config) None (Some ∅)]).
  { intros w0. unfold SeederFactory.bulkDelete, SeederFactory.db_call.
    destruct (db_rejects env (trace w0)
                (BulkDelete (tableName config) None (Some ∅))) as [detail|] eqn:E;
      simpl; rewrite db_calls_app; (split; [|reflexivity]).
    - right. now exists detail, (trace w0).
    - now left. }
  unfold bind.
  destruct (uniqueFields config) as [fields|].
  2:{ unfold ret. cbv beta iota. destruct (Hfb w) as [Ho Hc].
      split; [exact Ho|]. rewrite Hc, length_app. simpl. lia. }
  destruct (0 <? length fields)%nat.
  2:{ unfold ret. cbv beta iota. destruct (Hfb w) as [Ho Hc].
      split; [exact Ho|]. rewrite Hc, length_app. simpl. lia. }
  destruct (targeted_removal_cases env config fields w)
    as [-> | (conds & [[-> _] | [-> _]])]; cbv beta iota.
  - match goal with |- context [SeederFactory.bulkDelete _ _ _ _ ?w0] =>
      destruct (Hfb w0) as [Ho Hc] end.
    split; [exact Ho|]. rewrite Hc, length_app. simpl.
    rewrite db_calls_app, length_app. simpl. lia.
  - split; [now left|]. unfold ret. simpl.
    rewrite !db_calls_app, !length_app. simpl. lia.
  - match goal with |- context [SeederFactory.bulkDelete _ _ _ _ ?w0] =>
      destruct (Hfb w0) as [Ho Hc] end.
    split; [exact Ho|]. rewrite Hc, length_app. simpl.
    rewrite !db_calls_app, !length_app. simpl. lia.
Qed.

(** X12. When [removeData] has a targeted delete to issue and the
    database rejects it, the rejection is caught with the file errors: the
    unconditional delete of the whole table follows, and [removeData] ends
    as that second call ends. *)
Theorem removeData_rejected_targeted env entity customConfig w
  (fields : list string) (items : list value) (detail : string) :
  let config := SeederConfig.getEntityConfig env entity customConfig in
  let read :=
    {| trace := trace w ++ [ReadFile (dataFile config)];
       clock_reads := clock_reads w |} in
  let targeted :=
    BulkDelete (tableName config)
      (Some (WhereOr (targeting_conditions items fields))) None in
  uniqueFields config = Some fields ->
  loads_as env (dataFile config) = Some (VArr items) ->
  Forall not_nullish items ->
  targeting_conditions items fields <> [] ->
  db_rejects env (trace read) targeted = Some detail ->
  SeederFactory.removeData env entity customConfig w
  = SeederFactory.db_call env
      (BulkDelete (tableName config) None (Some ∅))
      {| trace := trace read ++ [targeted]; clock_reads := clock_reads w |}.
Proof.
  intros config read targeted Hu Hload Hnn Hne Hdb.
  unfold SeederFactory.removeData. fold config. rewrite try_rethrow.
  unfold bind at 1. rewrite Hu.
  destruct fields as [|f0 fields']; [now destruct Hne|].
  cbn [length Nat.ltb Nat.leb].
  unfold SeederFactory.targeted_removal, try_catch. unfold bind at 1.
  rewrite loadDataFile_loads, Hload.
  destruct items as [|i0 items'].
  { exfalso. apply Hne. unfold targeting_conditions.
    clear. induction (f0 :: fields') as [|f l IH]; [reflexivity|].
    simpl. exact IH. }
  cbn [length Nat.ltb Nat.leb]. unfold bind at 1.
  rewrite build_conditions_ok by exact Hnn. rewrite app_nil_l.
  destruct (targeting_conditions (i0 :: items') (f0 :: fields'))
    as [|c cs] eqn:E; [congruence|].
  cbn [length Nat.ltb Nat.leb]. unfold bind at 1.
  unfold SeederFactory.bulkDelete at 1. unfold SeederFactory.db_call at 1.
  subst targeted read. cbn [trace] in Hdb. cbn [trace]. rewrite Hdb.
  reflexivity.
Qed.

Lemma removeData_rejected_targeted_witness :
  let rejecting : list event -> event -> option string :=
    fun _ e =>
      match e with BulkDelete _ (Some _) _ => Some "locked" | _ => None end in
  let env :=
    example_env (one_file "data/products.json" "rows")
      (parses "rows" (VArr [VObj (<["name" := VStr "a"]> ∅)]))
      ticking_clock rejecting in
  SeederFactory.removeData env "Products" no_overrides start
  = SeederFactory.db_call env (BulkDelete "Products" None (Some ∅))
      {| trace :=
           [ReadFile "data/products.json";
            BulkDelete "Products" (Some (WhereOr [("name", [VStr "a"])])) None];
         clock_reads := 0 |}.
Proof.
  intros rejecting env.
  rewrite (removeData_rejected_targeted env "Products" no_overrides start
             ["name"] [VObj (<["name" := VStr "a"]> ∅)] "locked").
  - reflexivity.
  - reflexivity.
  - reflexivity.
  - repeat constructor.
  - discriminate.
  - reflexivity.
Defined.

(** ** The seeder template *)

(** X13. The [up] of a seeder makes no database call when there is
    nothing to seed: when [processData] fails, [up] fails with the same
    error, and when the data file holds an empty array, [up] returns; in
    both cases the data file was read and nothing else happened. *)
Theorem up_nothing_to_seed env entity customConfig fuel w :
  let read :=
    {| trace :=
         trace w ++
         [ReadFile (dataFile (SeederConfig.getEntityConfig env entity
                                customConfig))];
       clock_reads := clock_reads w |} in
  (forall e,
      snd (SeederFactory.processData env entity customConfig true w)
      = Thrown e ->
      SeederTemplate.up env entity customConfig fuel w = (read, Thrown e))
  /\ (snd (SeederFactory.processData env entity customConfig true w)
      = Returned [] ->
      SeederTemplate.up env entity customConfig fuel w = (read, Returned tt)).
Proof.
  intros read. unfold SeederTemplate.up. rewrite try_rethrow. unfold bind.
  pose proof (processData_trace env entity customConfig true w) as Ht.
  simpl in Ht. fold read in Ht.
  destruct (SeederFactory.processData env entity customConfig true w)
    as [w1 [records|e0|]]; simpl in Ht; subst w1; simpl.
  - split; [discriminate|]. now intros [= ->].
  - split; [now intros e [= ->] | discriminate].
  - split; [discriminate | discriminate].
Qed.

Lemma up_nothing_to_seed_witness :
  SeederTemplate.up
    (example_env no_file no_json ticking_clock accepting_db)
    "Products" no_overrides 5 start
  = ({| trace := [ReadFile "data/products.json"]; clock_reads := 0 |},
     Thrown (DataFileNotFoundError "data/products.json"))
  /\ SeederTemplate.up
       (example_env (one_file "data/products.json" "[]")
          (parses "[]" (VArr [])) ticking_clock accepting_db)
       "Products" no_overrides 5 start
     = ({| trace := [ReadFile "data/products.json"]; clock_reads := 0 |},
        Returned tt).
Proof.
  split.
  - apply (proj1 (up_nothing_to_seed
                    (example_env no_file no_json ticking_clock accepting_db)
                    "Products" no_overrides 5 start)).
    reflexivity.
  - apply (proj2 (up_nothing_to_seed
                    (example_env (one_file "data/products.json" "[]")
                       (parses "[]" (VArr [])) ticking_clock accepting_db)
                    "Products" no_overrides 5 start)).
    reflexivity.
Defined.

(** X14. When the data file holds a non-empty array of objects none of
    which stops the field filter (see X6), the batch size is at least 1 and
    the database accepts the calls, the [up] of a seeder returns after
    inserting one row per element of the file, in order: the processed
    record (normalized, and cut down to the valid fields) with its two
    timestamps. *)
Theorem up_seeds_every_record env entity customConfig fuel
  (items : list value) w :
  let config := SeederConfig.getEntityConfig env entity customConfig in
  loads_as env (dataFile config) = Some (VArr items) ->
  items <> [] ->
  Forall (fun item => is_object item = true) items ->
  filter_asks config true && existsb shadows_hasOwnProperty items = false ->
  (1 <= batchSize config)%Z -> db_accepts_all env ->
  length items <= fuel ->
  exists batches,
    SeederTemplate.up env entity customConfig fuel w
    = ({| trace :=
            (trace w ++ [ReadFile (dataFile config)]) ++
            ((fun b => BulkInsert (tableName config) b None) <$> batches);
          clock_reads := clock_reads w + 2 * length items |},
       Returned tt)
    /\ Forall2 stamped_row (processed_record config true <$> items)
         (concat batches).
Proof.
  intros config Hload Hne Hobj Hpass HB Hdb Hfuel.
  destruct (insertData_rows env fuel entity
              (processed_record config true <$> items) customConfig
              {| trace := trace w ++ [ReadFile (dataFile config)];
                 clock_reads := clock_reads w |} HB Hdb)
    as (batches & Hins & Hrows).
  { now rewrite length_fmap. }
  exists batches. split; [|exact Hrows].
  unfold SeederTemplate.up. rewrite try_rethrow. unfold bind.
  rewrite (processData_records env entity customConfig true items w Hload Hobj).
  fold config. rewrite Hpass, length_fmap.
  destruct items as [|item items']; [congruence|].
  cbn [length Nat.eqb]. rewrite Hins. simpl. now rewrite length_fmap.
Qed.

Lemma up_seeds_every_record_witness :
  let env :=
    example_env (one_file "data/products.json" "rows")
      (parses "rows" (VArr [VObj john_aged; VObj jane])) ticking_clock
      accepting_db in
  let customConfig := with_validFields ["userName"] in
  let config := SeederConfig.getEntityConfig env "Products" customConfig in
  exists batches,
    SeederTemplate.up env "Products" customConfig 2 start
    = ({| trace :=
            (trace start ++ [ReadFile (dataFile config)]) ++
            ((fun b => BulkInsert (tableName config) b None) <$> batches);
          clock_reads :=
            clock_reads start + 2 * length [VObj john_aged; VObj jane] |},
       Returned tt)
    /\ Forall2 stamped_row
         (processed_record config true <$> [VObj john_aged; VObj jane])
         (concat batches).
Proof.
  intros env customConfig config.
  apply (up_seeds_every_record env "Products" customConfig 2
           [VObj john_aged; VObj jane] start).
  - reflexivity.
  - discriminate.
  - repeat constructor.
  - reflexivity.
  - simpl. lia.
  - intros history e. reflexivity.
  - simpl. lia.
Defined.

(** ** Validation *)

Section SameValue.

Lemma SFeqb_true_iff a b :
  SpecFloat.SFeqb a b = true <->
  match a, b with
  | SpecFloat.S754_zero _, SpecFloat.S754_zero _ => True
  | SpecFloat.S754_infinity s1, SpecFloat.S754_infinity s2 => s1 = s2
  | SpecFloat.S754_finite s1 m1 e1, SpecFloat.S754_finite s2 m2 e2 =>
      s1 = s2 /\ m1 = m2 /\ e1 = e2
  | _, _ => False
  end.
Proof.
  unfold SpecFloat.SFeqb, SpecFloat.SFcompare.
  destruct a as [s1|s1| |s1 m1 e1], b as [s2|s2| |s2 m2 e2];
    try (destruct s1); try (destruct s2); try easy.
  - change (Pos.compare_cont Eq m1 m2) with (Pos.compare m1 m2).
    destruct (Z.compare_spec e1 e2), (Pos.compare_spec m1 m2); simpl;
      intuition (subst; try lia; try easy).
  - change (Pos.compare_cont Eq m1 m2) with (Pos.compare m1 m2).
    destruct (Z.compare_spec e1 e2), (Pos.compare_spec m1 m2); simpl;
      intuition (subst; try lia; try easy).
Qed.

Lemma float_eqb_sym x y : PrimFloat.eqb x y = PrimFloat.eqb y x.
Proof.
  rewrite !FloatAxioms.eqb_spec. apply eq_true_iff_eq.
  rewrite !SFeqb_true_iff.
  destruct (FloatOps.Prim2SF x), (FloatOps.Prim2SF y); intuition congruence.
Qed.

Lemma float_eqb_trans x y z :
  PrimFloat.eqb x y = true -> PrimFloat.eqb y z = true ->
  PrimFloat.eqb x z = true.
Proof.
  rewrite !FloatAxioms.eqb_spec, !SFeqb_true_iff.
  destruct (FloatOps.Prim2SF x), (FloatOps.Prim2SF y), (FloatOps.Prim2SF z);
    intuition congruence.
Qed.

Lemma float_eqb_refl_l x y : PrimFloat.eqb x y = true -> PrimFloat.eqb x x = true.
Proof.
  intros H. apply (float_eqb_trans x y x); [exact H|]. now rewrite float_eqb_sym.
Qed.

Lemma SameValueZero_sym a b : SameValueZero a b = SameValueZero b a.
Proof.
  destruct a, b; simpl; try reflexivity.
  - now destruct b, b0.
  - rewrite (float_eqb_sym x x0). f_equal. apply andb_comm.
  - apply String.eqb_sym.
  - apply Z.eqb_sym.
Qed.

Lemma SameValueZero_trans a b c :
  SameValueZero a b = true -> SameValueZero b c = true ->
  SameValueZero a c = true.
Proof.
  destruct a, b; simpl; try discriminate; destruct c; simpl;
    try discriminate; try easy.
  - destruct b, b0, b1; easy.
  - intros H1 H2. apply orb_true_iff in H1, H2. apply orb_true_iff.
    destruct H1 as [H1|H1], H2 as [H2|H2].
    + left. eapply float_eqb_trans; eassumption.
    + apply andb_true_iff in H2 as [H2 _].
      rewrite float_eqb_sym in H1. apply float_eqb_refl_l in H1.
      now rewrite H1 in H2.
    + apply andb_true_iff in H1 as [_ H1].
      apply float_eqb_refl_l in H2. now rewrite H2 in H1.
    + right. apply andb_true_iff in H1 as [H1 _].
      apply andb_true_iff in H2 as [_ H2]. now rewrite H1, H2.
  - intros H1%String.eqb_eq H2%String.eqb_eq. apply String.eqb_eq. congruence.
  - intros H1%Z.eqb_eq H2%Z.eqb_eq. apply Z.eqb_eq. congruence.
Qed.

End SameValue.

Section RequiredFields.
Import SeederValidation.

Lemma lacksb_lacks item field : lacksb item field = true <-> lacks item field.
Proof.
  unfold lacksb, lacks. destruct (own_enumerable item !! field) as [v|].
  - split; [now intros H v' [= <-] | intros H; now apply H].
  - split; [intros _ v' H; discriminate | reflexivity].
Qed.

Lemma record_answers_true item :
  record_answers item = true ->
  is_nullish item = false /\ answers_hasOwnProperty (as_object item) = true.
Proof.
  unfold record_answers. intros H. apply andb_true_iff in H as [H1 H2].
  now apply negb_true_iff in H1.
Qed.

Lemma field_missing_ok item field :
  record_answers item = true ->
  field_missing item field = inr (lacksb item field).
Proof.
  intros H. apply record_answers_true in H as [Hn Ha].
  unfold field_missing, get_property, lacksb. rewrite Hn.
  rewrite hasOwnProperty_answers, Ha, bool_decide_is_Some. simpl.
  now destruct (own_enumerable item !! field).
Qed.

Lemma field_missing_throws item field :
  record_answers item = false -> field_missing item field = inl TypeError.
Proof.
  unfold record_answers, field_missing. intros H.
  destruct (is_nullish item); [reflexivity|]. simpl in H.
  now rewrite hasOwnProperty_answers, H.
Qed.

Lemma check_fields_ok item index fields errs :
  record_answers item = true ->
  check_fields item index fields errs
  = inr (errs ++ missing_in item index fields).
Proof.
  intros Hitem. revert errs.
  induction fields as [|field rest IH]; intros errs; simpl.
  - now rewrite app_nil_r.
  - rewrite field_missing_ok by exact Hitem.
    destruct (lacksb item field); rewrite IH; [|reflexivity].
    now rewrite <- app_assoc.
Qed.

Lemma check_items_ok items index fields errs :
  Forall (fun item => record_answers item = true) items ->
  check_items items index fields errs
  = inr (errs ++ missing_from index items fields).
Proof.
  intros Hitems. revert index errs.
  induction Hitems as [|item items Hitem _ IH]; intros index errs; simpl.
  - now rewrite app_nil_r.
  - rewrite check_fields_ok by exact Hitem. rewrite IH.
    now rewrite <- app_assoc.
Qed.

Lemma check_items_throws good bad rest index field fields errs :
  Forall (fun item => record_answers item = true) good ->
  record_answers bad = false ->
  check_items (good ++ bad :: rest) index (field :: fields) errs
  = inl TypeError.
Proof.
  intros Hgood Hbad. revert index errs.
  induction Hgood as [|item items Hitem _ IH]; intros index errs.
  - simpl. now rewrite field_missing_throws.
  - cbn [app check_items]. rewrite check_fields_ok by exact Hitem. apply IH.
Qed.

Lemma missing_in_fields item index fields :
  missing_in item index fields = missing_fields index item fields.
Proof.
  unfold missing_fields. induction fields as [|f rest IH]; [reflexivity|].
  cbn [missing_in omap list_omap]. rewrite IH.
  now destruct (lacksb item f).
Qed.

(** The errors, record by record. *)
Lemma missing_from_records index items fields :
  missing_from index items fields
  = concat (imap (fun i item => missing_fields (index + i) item fields) items).
Proof.
  revert index. induction items as [|item rest IH]; intros index;
    [reflexivity|].
  cbn [missing_from imap concat]. rewrite IH, missing_in_fields.
  rewrite Nat.add_0_r. do 2 f_equal. apply imap_ext. intros i x _. simpl.
  f_equal. lia.
Qed.

Lemma missing_in_elem item index fields m :
  m ∈ missing_in item index fields <->
  exists field, m = MissingRequiredField index field
                /\ field ∈ fields /\ lacks item field.
Proof.
  induction fields as [|f rest IH]; simpl.
  - split; [intros H; now apply elem_of_nil in H|].
    intros (field & _ & H & _). now apply elem_of_nil in H.
  - destruct (lacksb item f) eqn:E.
    + rewrite elem_of_cons, IH. split.
      * intros [-> | (field & -> & Hin & Hl)].
        -- exists f. repeat split; [left | now apply lacksb_lacks].
        -- exists field. repeat split; [now right | exact Hl].
      * intros (field & -> & Hin & Hl).
        apply elem_of_cons in Hin as [-> | Hin]; [now left|].
        right. now exists field.
    + rewrite IH. split.
      * intros (field & -> & Hin & Hl). exists field.
        repeat split; [now right | exact Hl].
      * intros (field & -> & Hin & Hl).
        apply elem_of_cons in Hin as [-> | Hin].
        -- apply lacksb_lacks in Hl. congruence.
        -- now exists field.
Qed.

Lemma missing_from_elem index items fields m :
  m ∈ missing_from index items fields <->
  exists i item field,
    m = MissingRequiredField (index + i) field
    /\ items !! i = Some item /\ field ∈ fields /\ lacks item field.
Proof.
  revert index. induction items as [|item rest IH]; intros index; simpl.
  - split; [intros H; now apply elem_of_nil in H|].
    intros (i & item & field & _ & H & _). discriminate.
  - rewrite elem_of_app, missing_in_elem, IH. split.
    + intros [(field & -> & Hin & Hl) | (i & it & field & -> & Hi & Hin & Hl)].
      * exists 0, item, field. rewrite Nat.add_0_r. now repeat split.
      * exists (S i), it, field. rewrite Nat.add_succ_r. now repeat split.
    + intros (i & it & field & -> & Hi & Hin & Hl). destruct i as [|i].
      * injection Hi as <-. left. exists field. rewrite Nat.add_0_r.
        now repeat split.
      * right. exists i, it, field. rewrite Nat.add_succ_r. now repeat split.
Qed.

End RequiredFields.

Lemma validateRequiredFields_ok (items : list value) (fields : list string) :
  Forall (fun item => record_answers item = true) items ->
  let errs :=
    concat (imap (fun index item => missing_fields index item fields) items) in
  SeederValidation.validateRequiredFields (VArr items)
    (SeederValidation.FieldList fields)
  = inr {| isValid := bool_decide (errs = []);
           errors := Some errs;
           warnings := None |}
  /\ (errs = [] <->
      forall item field,
        item ∈ items -> field ∈ fields ->
        exists v, own_enumerable item !! field = Some v
                  /\ is_nullish v = false).
Proof.
  intros Hitems errs.
  assert (Herrs : errs = missing_from 0 items fields).
  { subst errs. now rewrite missing_from_records. }
  clearbody errs. subst errs.
  assert (Helem : forall m,
    m ∈ missing_from 0 items fields <->
    exists index item field,
      m = MissingRequiredField index field
      /\ items !! index = Some item /\ field ∈ fields /\ lacks item field).
  { intros m. apply missing_from_elem. }
  split.
  + unfold SeederValidation.validateRequiredFields.
    rewrite check_items_ok by exact Hitems. simpl. do 2 f_equal.
    now destruct (missing_from 0 items fields).
  + split.
    * intros Hnil item field Hitem Hfield.
      destruct (own_enumerable item !! field) as [v|] eqn:E.
      -- exists v. split; [reflexivity|].
         destruct (is_nullish v) eqn:Hv; [|reflexivity]. exfalso.
         apply list_elem_of_lookup in Hitem as [i Hi].
         assert (MissingRequiredField i field ∈ missing_from 0 items fields)
           as Hin.
         { apply Helem. exists i, item, field. repeat split; try assumption.
           intros v' Hv'. congruence. }
         rewrite Hnil in Hin. now apply elem_of_nil in Hin.
      -- exfalso. apply list_elem_of_lookup in Hitem as [i Hi].
         assert (MissingRequiredField i field ∈ missing_from 0 items fields)
           as Hin.
         { apply Helem. exists i, item, field. repeat split; try assumption.
           intros v' Hv'. congruence. }
         rewrite Hnil in Hin. now apply elem_of_nil in Hin.
    * intros Hall. destruct (missing_from 0 items fields) as [|m ms] eqn:E;
        [reflexivity|]. exfalso.
      assert (Hin : m ∈ m :: ms) by left.
      apply Helem in Hin as (i & item & field & _ & Hi & Hf & Hl).
      destruct (Hall item field) as (v & Hv & Hnn);
        [apply list_elem_of_lookup; now exists i | exact Hf |].
      apply Hl in Hv. congruence.
Qed.

(** X15. On an array of records that can be asked for their fields (none
    is null or undefined, none has a field named [hasOwnProperty]),
    [validateRequiredFields] reports, record by record and in the order of
    the list of required fields, exactly one error for each entry of the
    list that the record lacks, naming the index of the record and the
    field; a field listed twice and lacking is reported twice.  A field
    counts as lacking when the record does not own it or holds null or
    undefined in it.  The result is valid exactly when every record has
    every required field.  A record that is null or undefined, or that has
    a field named [hasOwnProperty], makes the function throw a [TypeError]
    when there is at least one required field. *)
Theorem validateRequiredFields_reports_missing (items : list value)
  (fields : list string) :
  (Forall (fun item => record_answers item = true) items ->
   let errs :=
     concat (imap (fun index item => missing_fields index item fields) items) in
   SeederValidation.validateRequiredFields (VArr items)
     (SeederValidation.FieldList fields)
   = inr {| isValid := bool_decide (errs = []);
            errors := Some errs;
            warnings := None |}
   /\ (errs = [] <->
       forall item field,
         item ∈ items -> field ∈ fields ->
         exists v, own_enumerable item !! field = Some v
                   /\ is_nullish v = false))
  /\ (forall good bad rest,
        items = good ++ bad :: rest ->
        Forall (fun item => record_answers item = true) good ->
        record_answers bad = false -> fields <> [] ->
        SeederValidation.validateRequiredFields (VArr items)
          (SeederValidation.FieldList fields)
        = inl TypeError).
Proof.
  split.
  - apply validateRequiredFields_ok.
  - intros good bad rest -> Hgood Hbad Hfields.
    destruct fields as [|field fields']; [congruence|].
    unfold SeederValidation.validateRequiredFields.
    now rewrite check_items_throws.
Qed.

Lemma validateRequiredFields_reports_missing_witness :
  SeederValidation.validateRequiredFields
    (VArr [VObj john; VObj (<["email" := VNull]> john)])
    (SeederValidation.FieldList ["email"; "userName"; "email"])
  = inr {| isValid := false;
           errors :=
             Some [MissingRequiredField 0 "email";
                   MissingRequiredField 0 "email";
                   MissingRequiredField 1 "email";
                   MissingRequiredField 1 "email"];
           warnings := None |}
  /\ SeederValidation.validateRequiredFields (VArr [VObj john; VNull])
       (SeederValidation.FieldList ["userName"])
     = inl TypeError
  /\ SeederValidation.validateRequiredFields
       (VArr [VObj john; VObj masked_john])
       (SeederValidation.FieldList ["userName"])
     = inl TypeError.
Proof.
  split; [|split].
  - rewrite (proj1 (proj1 (validateRequiredFields_reports_missing
                             [VObj john; VObj (<["email" := VNull]> john)]
                             ["email"; "userName"; "email"])
                      ltac:(repeat constructor))).
    vm_compute. reflexivity.
  - apply (proj2 (validateRequiredFields_reports_missing
                    [VObj john; VNull] ["userName"]) [VObj john] VNull []).
    + reflexivity.
    + repeat constructor.
    + reflexivity.
    + discriminate.
  - apply (proj2 (validateRequiredFields_reports_missing
                    [VObj john; VObj masked_john] ["userName"])
             [VObj john] (VObj masked_john) []).
    + reflexivity.
    + repeat constructor.
    + reflexivity.
    + discriminate.
Defined.

(** X16. After normalization a required field is missing exactly when the
    raw record did not have it or had null, undefined or a blank string in
    it, or when the field is named [__proto__], which the normalizer never
    stores.  Take the records the normalizer returns for an array of items,
    where they are plain objects (the prototype is untouched) without a
    field named [hasOwnProperty]: on them [validateRequiredFields] is valid
    exactly when every item holds, in every required field, a value the
    normalizer keeps, and no required field is named [__proto__]. *)
Theorem validateRequiredFields_after_normalization (items : list value)
  (rows : list record) (fields : list string) :
  Forall2
    (fun item row =>
       DataProcessor.processGeneric_result item 0
       = inr {| own := row; proto := None |})
    items rows ->
  Forall (fun row : record => row !! "hasOwnProperty" = None) rows ->
  exists result,
    SeederValidation.validateRequiredFields (VArr (VObj <$> rows))
      (SeederValidation.FieldList fields)
    = inr result
    /\ (isValid result = true <->
        forall item field,
          item ∈ items -> field ∈ fields ->
          field <> "__proto__"
          /\ exists v, own_enumerable item !! field = Some v
                       /\ spec_normalize_field v <> None).
Proof.
  intros Hrows Hplain.
  assert (Hnorm : Forall2 (fun item row => row = normalized item) items rows).
  { eapply Forall2_impl; [exact Hrows|]. intros item row Hrow. simpl in Hrow.
    destruct (is_object item) eqn:Hobj.
    - rewrite processGeneric_result_object in Hrow by exact Hobj.
      now injection Hrow as <- _.
    - rewrite processGeneric_rejects in Hrow by exact Hobj. discriminate. }
  destruct (validateRequiredFields_ok (VObj <$> rows) fields) as [Heq Hnil].
  { apply Forall_fmap. eapply Forall_impl; [exact Hplain|].
    intros row Hrow. unfold record_answers, answers_hasOwnProperty. simpl.
    now rewrite Hrow. }
  eexists. split; [exact Heq|]. simpl. rewrite bool_decide_eq_true, Hnil.
  split.
  - intros Hall item field Hitem Hfield.
    apply list_elem_of_lookup in Hitem as [i Hi].
    destruct (Forall2_lookup_l _ _ _ _ _ Hnorm Hi) as (row & Hrow & ->).
    destruct (Hall (VObj (normalized item)) field) as (v' & Hv' & Hnn).
    { apply list_elem_of_fmap. exists (normalized item). split; [reflexivity|].
      apply list_elem_of_lookup. now exists i. }
    { exact Hfield. }
    simpl in Hv'. rewrite normalized_lookup in Hv'.
    destruct (decide (field = "__proto__")); [discriminate|].
    split; [assumption|].
    destruct (own_enumerable item !! field) as [v|]; [|discriminate].
    exists v. split; [reflexivity|]. simpl in Hv'. congruence.
  - intros Hall rowv field Hrow Hfield.
    apply list_elem_of_fmap in Hrow as (row & -> & Hrow).
    apply list_elem_of_lookup in Hrow as [i Hi].
    destruct (Forall2_lookup_r _ _ _ _ _ Hnorm Hi) as (item & Hitem & ->).
    destruct (Hall item field) as (Hne & v & Hv & Hkeep).
    { apply list_elem_of_lookup. now exists i. }
    { exact Hfield. }
    destruct (spec_normalize_field v) as [v'|] eqn:E; [|congruence].
    exists v'. split.
    + simpl. rewrite normalized_lookup, Hv.
      now destruct (decide (field = "__proto__")).
    + apply spec_normalize_field_clean in E as (Hn & Hu & _).
      now destruct v'.
Qed.

Section Uniqueness.
Import SeederValidation.

Lemma get_property_value item field :
  not_nullish item -> get_property item field = inr (field_value field item).
Proof. intros H. unfold get_property. now rewrite H. Qed.

Lemma Map_get_app valueMap v index u :
  Map_get (valueMap ++ [(v, index)]) u = None <->
  Map_get valueMap u = None /\ SameValueZero v u = false.
Proof.
  induction valueMap as [|[k i] rest IH]; simpl.
  - destruct (SameValueZero v u); split; easy.
  - destruct (SameValueZero k u); [|exact IH]. split; easy.
Qed.

Lemma scan_field_clash_free entityName fieldName items index valueMap errs :
  Forall not_nullish items ->
  exists new,
    scan_field entityName fieldName items index valueMap errs
    = inr (errs ++ new)
    /\ (new = [] <-> clash_free valueMap (field_value fieldName <$> items)).
Proof.
  intros Hitems. revert index valueMap errs.
  induction Hitems as [|item items Hitem _ IH]; intros index valueMap errs.
  - exists []. simpl. rewrite app_nil_r. split; [reflexivity|].
    split; [|reflexivity]. intros _ j v Hj. discriminate.
  - simpl. rewrite get_property_value by exact Hitem.
    set (v0 := field_value fieldName item).
    destruct (has_value v0) eqn:Hv0.
    + destruct (Map_get valueMap v0) as [first|] eqn:Hget.
      * destruct (IH (S index) valueMap
                    (errs ++ [DuplicateValue entityName v0 fieldName first index]))
          as (new & -> & _).
        exists (DuplicateValue entityName v0 fieldName first index :: new).
        rewrite <- app_assoc. split; [reflexivity|].
        split; [discriminate|]. intros Hfree.
        destruct (Hfree 0 v0 eq_refl Hv0) as [Hnone _]. congruence.
      * destruct (IH (S index) (valueMap ++ [(v0, index)]) errs)
          as (new & -> & Hiff).
        exists new. split; [reflexivity|]. rewrite Hiff. split.
        -- intros Hfree [|j] v Hj Hv; simpl in Hj.
           ++ injection Hj as <-. split; [exact Hget|]. intros i u Hi. lia.
           ++ destruct (Hfree j v Hj Hv) as [Hmap Hprev].
              apply Map_get_app in Hmap as [Hmap Hv0v].
              split; [exact Hmap|]. intros [|i] u Hi Hu Hhas; simpl in Hu.
              ** injection Hu as <-. exact Hv0v.
              ** apply (Hprev i u); [lia | exact Hu | exact Hhas].
        -- intros Hfree j v Hj Hv.
           destruct (Hfree (S j) v Hj Hv) as [Hmap Hprev]. split.
           ++ apply Map_get_app. split; [exact Hmap|].
              apply (Hprev 0 v0); [lia | reflexivity | exact Hv0].
           ++ intros i u Hi Hu Hhas.
              apply (Hprev (S i) u); [lia | exact Hu | exact Hhas].
    + destruct (IH (S index) valueMap errs) as (new & -> & Hiff).
      exists new. split; [reflexivity|]. rewrite Hiff. split.
      * intros Hfree [|j] v Hj Hv; simpl in Hj.
        -- injection Hj as <-. congruence.
        -- destruct (Hfree j v Hj Hv) as [Hmap Hprev].
           split; [exact Hmap|]. intros [|i] u Hi Hu Hhas; simpl in Hu.
           ++ injection Hu as <-. congruence.
           ++ apply (Hprev i u); [lia | exact Hu | exact Hhas].
      * intros Hfree j v Hj Hv.
        destruct (Hfree (S j) v Hj Hv) as [Hmap Hprev].
        split; [exact Hmap|]. intros i u Hi Hu Hhas.
        apply (Hprev (S i) u); [lia | exact Hu | exact Hhas].
Qed.

Lemma clash_free_no_duplicates field items :
  clash_free [] (field_value field <$> items) <-> no_duplicates field items.
Proof.
  unfold clash_free, no_duplicates. split.
  - intros H i j u v Hij Hi Hj Hu Hv.
    destruct (H j v Hj Hv) as [_ Hprev]. now apply (Hprev i u).
  - intros H j v Hj Hv. split; [reflexivity|].
    intros i u Hij Hi Hu. now apply (H i j u v).
Qed.

Lemma scan_fields_no_duplicates entityName items fields errs :
  Forall not_nullish items ->
  exists new,
    scan_fields entityName items fields errs = inr (errs ++ new)
    /\ (new = [] <-> forall field, field ∈ fields -> no_duplicates field items).
Proof.
  intros Hitems. revert errs.
  induction fields as [|field rest IH]; intros errs.
  - exists []. simpl. rewrite app_nil_r. split; [reflexivity|].
    split; [|reflexivity]. intros _ f Hf. now apply elem_of_nil in Hf.
  - simpl.
    destruct (scan_field_clash_free entityName field items 0 [] errs Hitems)
      as (new1 & -> & H1).
    destruct (IH (errs ++ new1)) as (new2 & -> & H2).
    exists (new1 ++ new2). rewrite <- app_assoc. split; [reflexivity|].
    rewrite clash_free_no_duplicates in H1. split.
    + intros Hnil. apply app_eq_nil in Hnil as [Hn1 Hn2].
      intros f Hf. apply elem_of_cons in Hf as [-> | Hf].
      * now apply H1.
      * now apply H2.
    + intros Hall. apply app_nil. split.
      * apply H1, Hall. left.
      * apply H2. intros f Hf. apply Hall. now right.
Qed.

(** Every error the scan adds cites two records that hold the same value. *)
Lemma scan_field_sound entityName fieldName done todo valueMap errs result :
  Forall not_nullish todo ->
  (forall key i,
      (key, i) ∈ valueMap ->
      i < length done /\ (field_value fieldName <$> done) !! i = Some key) ->
  scan_field entityName fieldName todo (length done) valueMap errs
  = inr result ->
  forall m,
    m ∈ result ->
    m ∈ errs
    \/ exists v firstIndex index u,
         m = DuplicateValue entityName v fieldName firstIndex index
         /\ firstIndex < index
         /\ (field_value fieldName <$> done ++ todo) !! firstIndex = Some u
         /\ (field_value fieldName <$> done ++ todo) !! index = Some v
         /\ SameValueZero u v = true.
Proof.
  intros Htodo. revert done valueMap errs.
  induction Htodo as [|item todo Hitem _ IH]; intros done valueMap errs Hmap.
  - simpl. intros [= <-] m Hm. now left.
  - simpl. rewrite get_property_value by exact Hitem.
    set (v0 := field_value fieldName item).
    assert (Hdone : done ++ item :: todo = (done ++ [item]) ++ todo)
      by now rewrite <- app_assoc.
    assert (Hlen : S (length done) = length (done ++ [item]))
      by (rewrite length_app; simpl; lia).
    assert (Hmap' : forall key i,
      (key, i) ∈ valueMap ->
      i < length (done ++ [item])
      /\ (field_value fieldName <$> done ++ [item]) !! i = Some key).
    { intros key i Hin. destruct (Hmap key i Hin) as [Hlt Hi].
      split; [lia|]. rewrite fmap_app, lookup_app_l; [exact Hi|].
      now rewrite length_fmap. }
    destruct (has_value v0) eqn:Hv0.
    + destruct (Map_get valueMap v0) as [first|] eqn:Hget.
      * rewrite Hlen. intros Hres m Hm.
        destruct (IH (done ++ [item]) valueMap _ Hmap' Hres m Hm)
          as [Hin | Hdup].
        -- apply elem_of_app in Hin as [Hin | Hin]; [now left|].
           apply list_elem_of_singleton in Hin. subst m. right.
           assert (Hkey : exists key, (key, first) ∈ valueMap
                                      /\ SameValueZero key v0 = true).
           { clear -Hget. induction valueMap as [|[k i] rest IHm];
               [discriminate|]. simpl in Hget.
             destruct (SameValueZero k v0) eqn:E.
             - injection Hget as <-. exists k. split; [left | exact E].
             - destruct (IHm Hget) as (key & Hin & Hs).
               exists key. split; [now right | exact Hs]. }
           destruct Hkey as (key & Hin & Hs).
           destruct (Hmap key first Hin) as [Hlt Hfirst].
           exists v0, first, (length done), key. repeat split.
           ++ exact Hlt.
           ++ rewrite fmap_app, lookup_app_l; [exact Hfirst|].
              now rewrite length_fmap.
           ++ rewrite fmap_app, lookup_app_r; rewrite length_fmap; [|lia].
              now rewrite Nat.sub_diag.
           ++ exact Hs.
        -- right. now rewrite Hdone.
      * rewrite Hlen. intros Hres m Hm.
        destruct (IH (done ++ [item]) (valueMap ++ [(v0, length done)]) errs)
          with (m := m) as [Hin | Hdup]; try assumption.
        -- intros key i Hin. apply elem_of_app in Hin as [Hin | Hin].
           ++ now apply Hmap'.
           ++ apply list_elem_of_singleton in Hin. injection Hin as -> ->.
              split; [lia|].
              rewrite fmap_app, lookup_app_r; rewrite length_fmap; [|lia].
              now rewrite Nat.sub_diag.
        -- now left.
        -- right. now rewrite Hdone.
    + rewrite Hlen. intros Hres m Hm.
      destruct (IH (done ++ [item]) valueMap errs Hmap' Hres m Hm)
        as [Hin | Hdup]; [now left|]. right. now rewrite Hdone.
Qed.

Lemma scan_fields_sound entityName items fields errs result :
  Forall not_nullish items ->
  scan_fields entityName items fields errs = inr result ->
  forall m,
    m ∈ result ->
    m ∈ errs
    \/ exists fieldName v firstIndex index u,
         m = DuplicateValue entityName v fieldName firstIndex index
         /\ fieldName ∈ fields
         /\ firstIndex < index
         /\ (field_value fieldName <$> items) !! firstIndex = Some u
         /\ (field_value fieldName <$> items) !! index = Some v
         /\ SameValueZero u v = true.
Proof.
  intros Hitems. revert errs.
  induction fields as [|field rest IH]; intros errs.
  - simpl. intros [= <-] m Hm. now left.
  - simpl.
    destruct (scan_field entityName field items 0 [] errs) as [e|errs1] eqn:E;
      [discriminate|].
    intros Hres m Hm. destruct (IH errs1 Hres m Hm) as [Hin | Hdup].
    + destruct (scan_field_sound entityName field [] items [] errs errs1
                  Hitems) with (m := m) as [Hin' | Hdup]; try assumption.
      * intros key i Hk. now apply elem_of_nil in Hk.
      * now left.
      * right. destruct Hdup as (v & first & idx & u & -> & Hlt & Hu & Hv & Hs).
        exists field, v, first, idx, u. repeat split; try assumption. left.
    + right.
      destruct Hdup as (f & v & first & idx & u & -> & Hf & Hlt & Hu & Hv & Hs).
      exists f, v, first, idx, u. repeat split; try assumption. now right.
Qed.

End Uniqueness.

(** X17. On an array of records none of which is null, [validateUniqueness]
    is valid exactly when, for every unique field, no two records hold the
    same value in it, the values null, undefined and the empty string not
    counting.  Every error it reports cites a field, a value and the
    indices of two different records, the first before the second, of
    which the second holds the value and the first the same value. *)
Theorem validateUniqueness_finds_duplicates (items : list value)
  (uniqueFields : list string) (entityName : string) :
  Forall not_nullish items ->
  exists errs,
    SeederValidation.validateUniqueness (VArr items) uniqueFields entityName
    = inr {| isValid := bool_decide (errs = []);
             errors := Some errs;
             warnings := Some [] |}
    /\ (errs = [] <->
        forall field, field ∈ uniqueFields -> no_duplicates field items)
    /\ (forall m,
           m ∈ errs ->
           exists fieldName v firstIndex index u,
             m = DuplicateValue entityName v fieldName firstIndex index
             /\ fieldName ∈ uniqueFields
             /\ firstIndex < index
             /\ (field_value fieldName <$> items) !! firstIndex = Some u
             /\ (field_value fieldName <$> items) !! index = Some v
             /\ SameValueZero u v = true).
Proof.
  intros Hitems.
  destruct (scan_fields_no_duplicates entityName items uniqueFields [] Hitems)
    as (errs & Hscan & Hiff).
  rewrite app_nil_l in Hscan. exists errs. split; [|split; [exact Hiff|]].
  - unfold SeederValidation.validateUniqueness. rewrite Hscan.
    do 2 f_equal. now destruct errs.
  - intros m Hm.
    destruct (scan_fields_sound entityName items uniqueFields [] errs Hitems
                Hscan m Hm) as [Hin | Hdup]; [now apply elem_of_nil in Hin|].
    exact Hdup.
Qed.

Section CrossReferences.
Import SeederValidation.

Lemma read_all_values items field :
  Forall not_nullish items ->
  read_all items field = inr (field_value field <$> items).
Proof.
  induction 1 as [|item items Hitem _ IH]; [reflexivity|].
  simpl. rewrite get_property_value by exact Hitem. now rewrite IH.
Qed.

Lemma Set_has_app members v u :
  Set_has (members ++ [v]) u = Set_has members u || SameValueZero v u.
Proof.
  unfold Set_has. rewrite existsb_app. simpl. now rewrite orb_false_r.
Qed.

Lemma Set_has_trans members v u :
  Set_has members v = true -> SameValueZero v u = true ->
  Set_has members u = true.
Proof.
  unfold Set_has. rewrite !existsb_exists.
  intros (m & Hin & Hm) Hvu. exists m. split; [exact Hin|].
  eapply SameValueZero_trans; eassumption.
Qed.

(** Building the set drops repeated values but loses no member. *)
Lemma Set_of_has_from members values u :
  Set_has
    (fold_left
       (fun members v => if Set_has members v then members else members ++ [v])
       values members) u
  = Set_has members u || existsb (fun v => SameValueZero v u) values.
Proof.
  revert members. induction values as [|v rest IH]; intros members; simpl.
  - now rewrite orb_false_r.
  - rewrite IH. destruct (Set_has members v) eqn:E.
    + destruct (SameValueZero v u) eqn:Evu; [|reflexivity].
      simpl. now rewrite (Set_has_trans members v u E Evu).
    + rewrite Set_has_app. now rewrite orb_assoc.
Qed.

Lemma Set_of_has values u :
  Set_has (Set_of values) u = existsb (fun v => SameValueZero v u) values.
Proof. unfold Set_of. now rewrite Set_of_has_from. Qed.

Lemma Set_of_found targetField targets referenceValue :
  Set_has (Set_of (field_value targetField <$> targets)) referenceValue = true
  <-> reference_found targetField targets referenceValue.
Proof.
  rewrite Set_of_has, existsb_exists. unfold reference_found. split.
  - intros (v & Hin & Hv). apply list_elem_of_In in Hin.
    apply list_elem_of_fmap in Hin as (target & -> & Hin).
    now exists target.
  - intros (target & Hin & Hv). exists (field_value targetField target).
    split; [|exact Hv]. apply list_elem_of_In, list_elem_of_fmap.
    now exists target.
Qed.

(** The errors the loop over the source records adds. *)
Lemma check_references_ok sourceName sourceField targetName targetField
  targetValues sources index errs :
  Forall not_nullish sources ->
  exists new,
    check_references sourceName sourceField targetName targetField
      targetValues sources index errs = inr (errs ++ new)
    /\ forall m,
         m ∈ new <->
         exists i source,
           sources !! i = Some source
           /\ m = ReferenceNotFound sourceName (index + i) sourceField
                    (field_value sourceField source) targetName targetField
           /\ is_nullish (field_value sourceField source) = false
           /\ Set_has targetValues (field_value sourceField source) = false.
Proof.
  intros Hsources. revert index errs.
  induction Hsources as [|source sources Hsource _ IH]; intros index errs.
  - exists []. simpl. rewrite app_nil_r. split; [reflexivity|].
    intros m. split; [intros H; now apply elem_of_nil in H|].
    intros (i & s & H & _). discriminate.
  - simpl. rewrite get_property_value by exact Hsource.
    set (ref := field_value sourceField source).
    destruct (negb (is_nullish ref) && negb (Set_has targetValues ref)) eqn:E.
    + apply andb_true_iff in E as [E1 E2].
      apply negb_true_iff in E1, E2.
      destruct (IH (S index)
                  (errs ++ [ReferenceNotFound sourceName index sourceField ref
                              targetName targetField]))
        as (new & -> & Hnew).
      exists (ReferenceNotFound sourceName index sourceField ref targetName
                targetField :: new).
      rewrite <- app_assoc. split; [reflexivity|].
      intros m. rewrite elem_of_cons, Hnew. split.
      * intros [-> | (i & s & Hi & -> & Hn & Hs)].
        -- exists 0, source. rewrite Nat.add_0_r. now repeat split.
        -- exists (S i), s. rewrite Nat.add_succ_r. now repeat split.
      * intros (i & s & Hi & -> & Hn & Hs). destruct i as [|i].
        -- injection Hi as <-. left. now rewrite Nat.add_0_r.
        -- right. exists i, s. rewrite Nat.add_succ_r. now repeat split.
    + destruct (IH (S index) errs) as (new & -> & Hnew).
      exists new. split; [reflexivity|].
      intros m. rewrite Hnew. split.
      * intros (i & s & Hi & -> & Hn & Hs).
        exists (S i), s. rewrite Nat.add_succ_r. now repeat split.
      * intros (i & s & Hi & -> & Hn & Hs). destruct i as [|i].
        -- injection Hi as <-. fold ref in Hn, Hs. rewrite Hn, Hs in E.
           discriminate.
        -- exists i, s. rewrite Nat.add_succ_r. now repeat split.
Qed.

(** The errors of the loop over the source records, one by one. *)
Lemma check_references_exact sourceName sourceField targetName targetField
  targetValues sources index errs :
  Forall not_nullish sources ->
  check_references sourceName sourceField targetName targetField
    targetValues sources index errs
  = inr (errs ++
         concat
           (imap
              (fun i source =>
                 let ref := field_value sourceField source in
                 if negb (is_nullish ref) && negb (Set_has targetValues ref)
                 then [ReferenceNotFound sourceName (index + i) sourceField
                         ref targetName targetField]
                 else [])
              sources)).
Proof.
  intros Hsources. revert index errs.
  induction Hsources as [|source sources Hsource _ IH]; intros index errs.
  - simpl. now rewrite app_nil_r.
  - cbn [check_references imap concat].
    rewrite get_property_value by exact Hsource.
    rewrite Nat.add_0_r.
    assert (Hshift : forall (f g : nat -> value -> list message) pre,
               (forall i x, f i x = g i x) ->
               @inr error _ (errs ++ pre ++ concat (imap f sources))
               = inr (errs ++ pre ++ concat (imap g sources))).
    { intros f g pre Hfg. do 4 f_equal. apply imap_ext. intros i x _.
      apply Hfg. }
    destruct (negb (is_nullish (field_value sourceField source))
              && negb (Set_has targetValues (field_value sourceField source)));
      rewrite IH, <- ?app_assoc;
      [apply (Hshift _ _ [_]) | apply (Hshift _ _ [])];
      intros i x; simpl;
      now replace (index + S i) with (S (index + i)) by lia.
Qed.

Lemma existsb_fmap {A B} (f : A -> B) (p : B -> bool) (l : list A) :
  existsb p (f <$> l) = existsb (fun x => p (f x)) l.
Proof.
  induction l as [|x l IH]; [reflexivity|].
  rewrite fmap_cons. cbn [existsb]. now rewrite IH.
Qed.

End CrossReferences.

Lemma validateCrossReferences_ok (sources targets : list value)
  (sourceField targetField sourceName targetName : string) :
  Forall not_nullish sources -> Forall not_nullish targets ->
  exists errs,
    SeederValidation.validateCrossReferences (VArr sources) (VArr targets)
      sourceField targetField sourceName targetName
    = inr {| isValid := bool_decide (errs = []);
             errors := Some errs;
             warnings := Some [] |}
    /\ (forall m,
           m ∈ errs <->
           exists index source,
             sources !! index = Some source
             /\ m = ReferenceNotFound sourceName index sourceField
                      (field_value sourceField source) targetName targetField
             /\ is_nullish (field_value sourceField source) = false
             /\ ~ reference_found targetField targets
                    (field_value sourceField source))
    /\ (errs = [] <->
        forall source,
          source ∈ sources ->
          is_nullish (field_value sourceField source) = false ->
          reference_found targetField targets (field_value sourceField source)).
Proof.
  intros Hsources Htargets.
  destruct (check_references_ok sourceName sourceField targetName targetField
              (SeederValidation.Set_of (field_value targetField <$> targets))
              sources 0 [] Hsources) as (errs & Hcheck & Helem).
  rewrite app_nil_l in Hcheck. exists errs.
  assert (Helem' : forall m,
    m ∈ errs <->
    exists index source,
      sources !! index = Some source
      /\ m = ReferenceNotFound sourceName index sourceField
               (field_value sourceField source) targetName targetField
      /\ is_nullish (field_value sourceField source) = false
      /\ ~ reference_found targetField targets
             (field_value sourceField source)).
  { intros m. rewrite Helem. split.
    - intros (i & s & Hi & -> & Hn & Hs). exists i, s.
      repeat split; try assumption.
      intros Hfound. apply Set_of_found in Hfound. congruence.
    - intros (i & s & Hi & -> & Hn & Hs). exists i, s.
      repeat split; try assumption.
      destruct (SeederValidation.Set_has _ _) eqn:E; [|reflexivity].
      apply Set_of_found in E. contradiction. }
  split; [|split; [exact Helem'|]].
  - unfold SeederValidation.validateCrossReferences.
    rewrite read_all_values by exact Htargets. rewrite Hcheck.
    do 2 f_equal. now destruct errs.
  - split.
    + intros Hnil source Hin Hn.
      destruct (SeederValidation.Set_has
                  (SeederValidation.Set_of (field_value targetField <$> targets))
                  (field_value sourceField source)) eqn:E;
        [now apply Set_of_found in E|].
      exfalso. apply list_elem_of_lookup in Hin as [i Hi].
      assert (Hm : ReferenceNotFound sourceName i sourceField
                     (field_value sourceField source) targetName targetField
                   ∈ errs).
      { apply Helem. exists i, source. now repeat split. }
      rewrite Hnil in Hm. now apply elem_of_nil in Hm.
    + intros Hall. destruct errs as [|m ms]; [reflexivity|]. exfalso.
      assert (Hm : m ∈ m :: ms) by left.
      apply Helem' in Hm as (i & s & Hi & _ & Hn & Hnot).
      apply Hnot, Hall; [|exact Hn].
      apply list_elem_of_lookup. now exists i.
Qed.


(** X18. On two arrays of records none of which is null or undefined,
    [validateCrossReferences] reports, in the order of the source records,
    exactly one error for each source record whose reference dangles: the
    reference is neither null nor undefined and is the value of the target
    field in no target record.  The error cites the index of the source
    record and the reference; a null or undefined reference is never an
    error.  The result is valid exactly when every reference that is not
    null or undefined is found. *)
Theorem validateCrossReferences_finds_dangling (sources targets : list value)
  (sourceField targetField sourceName targetName : string) :
  Forall not_nullish sources -> Forall not_nullish targets ->
  let errs :=
    concat
      (imap
         (fun index source =>
            let referenceValue := field_value sourceField source in
            if dangling targetField targets referenceValue
            then [ReferenceNotFound sourceName index sourceField
                    referenceValue targetName targetField]
            else [])
         sources) in
  SeederValidation.validateCrossReferences (VArr sources) (VArr targets)
    sourceField targetField sourceName targetName
  = inr {| isValid := bool_decide (errs = []);
           errors := Some errs;
           warnings := Some [] |}
  /\ (errs = [] <->
      forall source,
        source ∈ sources ->
        is_nullish (field_value sourceField source) = false ->
        reference_found targetField targets (field_value sourceField source)).
Proof.
  intros Hsources Htargets errs.
  destruct (validateCrossReferences_ok sources targets sourceField targetField
              sourceName targetName Hsources Htargets)
    as (errs' & Heq & _ & Hnil).
  assert (Hexact :
    SeederValidation.validateCrossReferences (VArr sources) (VArr targets)
      sourceField targetField sourceName targetName
    = inr {| isValid := (length errs =? 0)%nat;
             errors := Some errs;
             warnings := Some [] |}).
  { unfold SeederValidation.validateCrossReferences.
    rewrite read_all_values by exact Htargets.
    rewrite check_references_exact by exact Hsources.
    rewrite app_nil_l. subst errs.
    assert (Hsame :
      imap
        (fun i source =>
           let ref := field_value sourceField source in
           if negb (is_nullish ref)
              && negb (SeederValidation.Set_has
                         (SeederValidation.Set_of
                            (field_value targetField <$> targets)) ref)
           then [ReferenceNotFound sourceName (0 + i) sourceField ref
                   targetName targetField]
           else []) sources
      = imap
          (fun index source =>
             let referenceValue := field_value sourceField source in
             if dangling targetField targets referenceValue
             then [ReferenceNotFound sourceName index sourceField
                     referenceValue targetName targetField]
             else []) sources).
    { apply imap_ext. intros i x _. cbv zeta. unfold dangling.
      now rewrite Set_of_has, existsb_fmap. }
    now rewrite Hsame. }
  rewrite Heq in Hexact. injection Hexact as _ Herrs. subst errs'.
  split; [exact Heq | exact Hnil].
Qed.

Section Reports.
Import SeederValidation.
Context {A : Type}.

Lemma report_fold (results : list (ValidationResult A)) es ws total passed :
  fold_left report_step results (es, ws, total, passed)
  = (es ++ concat (errors_of <$> results),
     ws ++ concat (warnings_of <$> results),
     total + length results,
     passed + length (filter (fun r => isValid r = true) results)).
Proof.
  revert es ws total passed.
  induction results as [|r rest IH]; intros es ws total passed; simpl.
  - now rewrite !app_nil_r, !Nat.add_0_r.
  - rewrite IH. unfold errors_of, warnings_of.
    rewrite filter_cons.
    destruct (decide (isValid r = true)) as [H|H].
    + rewrite H. destruct (errors r) as [e|], (warnings r) as [x|]; simpl;
        rewrite ?app_nil_r, <- ?app_assoc; repeat f_equal; lia.
    + destruct (isValid r); [congruence|].
      destruct (errors r) as [e|], (warnings r) as [x|]; simpl;
        rewrite ?app_nil_r, <- ?app_assoc; repeat f_equal; lia.
Qed.

End Reports.

(** X19. [generateValidationReport] counts one validation per result and
    as passed those flagged valid, so that passed and failed add up to the
    total; it gathers the errors and the warnings of the results in order;
    and it calls the whole valid exactly when no result carries an error,
    whatever the flags of the results say. *)
Theorem generateValidationReport_counts {A : Type}
  (results : list (ValidationResult A)) :
  let report := SeederValidation.generateValidationReport results in
  SeederValidation.totalValidations report = length results
  /\ SeederValidation.passedValidations report
     = length (filter (fun r => isValid r = true) results)
  /\ SeederValidation.passedValidations report + SeederValidation.failedValidations report
     = SeederValidation.totalValidations report
  /\ SeederValidation.report_errors report = concat (errors_of <$> results)
  /\ SeederValidation.report_warnings report = concat (warnings_of <$> results)
  /\ (SeederValidation.report_isValid report = true <->
      forall r, r ∈ results -> errors_of r = []).
Proof.
  unfold SeederValidation.generateValidationReport.
  rewrite report_fold. cbn -[Nat.eqb].
  pose proof (length_filter (fun r : ValidationResult A => isValid r = true)
                results) as Hle.
  split; [reflexivity|]. split; [reflexivity|]. split; [lia|].
  split; [reflexivity|]. split; [reflexivity|].
  rewrite Nat.eqb_eq, length_zero_iff_nil. clear Hle.
  induction results as [|r rest IH]; simpl.
  - split; [|reflexivity]. intros _ r Hr. now apply elem_of_nil in Hr.
  - split.
    + intros H. apply app_eq_nil in H as [Hr Hrest].
      intros r' Hr'. apply elem_of_cons in Hr' as [-> | Hr']; [exact Hr|].
      now apply IH.
    + intros H. rewrite (H r) by left. simpl. apply IH.
      intros r' Hr'. apply H. now right.
Qed.

(** ** The further properties at work *)

Lemma cache_returns_first_resolution_witness :
  let stringify : CustomConfig -> string := fun _ => "{}" in
  let env1 := example_env no_file no_json ticking_clock accepting_db in
  let env2 :=
    {| fs_readFile := no_file; JSON_parse := no_json;
       Date_now := ticking_clock; db_rejects := accepting_db;
       model_tableName := fun _ => Some "Items";
       model_modelName := fun _ => None;
       discoverValidFields := fun _ => ["name"];
       discoverRequiredFields := fun _ => [];
       dataPath := "data" |} in
  let config := SeederConfig.getEntityConfig env1 "Products" no_overrides in
  let configs :=
    (CachedConfig.resolve_all stringify ∅
       ((env1, "Products", no_overrides)
        :: [(env2, "Orders", no_overrides);
            (env2, "Products", no_overrides)])).1 in
  configs !! 0 = Some config
  /\ forall i env' entity' customConfig',
       [(env2, "Orders", no_overrides); (env2, "Products", no_overrides)] !! i
       = Some (env', entity', customConfig') ->
       CachedConfig.cacheKey stringify entity' customConfig'
       = CachedConfig.cacheKey stringify "Products" no_overrides ->
       configs !! S i = Some config.
Proof.
  intros stringify env1 env2.
  apply (cache_returns_first_resolution stringify ∅ env1 "Products"
           no_overrides
           [(env2, "Orders", no_overrides); (env2, "Products", no_overrides)]).
  reflexivity.
Defined.

Lemma validateRequiredFields_after_normalization_witness :
  exists result,
    SeederValidation.validateRequiredFields (VArr (VObj <$> [john]))
      (SeederValidation.FieldList ["userName"; "email"])
    = inr result
    /\ (isValid result = true <->
        forall item field,
          item ∈ [VObj john_blank_email] ->
          field ∈ ["userName"; "email"] ->
          field <> "__proto__"
          /\ exists v, own_enumerable item !! field = Some v
                       /\ spec_normalize_field v <> None).
Proof.
  apply (validateRequiredFields_after_normalization
           [VObj john_blank_email] [john] ["userName"; "email"]).
  - constructor; [vm_compute; reflexivity | constructor].
  - constructor; [vm_compute; reflexivity | constructor].
Defined.

Lemma validateUniqueness_finds_duplicates_witness :
  exists errs,
    SeederValidation.validateUniqueness
      (VArr [VObj (<["email" := VStr "a@x.com"]> ∅);
             VObj (<["email" := VStr "b@x.com"]> ∅);
             VObj (<["email" := VStr "a@x.com"]> ∅)])
      ["email"] "User"
    = inr {| isValid := bool_decide (errs = []);
             errors := Some errs;
             warnings := Some [] |}
    /\ (errs = [] <->
        forall field,
          field ∈ ["email"] ->
          no_duplicates field
            [VObj (<["email" := VStr "a@x.com"]> ∅);
             VObj (<["email" := VStr "b@x.com"]> ∅);
             VObj (<["email" := VStr "a@x.com"]> ∅)])
    /\ (forall m,
           m ∈ errs ->
           exists fieldName v firstIndex index u,
             m = DuplicateValue "User" v fieldName firstIndex index
             /\ fieldName ∈ ["email"]
             /\ firstIndex < index
             /\ (field_value fieldName
                   <$> [VObj (<["email" := VStr "a@x.com"]> ∅);
                        VObj (<["email" := VStr "b@x.com"]> ∅);
                        VObj (<["email" := VStr "a@x.com"]> ∅)])
                !! firstIndex = Some u
             /\ (field_value fieldName
                   <$> [VObj (<["email" := VStr "a@x.com"]> ∅);
                        VObj (<["email" := VStr "b@x.com"]> ∅);
                        VObj (<["email" := VStr "a@x.com"]> ∅)])
                !! index = Some v
             /\ SameValueZero u v = true).
Proof.
  apply (validateUniqueness_finds_duplicates
           [VObj (<["email" := VStr "a@x.com"]> ∅);
            VObj (<["email" := VStr "b@x.com"]> ∅);
            VObj (<["email" := VStr "a@x.com"]> ∅)]
           ["email"] "User").
  repeat constructor.
Defined.

Lemma validateCrossReferences_finds_dangling_witness :
  SeederValidation.validateCrossReferences
    (VArr [VObj (<["roleId" := VNum 1]> ∅); VObj (<["roleId" := VNum 7]> ∅);
           VObj (<["roleId" := VNull]> ∅); VObj (<["roleId" := VNum 7]> ∅)])
    (VArr [VObj (<["id" := VNum 1]> ∅); VObj (<["id" := VNum 2]> ∅)])
    "roleId" "id" "User" "Role"
  = inr {| isValid := false;
           errors :=
             Some [ReferenceNotFound "User" 1 "roleId" (VNum 7) "Role" "id";
                   ReferenceNotFound "User" 3 "roleId" (VNum 7) "Role" "id"];
           warnings := Some [] |}.
Proof.
  rewrite (proj1 (validateCrossReferences_finds_dangling
                    [VObj (<["roleId" := VNum 1]> ∅);
                     VObj (<["roleId" := VNum 7]> ∅);
                     VObj (<["roleId" := VNull]> ∅);
                     VObj (<["roleId" := VNum 7]> ∅)]
                    [VObj (<["id" := VNum 1]> ∅); VObj (<["id" := VNum 2]> ∅)]
                    "roleId" "id" "User" "Role"
                    ltac:(repeat constructor) ltac:(repeat constructor))).
  vm_compute. reflexivity.
Defined.

(** The scenario of the design document: three records, the first and the
    third with the same email. *)
Example validateUniqueness_scenario :
  SeederValidation.validateUniqueness
    (VArr [VObj (<["email" := VStr "a@x.com"]> ∅);
           VObj (<["email" := VStr "b@x.com"]> ∅);
           VObj (<["email" := VStr "a@x.com"]> ∅)])
    ["email"] "User"
  = inr {| isValid := false;
           errors := Some [DuplicateValue "User" (VStr "a@x.com") "email" 0 2];
           warnings := Some [] |}.
Proof. reflexivity. Qed.

Example validateCrossReferences_scenario :
  SeederValidation.validateCrossReferences
    (VArr [VObj (<["roleId" := VNum 1]> ∅); VObj (<["roleId" := VNum 7]> ∅);
           VObj (<["roleId" := VNull]> ∅)])
    (VArr [VObj (<["id" := VNum 1]> ∅); VObj (<["id" := VNum 2]> ∅)])
    "roleId" "id" "User" "Role"
  = inr {| isValid := false;
           errors :=
             Some [ReferenceNotFound "User" 1 "roleId" (VNum 7) "Role" "id"];
           warnings := Some [] |}.
Proof. reflexivity. Qed.

(** A result flagged invalid that carries no error counts as failed, and
    the report is valid all the same. *)
Example report_of_flagged_result :
  SeederValidation.generateValidationReport
    [{| isValid := false; errors := Some ([] : list message);
        warnings := None |}]
  = {| SeederValidation.report_isValid := true;
       SeederValidation.totalValidations := 1;
       SeederValidation.passedValidations := 0;
       SeederValidation.failedValidations := 1;
       SeederValidation.report_errors := [];
       SeederValidation.report_warnings := [] |}.
Proof. reflexivity. Qed.
